(** * Flag-football play designer: canvas engine, element model and history

    A shallow embedding of the TypeScript sources under
    [features/play-designer] (utils.ts, hooks/useHistory.ts,
    components/PlayCanvas.tsx, components/FieldGrid.tsx,
    components/BoardView.tsx) and of the two application shells (the
    single-file App.tsx and the modular one), with the properties the
    design document states about them and further properties of the code.

    Conventions.
    - A JavaScript [number] is [NaN], an infinity, or a finite value; a finite
      binary64 is a rational, so finite values are carried as [Q] and the
      arithmetic on them is exact (binary64 rounding, overflow and the sign
      of zero are not modelled).
    - [Math.hypot] only ever feeds a comparison, so a length is carried as
      its square: [sqrt a < sqrt b] is [a < b] on non-negative rationals.
    - An object read back from storage is a finite map from keys to values;
      a spread [{...o, k: v}] is an insertion into that map.
    - React refs and state cells become fields of an explicit state record. *)

From Stdlib Require Import QArith Qround Qabs Lia Lqa.
From stdpp Require Import gmap strings list fin_maps.

Set Default Proof Using "Type".
#[local] Set Warnings "-register-all".

(* ===================================================================== *)
(** ** JavaScript numbers *)
(* ===================================================================== *)

Module JS.

Inductive number : Type :=
| NaN
| PosInf
| NegInf
| Finite (q : Q).

(** Numerical equality of numbers: [Q] has several representations of one
    rational. [NaN] is related to itself here; this is the equality of
    results, not the [===] of the language. *)
Definition num_eq (a b : number) : Prop :=
  match a, b with
  | NaN, NaN | PosInf, PosInf | NegInf, NegInf => True
  | Finite x, Finite y => (x == y)%Q
  | _, _ => False
  end.

#[global] Instance number_equiv : Equiv number := num_eq.

Definition Qltb (a b : Q) : bool := negb (Qle_bool b a).

(** [Number.isFinite] *)
Definition isFinite (n : number) : bool :=
  match n with Finite _ => true | _ => false end.

(** ToBoolean on a number: [NaN] and zero are falsy. *)
Definition truthy (n : number) : bool :=
  match n with
  | NaN => false
  | Finite q => negb (Qeq_bool q 0)
  | PosInf | NegInf => true
  end.

(** [a || b] on numbers. *)
Definition or (a b : number) : number := if truthy a then a else b.

(** [a ?? b] where the left operand may be null or undefined. *)
Definition nullish {A} (a : option A) (b : A) : A :=
  match a with Some v => v | None => b end.

Definition add (a b : number) : number :=
  match a, b with
  | NaN, _ | _, NaN => NaN
  | PosInf, NegInf | NegInf, PosInf => NaN
  | PosInf, _ | _, PosInf => PosInf
  | NegInf, _ | _, NegInf => NegInf
  | Finite x, Finite y => Finite (x + y)
  end.

Definition neg (a : number) : number :=
  match a with
  | NaN => NaN
  | PosInf => NegInf
  | NegInf => PosInf
  | Finite x => Finite (- x)
  end.

Definition sub (a b : number) : number := add a (neg b).

(** infinity of the given sign times a finite factor *)
Definition scale_inf (positive : bool) (q : Q) : number :=
  if Qeq_bool q 0 then NaN
  else if Qltb 0 q then (if positive then PosInf else NegInf)
  else (if positive then NegInf else PosInf).

Definition mul (a b : number) : number :=
  match a, b with
  | NaN, _ | _, NaN => NaN
  | Finite x, Finite y => Finite (x * y)
  | PosInf, PosInf | NegInf, NegInf => PosInf
  | PosInf, NegInf | NegInf, PosInf => NegInf
  | PosInf, Finite q | Finite q, PosInf => scale_inf true q
  | NegInf, Finite q | Finite q, NegInf => scale_inf false q
  end.

Definition div (a b : number) : number :=
  match a, b with
  | NaN, _ | _, NaN => NaN
  | Finite x, Finite y =>
      if Qeq_bool y 0
      then (if Qeq_bool x 0 then NaN else if Qltb 0 x then PosInf else NegInf)
      else Finite (x / y)
  | Finite _, (PosInf | NegInf) => Finite 0
  | (PosInf | NegInf), (PosInf | NegInf) => NaN
  | PosInf, Finite y => if Qltb y 0 then NegInf else PosInf
  | NegInf, Finite y => if Qltb y 0 then PosInf else NegInf
  end.

Module Math.

(** [Math.max] of two arguments. *)
Definition max (a b : number) : number :=
  match a, b with
  | NaN, _ | _, NaN => NaN
  | PosInf, _ | _, PosInf => PosInf
  | NegInf, x | x, NegInf => x
  | Finite x, Finite y => if Qle_bool x y then Finite y else Finite x
  end.

(** [Math.min] of two arguments. *)
Definition min (a b : number) : number :=
  match a, b with
  | NaN, _ | _, NaN => NaN
  | NegInf, _ | _, NegInf => NegInf
  | PosInf, x | x, PosInf => x
  | Finite x, Finite y => if Qle_bool x y then Finite x else Finite y
  end.

(** [Math.round]: the nearest integer, halves towards plus infinity. *)
Definition roundQ (q : Q) : Z := Qfloor (q + (1 # 2)).

Definition round (a : number) : number :=
  match a with
  | Finite q => Finite (inject_Z (roundQ q))
  | other => other
  end.

End Math.

End JS.

Import JS.

(* ===================================================================== *)
(** ** utils.ts: field constants, clamp, computeFieldSize *)
(* ===================================================================== *)

Record Dimensions : Type := mkDimensions { w : number; h : number }.

#[global] Instance dimensions_equiv : Equiv Dimensions :=
  fun a b => w a ≡ w b ∧ h a ≡ h b.

Module FIELD_CONSTANTS.
Definition DEFAULT_PLAY_SIZE : Dimensions :=
  {| w := Finite 600; h := Finite 800 |}.
Definition FIELD_MARGIN_VERTICAL : number := Finite 40.
Definition FIELD_MARGIN_HORIZONTAL : number := Finite 40.
Definition DEFAULT_DIVISIONS : number := Finite 20.
Definition DEFAULT_FIELD_WIDTH : number := Finite 30.
Definition DEFAULT_LINE_OF_SCRIMMAGE : number := Finite 5.
Definition SNAP_RADIUS : Q := 18.
End FIELD_CONSTANTS.

Definition BASE_UNIT_PX : number :=
  div (sub (h FIELD_CONSTANTS.DEFAULT_PLAY_SIZE)
           (mul FIELD_CONSTANTS.FIELD_MARGIN_VERTICAL (Finite 2)))
      FIELD_CONSTANTS.DEFAULT_DIVISIONS.

(** [clamp(value, min, max)]: the lower bound when [value] is not finite. *)
Definition clamp (value min max : number) : number :=
  if negb (isFinite value) then min
  else Math.max min (Math.min max value).

(** The coercion applied to each argument of [computeFieldSize]:
    [Math.max(1, Math.round(yards) || 1)]. *)
Definition yardUnits (yards : number) : number :=
  Math.max (Finite 1) (or (Math.round yards) (Finite 1)).

Definition computeFieldSize (widthYards lengthYards : number) : Dimensions :=
  let widthUnits := yardUnits widthYards in
  let lengthUnits := yardUnits lengthYards in
  {| w := add (mul FIELD_CONSTANTS.FIELD_MARGIN_HORIZONTAL (Finite 2))
              (mul widthUnits BASE_UNIT_PX);
     h := add (mul FIELD_CONSTANTS.FIELD_MARGIN_VERTICAL (Finite 2))
              (mul lengthUnits BASE_UNIT_PX) |}.

(** The single-file App.tsx carries an older copy that does not round:
    [Math.max(1, yards || 1)]. *)
Module Legacy.
Definition yardUnits (yards : number) : number :=
  Math.max (Finite 1) (or yards (Finite 1)).

Definition computeFieldSize (widthYards lengthYards : number) : Dimensions :=
  {| w := add (mul FIELD_CONSTANTS.FIELD_MARGIN_HORIZONTAL (Finite 2))
              (mul (yardUnits widthYards) BASE_UNIT_PX);
     h := add (mul FIELD_CONSTANTS.FIELD_MARGIN_VERTICAL (Finite 2))
              (mul (yardUnits lengthYards) BASE_UNIT_PX) |}.
End Legacy.

(* ===================================================================== *)
(** ** Stored documents: objects, elements and plays *)
(* ===================================================================== *)

(** What [JSON.parse] can return, plus [undefined] for an absent property. *)
Inductive value : Type :=
| VUndefined
| VNull
| VBool (b : bool)
| VNum (n : number)
| VStr (s : string)
| VArr (items : list value)
| VObj (props : gmap string value).

(** Property read [o.k]: an absent key reads as [undefined]. *)
Definition get (o : gmap string value) (k : string) : value :=
  default VUndefined (o !! k).

(** [v ?? d] *)
Definition coalesce (v d : value) : value :=
  match v with
  | VUndefined | VNull => d
  | _ => v
  end.

(** [Number.isFinite(v) ? v : d]; [Number.isFinite] is false on every
    value that is not a number. *)
Definition finiteOr (v : value) (d : number) : value :=
  match v with
  | VNum n => if isFinite n then v else VNum d
  | _ => VNum d
  end.

Module ELEMENT_TYPE.
Definition PLAYER : string := "player".
Definition BALL : string := "ball".
Definition ARROW : string := "arrow".
Definition PERP_LINE : string := "perp_line".
Definition LINE : string := "line".
Definition RECT : string := "rect".
Definition ZONE : string := "zone".
End ELEMENT_TYPE.

Module STROKE_STYLE.
Definition SOLID : string := "solid".
Definition DASHED : string := "dashed".
End STROKE_STYLE.

Definition DEFAULT_PALETTE : list string :=
  ["#111827"; "#ef4444"; "#f59e0b"; "#10b981";
   "#3b82f6"; "#8b5cf6"; "#ec4899"; "#c0c0c0"].

(** [DEFAULT_PALETTE[0]] *)
Definition DEFAULT_PALETTE_0 : value :=
  match DEFAULT_PALETTE !! 0%nat with
  | Some c => VStr c
  | None => VUndefined
  end.

(** [normaliseElement]: the [switch] compares [element.type] with the seven
    tags by strict equality, so only a string can select a branch. *)
Definition normaliseElement (element : gmap string value) : gmap string value :=
  match get element "type" with
  | VStr t =>
      if decide (t = ELEMENT_TYPE.PLAYER) then
        <["r" := finiteOr (get element "r") (Finite 25)]>
          (<["color" := coalesce (get element "color") DEFAULT_PALETTE_0]>
             (<["label" := coalesce (get element "label") (VStr "")]> element))
      else if decide (t = ELEMENT_TYPE.BALL) then
        <["color" := coalesce (get element "color") (VStr "#a16207")]> element
      else if decide (t = ELEMENT_TYPE.ARROW ∨ t = ELEMENT_TYPE.LINE) then
        <["color" := coalesce (get element "color") DEFAULT_PALETTE_0]>
          (<["thickness" := finiteOr (get element "thickness") (Finite 3)]>
             (<["style" := coalesce (get element "style") (VStr STROKE_STYLE.SOLID)]>
                element))
      else if decide (t = ELEMENT_TYPE.PERP_LINE) then
        <["color" := coalesce (get element "color") DEFAULT_PALETTE_0]>
          (<["tick" := finiteOr (get element "tick") (Finite 12)]>
             (<["thickness" := finiteOr (get element "thickness") (Finite 3)]>
                (<["style" := coalesce (get element "style") (VStr STROKE_STYLE.SOLID)]>
                   element)))
      else if decide (t = ELEMENT_TYPE.RECT ∨ t = ELEMENT_TYPE.ZONE) then
        <["h" := finiteOr (get element "h") (Finite 0)]>
          (<["w" := finiteOr (get element "w") (Finite 0)]>
             (<["color" := coalesce (get element "color") DEFAULT_PALETTE_0]> element))
      else element
  | _ => element
  end.

(** Outcome of a call that may raise. *)
Inductive outcome (A : Type) : Type :=
| Returned (a : A)
| Thrown (error : string).
Arguments Returned {A} a.
Arguments Thrown {A} error.

(** The call [normaliseElement(v)] on an arbitrary run-time value: reading
    [.type] raises a [TypeError] on [null] and [undefined]; on any other
    primitive and on an array it reads [undefined] and the value is handed
    back by the [default] branch. *)
Definition callNormaliseElement (v : value) : outcome value :=
  match v with
  | VUndefined | VNull => Thrown "TypeError"
  | VObj element => Returned (VObj (normaliseElement element))
  | other => Returned other
  end.

(** A play. [ES] is the type of the [elements] field: a list of typed
    elements on the canvas, a possibly absent list of stored objects when
    the play comes from storage. A yard field or the line of scrimmage is
    [None] when it is [null] or [undefined]. *)
Record Play (ES : Type) : Type := mkPlay {
  id : string;
  name : string;
  size : Dimensions;
  lineOfScrimmage : option number;
  fieldWidthYards : option number;
  fieldLengthYards : option number;
  elements : ES
}.
Arguments mkPlay {ES}.
Arguments id {ES}.
Arguments name {ES}.
Arguments size {ES}.
Arguments lineOfScrimmage {ES}.
Arguments fieldWidthYards {ES}.
Arguments fieldLengthYards {ES}.
Arguments elements {ES}.

(** [o || d] on a field: an absent field is falsy. *)
Definition orField (o : option number) (d : number) : number :=
  match o with Some n => or n d | None => d end.

(** [Math.round(o) || d] on a field: [Math.round] gives [NaN] on
    [undefined] and 0 on [null], both falsy. *)
Definition roundFieldOr (o : option number) (d : number) : number :=
  match o with Some n => or (Math.round n) d | None => d end.

Definition normalisePlay (raw : Play (option (list (gmap string value))))
  : Play (list (gmap string value)) :=
  let safeWidth :=
    Math.max (Finite 1)
      (orField (fieldWidthYards raw) FIELD_CONSTANTS.DEFAULT_FIELD_WIDTH) in
  let safeLength :=
    Math.max (Finite 1)
      (roundFieldOr (fieldLengthYards raw) FIELD_CONSTANTS.DEFAULT_DIVISIONS) in
  let safeLOS :=
    match lineOfScrimmage raw with
    | None => FIELD_CONSTANTS.DEFAULT_LINE_OF_SCRIMMAGE
    | Some los => clamp (Math.round los) (Finite 0) safeLength
    end in
  {| id := id raw;
     name := name raw;
     fieldWidthYards := Some safeWidth;
     fieldLengthYards := Some safeLength;
     lineOfScrimmage := Some safeLOS;
     size := computeFieldSize safeWidth safeLength;
     elements :=
       match elements raw with
       | Some es => map normaliseElement es
       | None => []
       end |}.

Definition normalisePlayCollection
  (plays : list (Play (option (list (gmap string value)))))
  : list (Play (list (gmap string value))) :=
  map normalisePlay plays.

(** *** Line of scrimmage at the mutation sites *)

Definition withLineOfScrimmage {ES} (play : Play ES) (los : option number)
  : Play ES :=
  {| id := id play; name := name play; size := size play;
     lineOfScrimmage := los;
     fieldWidthYards := fieldWidthYards play;
     fieldLengthYards := fieldLengthYards play;
     elements := elements play |}.

(** Modular shell, [handleLineOfScrimmageChange]: the updater applied to
    the active play. *)
Definition handleLineOfScrimmageChange {ES} (value : option number)
  (play : Play ES) : Play ES :=
  match value with
  | None => withLineOfScrimmage play None
  | Some v =>
      let maxLOS :=
        Math.max (Finite 0)
          (Math.round
             (nullish (fieldLengthYards play) FIELD_CONSTANTS.DEFAULT_DIVISIONS)) in
      withLineOfScrimmage play (Some (clamp (Math.round v) (Finite 0) maxLOS))
  end.

(** Single-file shell, [setActiveLOS], on the active play. *)
Definition setActiveLOS {ES} (active : Play ES) (val : option number) : Play ES :=
  let maxLOS :=
    Math.max (Finite 1)
      (Math.round
         (nullish (fieldLengthYards active) FIELD_CONSTANTS.DEFAULT_DIVISIONS)) in
  let nextLOS :=
    match val with
    | None => None
    | Some v => Some (Math.min (Math.max (Finite 0) (Math.round v)) maxLOS)
    end in
  withLineOfScrimmage active nextLOS.

(* ===================================================================== *)
(** ** hooks/useHistory.ts *)
(* ===================================================================== *)

Module History.
Section WithSnapshot.

(** The hook is generic in what it stores; the shell instantiates it with
    [DesignerSnapshot]. *)
Context {Snapshot : Type}.

(** The four refs of the hook. Arrays grow at their end: the most recent
    entry of a stack is its last element. *)
Record state : Type := mkState {
  undoStack : list Snapshot;
  redoStack : list Snapshot;
  previous : Snapshot;
  skipNext : bool
}.

(** [Math.max(1, options.capacity ?? 50)], for a capacity given as a whole
    number. *)
Definition capacityOf (option_capacity : option Z) : nat :=
  Z.to_nat (Z.max 1 (nullish option_capacity 50%Z)).

(** [a.slice(-n)] for [n > 0]: the last [n] entries. *)
Definition sliceLast (n : nat) (a : list Snapshot) : list Snapshot :=
  drop (length a - n) a.

(** [a.slice(0, -1)]: all but the last entry. *)
Definition sliceInit (a : list Snapshot) : list Snapshot :=
  take (length a - 1) a.

(** State of the refs after the first render. *)
Definition useHistory (initialSnapshot : Snapshot) : state :=
  {| undoStack := []; redoStack := [];
     previous := initialSnapshot; skipNext := true |}.

Definition reset (st : state) (snapshot : Snapshot) : state :=
  {| undoStack := []; redoStack := [];
     previous := snapshot; skipNext := true |}.

Definition register (capacity : nat) (st : state) (snapshot : Snapshot)
  : state :=
  if skipNext st then
    {| undoStack := undoStack st; redoStack := redoStack st;
       previous := snapshot; skipNext := false |}
  else
    let pushed := undoStack st ++ [previous st] in
    let trimmed :=
      if (capacity <? length pushed)%nat
      then sliceLast capacity pushed else pushed in
    {| undoStack := trimmed; redoStack := [];
       previous := snapshot; skipNext := skipNext st |}.

(** [undo] and [redo] return the restored snapshot, or [None] for [null],
    together with the refs afterwards. *)
Definition undo (st : state) : option Snapshot * state :=
  match last (undoStack st) with
  | None => (None, st)
  | Some prev =>
      (Some prev,
       {| undoStack := sliceInit (undoStack st);
          redoStack := redoStack st ++ [previous st];
          previous := prev; skipNext := true |})
  end.

Definition redo (st : state) : option Snapshot * state :=
  match last (redoStack st) with
  | None => (None, st)
  | Some next =>
      (Some next,
       {| undoStack := undoStack st ++ [previous st];
          redoStack := sliceInit (redoStack st);
          previous := next; skipNext := true |})
  end.

(** Calls issued by the shell, and runs of them. *)
Inductive call : Type :=
| Reset (snapshot : Snapshot)
| Register (snapshot : Snapshot)
| Undo
| Redo.

Definition step (capacity : nat) (st : state) (c : call) : state :=
  match c with
  | Reset s => reset st s
  | Register s => register capacity st s
  | Undo => (undo st).2
  | Redo => (redo st).2
  end.

Definition run (capacity : nat) (st : state) (cs : list call) : state :=
  fold_left (step capacity) cs st.

Definition registerAll (capacity : nat) (st : state) (ss : list Snapshot)
  : state :=
  fold_left (register capacity) ss st.

(** [n] calls in a row of [undo] (resp. [redo]): what each call returned,
    in call order, and the refs at the end. *)
Fixpoint undoTimes (n : nat) (st : state) : list (option Snapshot) * state :=
  match n with
  | O => ([], st)
  | S k =>
      let '(r, st1) := undo st in
      let '(rs, st2) := undoTimes k st1 in
      (r :: rs, st2)
  end.

Fixpoint redoTimes (n : nat) (st : state) : list (option Snapshot) * state :=
  match n with
  | O => ([], st)
  | S k =>
      let '(r, st1) := redo st in
      let '(rs, st2) := redoTimes k st1 in
      (r :: rs, st2)
  end.

(** The last call of a run that did not return [null]. *)
Fixpoint lastReturned (rs : list (option Snapshot)) : option Snapshot :=
  match rs with
  | [] => None
  | r :: rest =>
      match lastReturned rest with
      | Some s => Some s
      | None => r
      end
  end.

End WithSnapshot.
Arguments state : clear implicits.
End History.

(** types.ts: what the shell stores in the history. *)
Record DesignerSnapshot (ES : Type) : Type := mkSnapshot {
  plays : list (Play ES);
  activeId : option string
}.
Arguments mkSnapshot {ES}.
Arguments plays {ES}.
Arguments activeId {ES}.

(** [{ ...play, elements: es }] *)
Definition withElements {ES ES'} (play : Play ES) (es : ES') : Play ES' :=
  {| id := id play; name := name play; size := size play;
     lineOfScrimmage := lineOfScrimmage play;
     fieldWidthYards := fieldWidthYards play;
     fieldLengthYards := fieldLengthYards play;
     elements := es |}.

(* ===================================================================== *)
(** ** Lengths *)
(* ===================================================================== *)

(** A non-negative real known by its square: the value of [Math.hypot] on
    rationals, or a non-negative rational constant. *)
Module Length.
Record t : Type := mk { squared : Q }.

(** [Math.hypot(dx, dy)] *)
Definition hypot (dx dy : Q) : t := {| squared := dx * dx + dy * dy |}.

(** a non-negative constant such as the snap radius *)
Definition px (r : Q) : t := {| squared := r * r |}.

(** [a < b] *)
Definition ltb (a b : t) : bool := Qltb (squared a) (squared b).

Definition lt (a b : t) : Prop := (squared a < squared b)%Q.
Definition le (a b : t) : Prop := (squared a <= squared b)%Q.
End Length.

(* ===================================================================== *)
(** ** components/PlayCanvas.tsx *)
(* ===================================================================== *)

Module Canvas.

Record SnapPoint : Type := mkPoint { x : Q; y : Q }.

Inductive StrokeStyle : Type := SOLID | DASHED.

(** An element without its identifier ([Omit<T, "id">]), one constructor
    per interface of types.ts. *)
Inductive ElementBody : Type :=
| PlayerElement (x y : Q) (color label : string) (r : Q)
| BallElement (x y : Q) (color : string)
| ArrowElement (x1 y1 x2 y2 : Q) (color : string) (style : StrokeStyle)
    (thickness : Q)
| LineElement (x1 y1 x2 y2 : Q) (color : string) (style : StrokeStyle)
    (thickness : Q)
| PerpendicularLineElement (x1 y1 x2 y2 : Q) (color : string)
    (style : StrokeStyle) (thickness tick : Q)
| RectElement (x y w h : Q) (color : string)
| ZoneElement (x y w h : Q) (color : string).

Record PlayElement : Type := mkElement { id : string; body : ElementBody }.

(** The draft under the pointer: the five drawable shapes, all carrying the
    fixed identifier ["draft"]. *)
Inductive DraftState : Type :=
| DraftArrow (x1 y1 x2 y2 : Q) (color : string) (style : StrokeStyle)
    (thickness : Q)
| DraftLine (x1 y1 x2 y2 : Q) (color : string) (style : StrokeStyle)
    (thickness : Q)
| DraftPerpendicularLine (x1 y1 x2 y2 : Q) (color : string)
    (style : StrokeStyle) (thickness tick : Q)
| DraftRect (x y w h : Q) (color : string)
| DraftZone (x y w h : Q) (color : string).

Record DragState : Type := mkDrag { dragId : string; offsetX : Q; offsetY : Q }.

(** [const { id: _draftId, ...elementWithoutId } = finalDraft] *)
Definition elementWithoutId (d : DraftState) : ElementBody :=
  match d with
  | DraftArrow x1 y1 x2 y2 c s t => ArrowElement x1 y1 x2 y2 c s t
  | DraftLine x1 y1 x2 y2 c s t => LineElement x1 y1 x2 y2 c s t
  | DraftPerpendicularLine x1 y1 x2 y2 c s t k =>
      PerpendicularLineElement x1 y1 x2 y2 c s t k
  | DraftRect x y w h c => RectElement x y w h c
  | DraftZone x y w h c => ZoneElement x y w h c
  end.

(** Both ends of a line-like draft; [None] on a rect or zone. *)
Definition draftEnds (d : DraftState) : option (SnapPoint * SnapPoint) :=
  match d with
  | DraftArrow x1 y1 x2 y2 _ _ _
  | DraftLine x1 y1 x2 y2 _ _ _
  | DraftPerpendicularLine x1 y1 x2 y2 _ _ _ _ =>
      Some (mkPoint x1 y1, mkPoint x2 y2)
  | DraftRect _ _ _ _ _ | DraftZone _ _ _ _ _ => None
  end.

(** Width and height of a rect or zone draft; [None] on a line-like one. *)
Definition draftExtent (d : DraftState) : option (Q * Q) :=
  match d with
  | DraftRect _ _ w h _ | DraftZone _ _ w h _ => Some (w, h)
  | _ => None
  end.

(** [{ ...draftState, x2: p.x, y2: p.y }] *)
Definition withEnd (d : DraftState) (p : SnapPoint) : DraftState :=
  match d with
  | DraftArrow x1 y1 _ _ c s t => DraftArrow x1 y1 (x p) (y p) c s t
  | DraftLine x1 y1 _ _ c s t => DraftLine x1 y1 (x p) (y p) c s t
  | DraftPerpendicularLine x1 y1 _ _ c s t k =>
      DraftPerpendicularLine x1 y1 (x p) (y p) c s t k
  | other => other
  end.

(** *** findSnapPoint *)

(** The [candidates] array built for one element. *)
Definition candidatesOf (playersLocked : bool) (element : PlayElement)
  : list SnapPoint :=
  (match body element with
   | PlayerElement px py _ _ _ =>
       if playersLocked then [mkPoint px py] else []
   | _ => []
   end)
  ++
  (match body element with
   | ArrowElement x1 y1 x2 y2 _ _ _
   | LineElement x1 y1 x2 y2 _ _ _
   | PerpendicularLineElement x1 y1 x2 y2 _ _ _ _ =>
       [mkPoint x1 y1; mkPoint x2 y2]
   | _ => []
   end).

(** The two locals of the scan. *)
Record Scan : Type := mkScan { nearest : option SnapPoint; minDistance : Length.t }.

(** [exclude && Math.hypot(c.x - exclude.x, c.y - exclude.y) < 0.5] *)
Definition excluded (exclude : option SnapPoint) (candidate : SnapPoint) : bool :=
  match exclude with
  | Some e =>
      Length.ltb (Length.hypot (x candidate - x e) (y candidate - y e))
                 (Length.px (1 # 2))
  | None => false
  end.

(** Body of the inner loop. *)
Definition visit (qx qy : Q) (exclude : option SnapPoint)
  (scan : Scan) (candidate : SnapPoint) : Scan :=
  if excluded exclude candidate then scan
  else
    let distance := Length.hypot (x candidate - qx) (y candidate - qy) in
    if Length.ltb distance (minDistance scan)
    then {| nearest := Some candidate; minDistance := distance |}
    else scan.

Definition findSnapPoint (elements : list PlayElement) (playersLocked : bool)
  (qx qy : Q) (exclude : option SnapPoint) : option SnapPoint :=
  nearest
    (fold_left
       (fun scan element =>
          fold_left (visit qx qy exclude) (candidatesOf playersLocked element) scan)
       elements
       {| nearest := None;
          minDistance := Length.px FIELD_CONSTANTS.SNAP_RADIUS |}).

(** The first copy in the single-file App.tsx: elements that are not
    line-like are skipped, whatever the lock. *)
Definition legacyFindSnapPoint (elements : list PlayElement)
  (qx qy : Q) (exclude : option SnapPoint) : option SnapPoint :=
  nearest
    (fold_left
       (fun scan element =>
          match body element with
          | ArrowElement x1 y1 x2 y2 _ _ _
          | LineElement x1 y1 x2 y2 _ _ _
          | PerpendicularLineElement x1 y1 x2 y2 _ _ _ _ =>
              fold_left (visit qx qy exclude)
                        [mkPoint x1 y1; mkPoint x2 y2] scan
          | _ => scan
          end)
       elements
       {| nearest := None; minDistance := Length.px 18 |}).

(** *** Component state and the handlers *)

Section WithRandom.

(** [randomBase36 n] is what the [n]-th evaluation of
    [Math.random().toString(36)] produced, e.g. ["0.4fzyo82mvyr"]. *)
Variable randomBase36 : nat → string.

(** The play held by the parent, the three state cells of the component,
    and the number of random draws made so far. *)
Record state : Type := mkState {
  play : Play (list PlayElement);
  dragState : option DragState;
  draftState : option DraftState;
  snapCandidate : option SnapPoint;
  draws : nat
}.

(** [Math.random().toString(36).slice(2, 9)] at draw [n]. *)
Definition generateUid (n : nat) : string :=
  String.substring 2 7 (randomBase36 n).

(** [addElement]: [onChange({ ...play, elements: [...play.elements, created] })]
    with [created = { id: generateUid(), ...element }]. *)
Definition addElement (st : state) (element : ElementBody) : state :=
  let created := {| id := generateUid (draws st); body := element |} in
  {| play := withElements (play st) (elements (play st) ++ [created]);
     dragState := dragState st;
     draftState := draftState st;
     snapCandidate := snapCandidate st;
     draws := S (draws st) |}.

Definition setDraftState (st : state) (d : option DraftState) : state :=
  {| play := play st; dragState := dragState st; draftState := d;
     snapCandidate := snapCandidate st; draws := draws st |}.

Definition setDragState (st : state) (d : option DragState) : state :=
  {| play := play st; dragState := d; draftState := draftState st;
     snapCandidate := snapCandidate st; draws := draws st |}.

Definition setSnapCandidate (st : state) (p : option SnapPoint) : state :=
  {| play := play st; dragState := dragState st; draftState := draftState st;
     snapCandidate := p; draws := draws st |}.

(** [isLine && Math.hypot(x2 - x1, y2 - y1) < 8] *)
Definition tooShort (d : DraftState) : bool :=
  match draftEnds d with
  | Some (p1, p2) =>
      Length.ltb (Length.hypot (x p2 - x p1) (y p2 - y p1)) (Length.px 8)
  | None => false
  end.

(** [isRect && (Math.abs(w) < 6 || Math.abs(h) < 6)] *)
Definition tooSmall (d : DraftState) : bool :=
  match draftExtent d with
  | Some (dw, dh) => Qltb (Qabs dw) 6 || Qltb (Qabs dh) 6
  | None => false
  end.

Definition handleSvgPointerUp (playersLocked : bool) (st : state) : state :=
  match draftState st with
  | Some draft =>
      if tooShort draft then setDraftState st None
      else if tooSmall draft then setDraftState st None
      else
        let finalDraft :=
          match draftEnds draft with
          | Some (p1, p2) =>
              match findSnapPoint (elements (play st)) playersLocked
                      (x p2) (y p2) (Some p1) with
              | Some snapPoint => withEnd draft snapPoint
              | None => draft
              end
          | None => draft
          end in
        setSnapCandidate
          (setDragState
             (setDraftState (addElement st (elementWithoutId finalDraft)) None)
             None)
          None
  | None => setSnapCandidate (setDragState st None) None
  end.

(** The [keydown] listener: nothing without a selection ([null] and the
    empty string are falsy), nothing on another key. *)
Definition onKeyDown (st : state) (selectionId : option string)
  (key : string) : state :=
  match selectionId with
  | None => st
  | Some selected =>
      if decide (selected = "") then st
      else if decide (key = "Backspace" ∨ key = "Delete") then
        {| play :=
             withElements (play st)
               (filter (fun element => id element ≠ selected)
                       (elements (play st)));
           dragState := dragState st; draftState := draftState st;
           snapCandidate := snapCandidate st; draws := draws st |}
      else st
  end.

(** Edits of the element collection made through the canvas. *)
Inductive edit : Type :=
| Create (element : ElementBody)
| KeyDown (selectionId : option string) (key : string).

Definition apply (st : state) (e : edit) : state :=
  match e with
  | Create element => addElement st element
  | KeyDown selectionId key => onKeyDown st selectionId key
  end.

Definition applyAll (st : state) (es : list edit) : state :=
  fold_left apply es st.

(** identifiers of the elements of the play, in order *)
Definition ids (st : state) : list string :=
  map id (elements (play st)).

End WithRandom.

End Canvas.

(* ===================================================================== *)
(** ** utils.ts: paper sizes and new plays *)
(* ===================================================================== *)

Module Paper.

(** The argument of [getPaperSizeIn]: the three fields it reads. *)
Record Config : Type := mkConfig {
  paper : string;
  customW : number;
  customH : number
}.

Record PaperDimensionsIn : Type := mkPaper { widthIn : number; heightIn : number }.

(** [getPaperSizeIn(config)]; [None] is [null] or [undefined]. [Number(n)]
    is [n] on a number. *)
Definition getPaperSizeIn (config : option Config) : PaperDimensionsIn :=
  match config with
  | None => {| widthIn := Finite (17 # 2); heightIn := Finite 11 |}
  | Some c =>
      if decide (paper c = "a4") then
        {| widthIn := Finite (827 # 100); heightIn := Finite (1169 # 100) |}
      else if decide (paper c = "custom") then
        {| widthIn := Math.max (Finite 1) (or (customW c) (Finite 1));
           heightIn := Math.max (Finite 1) (or (customH c) (Finite 1)) |}
      else {| widthIn := Finite (17 # 2); heightIn := Finite 11 |}
  end.

End Paper.

(** [createEmptyPlay(name = "New Play")]; [uid] is what [generateUid()]
    returned. *)
Definition createEmptyPlay {E} (uid : string) (name : option string)
  : Play (list E) :=
  let size :=
    computeFieldSize FIELD_CONSTANTS.DEFAULT_FIELD_WIDTH
                     FIELD_CONSTANTS.DEFAULT_DIVISIONS in
  {| id := uid;
     name := nullish name "New Play";
     size := size;
     lineOfScrimmage := Some FIELD_CONSTANTS.DEFAULT_LINE_OF_SCRIMMAGE;
     fieldWidthYards := Some FIELD_CONSTANTS.DEFAULT_FIELD_WIDTH;
     fieldLengthYards := Some FIELD_CONSTANTS.DEFAULT_DIVISIONS;
     elements := [] |}.

(* ===================================================================== *)
(** ** components/PlayCanvas.tsx: the pointer handlers *)
(* ===================================================================== *)

(** The values the component derives from its props before anything else,
    on numbers as they come. *)
Module CanvasProps.

(** [Math.max(1, fieldWidthYards ?? play.fieldWidthYards ?? DEFAULT_FIELD_WIDTH)] *)
Definition widthUnits {ES} (fieldWidthYardsProp : option number) (play : Play ES)
  : number :=
  Math.max (Finite 1)
    (nullish fieldWidthYardsProp
       (nullish (fieldWidthYards play) FIELD_CONSTANTS.DEFAULT_FIELD_WIDTH)).

(** [Math.max(1, Math.round(fieldLengthYards ?? play.fieldLengthYards ?? DEFAULT_DIVISIONS))] *)
Definition divisions {ES} (fieldLengthYardsProp : option number) (play : Play ES)
  : number :=
  Math.max (Finite 1)
    (Math.round
       (nullish fieldLengthYardsProp
          (nullish (fieldLengthYards play) FIELD_CONSTANTS.DEFAULT_DIVISIONS))).

Definition dimensions {ES} (fieldWidthYardsProp fieldLengthYardsProp : option number)
  (play : Play ES) : Dimensions :=
  computeFieldSize (widthUnits fieldWidthYardsProp play)
                   (divisions fieldLengthYardsProp play).

(** [(dimensions.h - FIELD_MARGIN_VERTICAL * 2) / divisions] *)
Definition lineSpacing {ES} (fieldWidthYardsProp fieldLengthYardsProp : option number)
  (play : Play ES) : number :=
  div (sub (h (dimensions fieldWidthYardsProp fieldLengthYardsProp play))
           (mul FIELD_CONSTANTS.FIELD_MARGIN_VERTICAL (Finite 2)))
      (divisions fieldLengthYardsProp play).

End CanvasProps.

(** The handlers, on finite coordinates as the rest of the canvas. *)
Module Pointer.
Import Canvas.

Inductive ToolType : Type :=
| PLAYER | BALL | ARROW | PERP_LINE | LINE | RECT | ZONE.

(** The props the handlers read, with the two derived values, finite as
    the coordinates are. (A [lineSpacing] that is not a finite number
    switches the snapping off, as a spacing of 0 does here.) *)
Record Props : Type := mkProps {
  tool : ToolType;
  strokeColor : string;
  fillColor : string;
  thickness : Q;
  playerSize : Q;
  playersLocked : bool;
  lineSpacing : Q;
  divisions : Q
}.

(** [Math.max], [Math.min] and [clamp] on finite numbers. *)
Definition max (a b : Q) : Q := if Qle_bool a b then b else a.
Definition min (a b : Q) : Q := if Qle_bool a b then a else b.
Definition clamp (value lo hi : Q) : Q := max lo (min hi value).

(** [snapToYardLine]; the spacing is finite here, so only its sign is
    tested. *)
Definition snapToYardLine (props : Props) (py : Q) : Q :=
  if Qle_bool (lineSpacing props) 0%Q then py
  else
    let relative := ((py - 40) / lineSpacing props)%Q in
    let nearest := inject_Z (Math.roundQ relative) in
    let clamped := clamp nearest 0%Q (divisions props) in
    (40 + clamped * lineSpacing props)%Q.

(** The component with the selection its parent holds for it. *)
Record session : Type := mkSession {
  canvas : Canvas.state;
  selectionId : option string
}.

Definition onCanvas (f : Canvas.state → Canvas.state) (s : session) : session :=
  {| canvas := f (canvas s); selectionId := selectionId s |}.

Definition isDrawingTool (t : ToolType) : bool :=
  match t with
  | ARROW | LINE | PERP_LINE | RECT | ZONE => true
  | PLAYER | BALL => false
  end.

(** What reaches the component: the mouse events of the svg and of the
    elements drawn in it, and key presses on the window. *)
Inductive event : Type :=
| MouseDown (point : option SnapPoint)
| MouseDownOn (point : option SnapPoint) (element : PlayElement)
| MouseMove (point : option SnapPoint)
| MouseUp
| Key (key : string).

Section WithRandom.

Variable randomBase36 : nat → string.

(** [handleSvgPointerDown]; [point] is what [clientToSvg] returned. Every
    [ToolType] returns from one of the branches, so the closing
    [onSelectionChange(null)] is never reached. *)
Definition handleSvgPointerDown (props : Props) (point : option SnapPoint)
  (s : session) : session :=
  match point with
  | None => s
  | Some p =>
      let st := canvas s in
      let st1 :=
        if playersLocked props then
          setSnapCandidate st
            (findSnapPoint (elements (play st)) (playersLocked props)
               (x p) (y p) None)
        else st in
      let start :=
        match findSnapPoint (elements (play st)) (playersLocked props)
                (x p) (y p) None with
        | Some snapPoint => snapPoint
        | None => p
        end in
      let lineDraft (make : Q → Q → Q → Q → string → StrokeStyle → Q → DraftState) :=
        setDraftState st1
          (Some (make (x start) (y start) (x start) (y start)
                   (strokeColor props) SOLID (thickness props))) in
      let boxDraft (make : Q → Q → Q → Q → string → DraftState) (color : string) :=
        setDraftState st1 (Some (make (x p) (y p) 0%Q 0%Q color)) in
      {| canvas :=
           match tool props with
           | PLAYER =>
               addElement randomBase36 st1
                 (PlayerElement (x p) (snapToYardLine props (y p))
                    (fillColor props) "" (playerSize props))
           | BALL =>
               addElement randomBase36 st1
                 (BallElement (x p) (y p) (fillColor props))
           | ARROW => lineDraft DraftArrow
           | LINE => lineDraft DraftLine
           | PERP_LINE =>
               lineDraft (λ x1 y1 x2 y2 c st t,
                            DraftPerpendicularLine x1 y1 x2 y2 c st t 12%Q)
           | RECT => boxDraft DraftRect (strokeColor props)
           | ZONE => boxDraft DraftZone (fillColor props)
           end;
         selectionId := selectionId s |}
  end.

(** [{ ...draftState, w: x - draftState.x, h: y - draftState.y }] *)
Definition withExtentTo (d : DraftState) (p : SnapPoint) : DraftState :=
  match d with
  | DraftRect dx dy _ _ c => DraftRect dx dy (x p - dx)%Q (y p - dy)%Q c
  | DraftZone dx dy _ _ c => DraftZone dx dy (x p - dx)%Q (y p - dy)%Q c
  | other => other
  end.

(** What the drag does to one element. *)
Definition moved (props : Props) (drag : DragState) (p : SnapPoint)
  (element : PlayElement) : PlayElement :=
  if decide (id element ≠ dragId drag) then element
  else
    match body element with
    | PlayerElement _ _ c l r =>
        if playersLocked props then element
        else
          {| id := id element;
             body := PlayerElement (x p - offsetX drag)%Q
                       (snapToYardLine props (y p - offsetY drag)%Q) c l r |}
    | BallElement _ _ c =>
        {| id := id element;
           body := BallElement (x p - offsetX drag)%Q (y p - offsetY drag)%Q c |}
    | RectElement _ _ w h c =>
        {| id := id element;
           body := RectElement (x p - offsetX drag)%Q (y p - offsetY drag)%Q w h c |}
    | ZoneElement _ _ w h c =>
        {| id := id element;
           body := ZoneElement (x p - offsetX drag)%Q (y p - offsetY drag)%Q w h c |}
    | ArrowElement x1 y1 x2 y2 c st t =>
        let deltaX := (x p - offsetX drag - x1)%Q in
        let deltaY := (y p - offsetY drag - y1)%Q in
        {| id := id element;
           body := ArrowElement (x1 + deltaX)%Q (y1 + deltaY)%Q
                     (x2 + deltaX)%Q (y2 + deltaY)%Q c st t |}
    | LineElement x1 y1 x2 y2 c st t =>
        let deltaX := (x p - offsetX drag - x1)%Q in
        let deltaY := (y p - offsetY drag - y1)%Q in
        {| id := id element;
           body := LineElement (x1 + deltaX)%Q (y1 + deltaY)%Q
                     (x2 + deltaX)%Q (y2 + deltaY)%Q c st t |}
    | PerpendicularLineElement x1 y1 x2 y2 c st t k =>
        let deltaX := (x p - offsetX drag - x1)%Q in
        let deltaY := (y p - offsetY drag - y1)%Q in
        {| id := id element;
           body := PerpendicularLineElement (x1 + deltaX)%Q (y1 + deltaY)%Q
                     (x2 + deltaX)%Q (y2 + deltaY)%Q c st t k |}
    end.

Definition handleSvgPointerMove (props : Props) (point : option SnapPoint)
  (s : session) : session :=
  match point with
  | None => s
  | Some p =>
      let st := canvas s in
      let st1 :=
        setSnapCandidate st
          (if playersLocked props && isDrawingTool (tool props)
           then findSnapPoint (elements (play st)) (playersLocked props)
                  (x p) (y p) None
           else None) in
      {| canvas :=
           match draftState st, dragState st with
           | None, None => st1
           | Some draft, _ =>
               match draftEnds draft with
               | Some (p1, _) =>
                   let endPoint :=
                     match findSnapPoint (elements (play st))
                             (playersLocked props) (x p) (y p) (Some p1) with
                     | Some snapPoint => snapPoint
                     | None => p
                     end in
                   setDraftState st1 (Some (withEnd draft endPoint))
               | None => setDraftState st1 (Some (withExtentTo draft p))
               end
           | None, Some drag =>
               {| play :=
                    withElements (play st)
                      (map (moved props drag p) (elements (play st)));
                  dragState := dragState st1;
                  draftState := draftState st1;
                  snapCandidate := snapCandidate st1;
                  draws := draws st1 |}
           end;
         selectionId := selectionId s |}
  end.

(** [handleSvgPointerUp] does not touch the selection. *)
Definition handleSvgPointerUp (props : Props) (s : session) : session :=
  onCanvas (Canvas.handleSvgPointerUp randomBase36 (playersLocked props)) s.

(** The reference point a drag offset is measured from. *)
Definition anchor (b : ElementBody) : SnapPoint :=
  match b with
  | PlayerElement px py _ _ _ | BallElement px py _
  | RectElement px py _ _ _ | ZoneElement px py _ _ _ => mkPoint px py
  | ArrowElement x1 y1 _ _ _ _ _ | LineElement x1 y1 _ _ _ _ _
  | PerpendicularLineElement x1 y1 _ _ _ _ _ _ => mkPoint x1 y1
  end.

Definition isPlayer (b : ElementBody) : bool :=
  match b with PlayerElement _ _ _ _ _ => true | _ => false end.

(** [handleElementPointerDown]: the session afterwards, and whether
    [stopPropagation] was called. *)
Definition handleElementPointerDown (props : Props) (point : option SnapPoint)
  (element : PlayElement) (s : session) : session * bool :=
  if playersLocked props && isDrawingTool (tool props) && isPlayer (body element)
  then (s, false)
  else
    let selected := {| canvas := canvas s; selectionId := Some (id element) |} in
    match point with
    | None => (selected, true)
    | Some p =>
        if isPlayer (body element) && playersLocked props then (selected, true)
        else
          (onCanvas
             (λ st, setDragState st
                      (Some {| dragId := id element;
                               offsetX := (x p - x (anchor (body element)))%Q;
                               offsetY := (y p - y (anchor (body element)))%Q |}))
             selected,
           true)
    end.

(** A mouse-down on an element: its own handler first, then the one of the
    surrounding svg unless propagation was stopped. *)
Definition mouseDownOnElement (props : Props) (point : option SnapPoint)
  (element : PlayElement) (s : session) : session :=
  let '(s1, stopped) := handleElementPointerDown props point element s in
  if stopped then s1 else handleSvgPointerDown props point s1.

(** The key handler, with [onSelectionChange(null)] after a deletion. *)
Definition onKeyDown (key : string) (s : session) : session :=
  {| canvas := Canvas.onKeyDown (canvas s) (selectionId s) key;
     selectionId :=
       match selectionId s with
       | None => None
       | Some selected =>
           if decide (selected = "") then Some selected
           else if decide (key = "Backspace" ∨ key = "Delete") then None
           else Some selected
       end |}.

Definition dispatch (props : Props) (ev : event) (s : session) : session :=
  match ev with
  | MouseDown point => handleSvgPointerDown props point s
  | MouseDownOn point element => mouseDownOnElement props point element s
  | MouseMove point => handleSvgPointerMove props point s
  | MouseUp => handleSvgPointerUp props s
  | Key key => onKeyDown key s
  end.

(** Events in turn, each under the props of its render. *)
Definition run (s : session) (events : list (Props * event)) : session :=
  fold_left (λ s pe, dispatch pe.1 pe.2 s) events s.

End WithRandom.

End Pointer.

(* ===================================================================== *)
(** ** The modular shell: plays, active play and wrist card *)
(* ===================================================================== *)

Module Shell.

(** [!id] on an identifier that may be [null]: [null] and the empty string
    are falsy. *)
Definition falsy (o : option string) : bool :=
  match o with
  | None => true
  | Some s => bool_decide (s = "")
  end.

(** types.ts, [WristConfig]. [playCount] is a whole number: it starts at 4
    and is only written by [handlePlayCountChange]. *)
Record WristConfig : Type := mkWrist {
  widthIn : number;
  heightIn : number;
  playCount : nat;
  selectedIds : list string
}.

(** utils.ts, [getDefaultWristConfig] *)
Definition getDefaultWristConfig : WristConfig :=
  {| widthIn := Finite 4; heightIn := Finite 3; playCount := 4;
     selectedIds := [] |}.

Definition withSelectedIds (c : WristConfig) (ids : list string) : WristConfig :=
  {| widthIn := widthIn c; heightIn := heightIn c; playCount := playCount c;
     selectedIds := ids |}.

Section WithElements.

Context {ES : Type}.

(** The state cells of [App] the handlers below read and write, and the
    refs of the history hook. *)
Record state : Type := mkShell {
  plays : list (Play ES);
  activeId : option string;
  selectionId : option string;
  wristConfig : WristConfig;
  history : History.state (DesignerSnapshot ES)
}.

(** [play.id === activeId] *)
Definition isActive (active : option string) (play : Play ES) : bool :=
  match active with
  | Some a => bool_decide (id play = a)
  | None => false
  end.

(** [plays.find((play) => play.id === activeId) ?? plays[0] ?? null] *)
Definition activePlay (st : state) : option (Play ES) :=
  match find (isActive (activeId st)) (plays st) with
  | Some play => Some play
  | None => head (plays st)
  end.

Definition setPlays (st : state) (ps : list (Play ES)) : state :=
  {| plays := ps; activeId := activeId st; selectionId := selectionId st;
     wristConfig := wristConfig st; history := history st |}.

Definition setActiveId (st : state) (a : option string) : state :=
  {| plays := plays st; activeId := a; selectionId := selectionId st;
     wristConfig := wristConfig st; history := history st |}.

Definition setSelectionId (st : state) (s : option string) : state :=
  {| plays := plays st; activeId := activeId st; selectionId := s;
     wristConfig := wristConfig st; history := history st |}.

Definition setWristConfig (st : state) (c : WristConfig) : state :=
  {| plays := plays st; activeId := activeId st; selectionId := selectionId st;
     wristConfig := c; history := history st |}.

Definition setHistory (st : state) (h : History.state (DesignerSnapshot ES))
  : state :=
  {| plays := plays st; activeId := activeId st; selectionId := selectionId st;
     wristConfig := wristConfig st; history := h |}.

(** *** Effects *)

(** The effect on [[plays, activeId]]: an [activeId] that names no play is
    replaced. *)
Definition repairActiveId (st : state) : state :=
  match plays st with
  | [] => setActiveId st None
  | first :: _ =>
      if existsb (isActive (activeId st)) (plays st) then st
      else setActiveId st (Some (id first))
  end.

(** [nextSelected.some((id, index) => id !== current.selectedIds[index])] *)
Definition differsAt (next current : list string) : bool :=
  existsb (λ '(index, i), negb (bool_decide (current !! index = Some i)))
          (imap pair next).

(** The effect on [[plays, wristConfig.playCount]]: the updater passed to
    [setWristConfig]. *)
Definition syncWristSelection (ps : list (Play ES)) (current : WristConfig)
  : WristConfig :=
  let availableIds := map id ps in
  let kept :=
    filter (λ i, i ∈ availableIds) (selectedIds current) in
  let nextSelected :=
    if (length kept <? playCount current)%nat then
      let extras :=
        take (playCount current - length kept)
             (filter (λ i, i ∉ kept) availableIds) in
      kept ++ extras
    else if (playCount current <? length kept)%nat then
      take (playCount current) kept
    else kept in
  let changed :=
    negb (length nextSelected =? length (selectedIds current))%nat
    || differsAt nextSelected (selectedIds current) in
  if changed then withSelectedIds current nextSelected else current.

(** *** Handlers *)

(** [updateActivePlay] *)
Definition updateActivePlay (updater : Play ES → Play ES) (st : state) : state :=
  if falsy (activeId st) then st
  else
    setPlays st
      (map (λ play, if isActive (activeId st) play then updater play else play)
           (plays st)).

(** The updater of [handleFieldDimensionsChange]. *)
Definition withFieldDimensions (widthYards lengthYards : option number)
  (play : Play ES) : Play ES :=
  let nextWidth :=
    Math.max (Finite 1)
      (nullish widthYards
         (nullish (fieldWidthYards play) FIELD_CONSTANTS.DEFAULT_FIELD_WIDTH)) in
  let nextLength :=
    Math.max (Finite 1)
      (Math.round
         (nullish lengthYards
            (nullish (fieldLengthYards play) FIELD_CONSTANTS.DEFAULT_DIVISIONS))) in
  let nextSize := computeFieldSize nextWidth nextLength in
  let clampedLos :=
    match lineOfScrimmage play with
    | None => None
    | Some los =>
        Some (Math.min (Math.max (Finite 0) (Math.round los)) nextLength)
    end in
  {| id := id play; name := name play;
     fieldWidthYards := Some nextWidth;
     fieldLengthYards := Some nextLength;
     lineOfScrimmage := clampedLos;
     size := nextSize;
     elements := elements play |}.

Definition handleFieldDimensionsChange (widthYards lengthYards : option number)
  (st : state) : state :=
  updateActivePlay (withFieldDimensions widthYards lengthYards) st.

(** [handlePlaySelectChange] *)
Definition handlePlaySelectChange (value : string) (st : state) : state :=
  setSelectionId (setActiveId st (Some value)) None.

(** [handleDeletePlay] *)
Definition handleDeletePlay (st : state) : state :=
  if falsy (activeId st) || (length (plays st) <=? 1)%nat then st
  else
    let filtered := filter (λ play, isActive (activeId st) play = false) (plays st) in
    let nextActive :=
      match last filtered with
      | Some play => Some (id play)
      | None => None
      end in
    setSelectionId (setActiveId (setPlays st filtered) nextActive) None.

(** What [handleUndo] and [handleRedo] do with the snapshot they get. *)
Definition restore (snapshot : DesignerSnapshot ES) (st : state) : state :=
  let '(mkSnapshot snapshotPlays snapshotActiveId) := snapshot in
  let nextActive :=
    match snapshotActiveId with
    | Some a => Some a
    | None =>
        match snapshotPlays with
        | first :: _ => Some (id first)
        | [] => None
        end
    end in
  setSelectionId (setActiveId (setPlays st snapshotPlays) nextActive) None.

Definition handleUndo (st : state) : state :=
  match History.undo (history st) with
  | (None, _) => st
  | (Some snapshot, h) => restore snapshot (setHistory st h)
  end.

Definition handleRedo (st : state) : state :=
  match History.redo (history st) with
  | (None, _) => st
  | (Some snapshot, h) => restore snapshot (setHistory st h)
  end.

(** The effect [history.register({ plays, activeId })]; the hook is created
    with [{ capacity: 75 }]. *)
Definition registerSnapshot (st : state) : state :=
  setHistory st
    (History.register (History.capacityOf (Some 75%Z)) (history st)
       (mkSnapshot (plays st) (activeId st))).

End WithElements.

Arguments state : clear implicits.

End Shell.

(* ===================================================================== *)
(** ** components/BoardView.tsx: the wrist card *)
(* ===================================================================== *)

Module BoardView.
Import Shell.

(** [togglePlaySelection]: the new [selectedIds]. *)
Definition togglePlaySelection (wristConfig : WristConfig) (i : string)
  : list string :=
  let exists_ := bool_decide (i ∈ selectedIds wristConfig) in
  let nextIds :=
    if exists_ then filter (λ pid, pid ≠ i) (selectedIds wristConfig)
    else selectedIds wristConfig ++ [i] in
  if negb exists_ && (playCount wristConfig <? length nextIds)%nat
  then drop (length nextIds - playCount wristConfig) nextIds
  else nextIds.

(** [autofillSelection]: the new [selectedIds]. *)
Definition autofillSelection {ES} (plays : list (Play ES))
  (wristConfig : WristConfig) : list string :=
  map id (take (playCount wristConfig) plays).

(** [handlePlayCountChange]: the new [playCount], as a number. *)
Definition handlePlayCountChange {ES} (plays : list (Play ES)) (raw : number)
  : number :=
  if isFinite raw then
    Math.min (Math.max (Math.round raw) (Finite 1))
             (Math.max (Finite 1) (Finite (inject_Z (Z.of_nat (length plays)))))
  else Finite 1.

(** The part of [computeWristMetrics] that lays out the grid. *)
Record Grid (ES : Type) : Type := mkGrid {
  playsToRender : list (Play ES);
  missingPlays : nat;
  gridCols : nat;
  gridRows : nat
}.
Arguments mkGrid {ES}.
Arguments playsToRender {ES}.
Arguments missingPlays {ES}.
Arguments gridCols {ES}.
Arguments gridRows {ES}.

(** [a || b] on counts: zero is falsy. *)
Definition orCount (a b : nat) : nat := if (a =? 0)%nat then b else a.

(** [Math.ceil(a / b)] on counts, [b] positive. *)
Definition ceilDiv (a b : nat) : nat := (a + b - 1) / b.

Definition computeWristMetrics {ES} (plays : list (Play ES))
  (wristConfig : WristConfig) : Grid ES :=
  let selectedPlays :=
    omap (λ i, find (λ play, bool_decide (id play = i)) plays)
         (selectedIds wristConfig) in
  let playLimit :=
    Nat.max 1 (orCount (playCount wristConfig)
                 (orCount (length selectedPlays) 1)) in
  let playsToRender := take playLimit selectedPlays in
  let missingPlays := playLimit - length playsToRender in
  let count := length playsToRender in
  let gridCols :=
    if (count <=? 1)%nat then 1
    else if (count =? 2)%nat then 2
    else Nat.sqrt_up count in
  let gridRows := Nat.max 1 (ceilDiv (Nat.max count 1) gridCols) in
  {| playsToRender := playsToRender; missingPlays := missingPlays;
     gridCols := gridCols; gridRows := gridRows |}.

End BoardView.

(* ===================================================================== *)
(** ** components/FieldGrid.tsx *)
(* ===================================================================== *)

Module FieldGrid.

(** The attributes of one [<line>] of the grid. *)
Record Line : Type := mkLine {
  key : nat;
  x1 : number;
  y1 : number;
  x2 : number;
  y2 : number;
  stroke : string;
  strokeWidth : Z
}.

(** [a === b] on numbers: [NaN] equals nothing. *)
Definition strictEq (a b : number) : bool :=
  match a, b with
  | Finite x, Finite y => Qeq_bool x y
  | PosInf, PosInf | NegInf, NegInf => true
  | _, _ => false
  end.

(** The body of the loop at index [i]. *)
Definition lineAt (width fieldHeight safeDivisions : number)
  (losIndex : option number) (losColor yardLineColor : string) (i : nat)
  : Line :=
  let index := Finite (inject_Z (Z.of_nat i)) in
  let y :=
    add FIELD_CONSTANTS.FIELD_MARGIN_VERTICAL
        (div (mul fieldHeight index) safeDivisions) in
  let isLos :=
    match losIndex with
    | Some l => strictEq l index
    | None => false
    end in
  let isFiveYardMarker := (i mod 5 =? 0)%nat in
  {| key := i;
     x1 := FIELD_CONSTANTS.FIELD_MARGIN_HORIZONTAL;
     y1 := y;
     x2 := sub width FIELD_CONSTANTS.FIELD_MARGIN_HORIZONTAL;
     y2 := y;
     stroke := if isLos then losColor else yardLineColor;
     strokeWidth := if isLos then 4 else if isFiveYardMarker then 2 else 1 |}.

(** The [lines] array. The loop [for (i = 0; i <= safeDivisions; i += 1)]
    runs for the whole numbers up to [safeDivisions], not at all when that
    is [NaN], and does not end when it is [+Infinity]: [None]. *)
Definition lines (width height divisions : number)
  (lineOfScrimmage : option number) (losColor yardLineColor : string)
  : option (list Line) :=
  let verticalMargin := FIELD_CONSTANTS.FIELD_MARGIN_VERTICAL in
  let fieldHeight := sub height (mul verticalMargin (Finite 2)) in
  let safeDivisions := Math.max (Finite 1) (Math.round divisions) in
  let losIndex :=
    match lineOfScrimmage with
    | None => None
    | Some los =>
        Some (sub safeDivisions
                (Math.min (Math.max (Finite 0) (Math.round los)) safeDivisions))
    end in
  match safeDivisions with
  | Finite q =>
      Some (map (lineAt width fieldHeight safeDivisions losIndex
                        losColor yardLineColor)
                (seq 0 (Z.to_nat (Qfloor q) + 1)))
  | NaN | NegInf => Some []
  | PosInf => None
  end.

End FieldGrid.

(* ===================================================================== *)
(** ** The single-file App.tsx: inline history and play order *)
(* ===================================================================== *)

Module LegacyApp.

Section WithSnapshot.

Context {Snapshot : Type}.

(** The four refs of the inline history. *)
Record refs : Type := mkRefs {
  undoStack : list Snapshot;
  redoStack : list Snapshot;
  prevState : Snapshot;
  skipHistory : bool
}.

(** The effect on [[plays, activeId]]; [current] is what [snapshot()]
    returns when it runs. [a.shift()] drops the first entry. *)
Definition recordChange (current : Snapshot) (r : refs) : refs :=
  if skipHistory r then
    {| undoStack := undoStack r; redoStack := redoStack r;
       prevState := current; skipHistory := false |}
  else
    let pushed := undoStack r ++ [prevState r] in
    let trimmed := if (50 <? length pushed)%nat then drop 1 pushed else pushed in
    {| undoStack := trimmed; redoStack := [];
       prevState := current; skipHistory := skipHistory r |}.

(** [undo()] and [redo()]: the state handed to [restoreState], if any, and
    the refs afterwards ([restoreState] sets [skipHistoryRef]). [a.pop()]
    removes the last entry. *)
Definition undo (current : Snapshot) (r : refs) : option Snapshot * refs :=
  match last (undoStack r) with
  | None => (None, r)
  | Some prev =>
      (Some prev,
       {| undoStack := take (length (undoStack r) - 1) (undoStack r);
          redoStack := redoStack r ++ [current];
          prevState := prevState r; skipHistory := true |})
  end.

Definition redo (current : Snapshot) (r : refs) : option Snapshot * refs :=
  match last (redoStack r) with
  | None => (None, r)
  | Some next =>
      (Some next,
       {| undoStack := undoStack r ++ [current];
          redoStack := take (length (redoStack r) - 1) (redoStack r);
          prevState := prevState r; skipHistory := true |})
  end.

End WithSnapshot.

Arguments refs : clear implicits.

(** [reorder(from, to)] of the board: the new array. An index past the end
    removes nothing and inserts [undefined], here [None]. *)
Definition reorder {A} (from to : nat) (plays : list A) : list (option A) :=
  let next := map Some plays in
  let m := mjoin (next !! from) in
  let next := delete from next in
  take to next ++ [m] ++ drop to next.

(** The two buttons of the play at index [idx]:
    [reorder(idx, Math.max(0, idx - 1))] and
    [reorder(idx, Math.min(plays.length - 1, idx + 1))]. *)
Definition moveLeft {A} (idx : nat) (plays : list A) : list (option A) :=
  reorder idx (Nat.max 0 (idx - 1)) plays.

Definition moveRight {A} (idx : nat) (plays : list A) : list (option A) :=
  reorder idx (Nat.min (length plays - 1) (idx + 1)) plays.

End LegacyApp.

(* ===================================================================== *)
(** ** Vocabulary of the statements *)
(* ===================================================================== *)

(** *** Numbers *)

(** The whole number of yard units [computeFieldSize] works with, or [None]
    when the count is not finite. *)
Definition coercedUnits (yards : number) : option Z :=
  match yards with
  | Finite q => Some (Z.max 1 (Math.roundQ q))
  | NaN | NegInf => Some 1%Z
  | PosInf => None
  end.

(** Two margins of 40 px and 36 px per unit. *)
Definition sidePx (units : option Z) : number :=
  match units with
  | Some n => Finite (80 + 36 * inject_Z n)
  | None => PosInf
  end.

(** [lo <= v <= hi] clamped on the integers *)
Definition clampZ (v lo hi : Z) : Z := Z.max lo (Z.min hi v).

(** *** Stored values *)

(** The seven tags of [ELEMENT_TYPE]. *)
Definition knownTags : list string :=
  [ELEMENT_TYPE.PLAYER; ELEMENT_TYPE.BALL; ELEMENT_TYPE.ARROW;
   ELEMENT_TYPE.PERP_LINE; ELEMENT_TYPE.LINE; ELEMENT_TYPE.RECT;
   ELEMENT_TYPE.ZONE].

(** Neither [null] nor [undefined]. *)
Definition defined (v : value) : Prop :=
  match v with VUndefined | VNull => False | _ => True end.

(** A finite number. *)
Definition finiteNumber (v : value) : Prop :=
  match v with VNum (Finite _) => True | _ => False end.

Definition num (q : Q) : value := VNum (Finite q).

Definition encodeStyle (s : Canvas.StrokeStyle) : value :=
  match s with
  | Canvas.SOLID => VStr STROKE_STYLE.SOLID
  | Canvas.DASHED => VStr STROKE_STYLE.DASHED
  end.

(** A typed element as [JSON.stringify] writes it and [JSON.parse] reads it
    back. *)
Definition encode (e : Canvas.PlayElement) : gmap string value :=
  let base (tag : string) : gmap string value :=
    <["id" := VStr (Canvas.id e)]> (<["type" := VStr tag]> ∅) in
  let line (tag : string) x1 y1 x2 y2 c s t : gmap string value :=
    <["x1" := num x1]> (<["y1" := num y1]> (<["x2" := num x2]>
      (<["y2" := num y2]> (<["color" := VStr c]> (<["style" := encodeStyle s]>
        (<["thickness" := num t]> (base tag))))))) in
  let box (tag : string) x y w h c : gmap string value :=
    <["x" := num x]> (<["y" := num y]> (<["w" := num w]> (<["h" := num h]>
      (<["color" := VStr c]> (base tag))))) in
  match Canvas.body e with
  | Canvas.PlayerElement x y c l r =>
      <["x" := num x]> (<["y" := num y]> (<["color" := VStr c]>
        (<["label" := VStr l]> (<["r" := num r]> (base ELEMENT_TYPE.PLAYER)))))
  | Canvas.BallElement x y c =>
      <["x" := num x]> (<["y" := num y]> (<["color" := VStr c]>
        (base ELEMENT_TYPE.BALL)))
  | Canvas.ArrowElement x1 y1 x2 y2 c s t => line ELEMENT_TYPE.ARROW x1 y1 x2 y2 c s t
  | Canvas.LineElement x1 y1 x2 y2 c s t => line ELEMENT_TYPE.LINE x1 y1 x2 y2 c s t
  | Canvas.PerpendicularLineElement x1 y1 x2 y2 c s t k =>
      <["tick" := num k]> (line ELEMENT_TYPE.PERP_LINE x1 y1 x2 y2 c s t)
  | Canvas.RectElement x y w h c => box ELEMENT_TYPE.RECT x y w h c
  | Canvas.ZoneElement x y w h c => box ELEMENT_TYPE.ZONE x y w h c
  end.

(** *** The history *)

(** Every snapshot a history holds, oldest first: the undo stack, the
    baseline, then the redo stack read backwards. *)
Definition timeline {Snapshot} (st : History.state Snapshot) : list Snapshot :=
  History.undoStack st
  ++ History.previous st :: rev (History.redoStack st).

(** Position of the baseline in the timeline. *)
Definition cursor {Snapshot} (st : History.state Snapshot) : nat :=
  length (History.undoStack st).

(** *** The snap search *)

(** All the candidate points of a play, in the order they are visited. *)
Definition allCandidates (playersLocked : bool)
  (elements : list Canvas.PlayElement) : list Canvas.SnapPoint :=
  flat_map (Canvas.candidatesOf playersLocked) elements.

(** The candidates left once the excluded point is set aside. *)
Definition eligible (exclude : option Canvas.SnapPoint)
  (candidates : list Canvas.SnapPoint) : list Canvas.SnapPoint :=
  filter (λ c, Canvas.excluded exclude c = false) candidates.

(** Euclidean distance from a candidate to the query point. *)
Definition distanceTo (qx qy : Q) (c : Canvas.SnapPoint) : Length.t :=
  Length.hypot (Canvas.x c - qx) (Canvas.y c - qy).

Definition snapRadius : Length.t := Length.px FIELD_CONSTANTS.SNAP_RADIUS.

(** Centre of a player. *)
Definition playerCentre (b : Canvas.ElementBody) : option Canvas.SnapPoint :=
  match b with
  | Canvas.PlayerElement px py _ _ _ => Some (Canvas.mkPoint px py)
  | _ => None
  end.

(** First and second endpoint of an arrow, line or perpendicular line. *)
Definition lineEnds (b : Canvas.ElementBody)
  : option (Canvas.SnapPoint * Canvas.SnapPoint) :=
  match b with
  | Canvas.ArrowElement x1 y1 x2 y2 _ _ _
  | Canvas.LineElement x1 y1 x2 y2 _ _ _
  | Canvas.PerpendicularLineElement x1 y1 x2 y2 _ _ _ _ =>
      Some (Canvas.mkPoint x1 y1, Canvas.mkPoint x2 y2)
  | _ => None
  end.

(** What the two locals of the search know once the eligible candidates
    [seen] have been visited: the running minimum bounds them all from
    below, and the running nearest point, if any, attains it, is within the
    radius and comes strictly before any other candidate as near. *)
Definition scanned (qx qy : Q) (seen : list Canvas.SnapPoint)
  (scan : Canvas.Scan) : Prop :=
  (∀ c, c ∈ seen → Length.le (Canvas.minDistance scan) (distanceTo qx qy c))
  ∧ match Canvas.nearest scan with
    | None => Canvas.minDistance scan = snapRadius
    | Some c =>
        Canvas.minDistance scan = distanceTo qx qy c
        ∧ Length.lt (distanceTo qx qy c) snapRadius
        ∧ ∃ i, seen !! i = Some c
               ∧ ∀ j c', j < i → seen !! j = Some c' →
                         Length.lt (distanceTo qx qy c) (distanceTo qx qy c')
    end.

(** *** Examples *)

(** A default play: 30 yards wide, 20 yards long, nothing on it. *)
Definition examplePlay : Play (option (list (gmap string value))) :=
  {| id := "p1"; name := "Play 1";
     size := computeFieldSize (Finite 30) (Finite 20);
     lineOfScrimmage := Some (Finite 5);
     fieldWidthYards := Some (Finite 30);
     fieldLengthYards := Some (Finite 20);
     elements := Some [] |}.

(** A canvas over an empty 30 by 20 play, nothing in progress. *)
Definition emptyCanvas : Canvas.state :=
  {| Canvas.play :=
       {| id := "p1"; name := "Play 1";
          size := computeFieldSize (Finite 30) (Finite 20);
          lineOfScrimmage := Some (Finite 5);
          fieldWidthYards := Some (Finite 30);
          fieldLengthYards := Some (Finite 20);
          elements := [] |};
     Canvas.dragState := None;
     Canvas.draftState := None;
     Canvas.snapCandidate := None;
     Canvas.draws := 0 |}.

(** The same canvas with a draft in progress. *)
Definition drafting (d : Canvas.DraftState) : Canvas.state :=
  Canvas.setDraftState emptyCanvas (Some d).

(** A random source that keeps producing the same number, 0.5, and one
    whose first draws differ. *)
Definition stuckRandom : nat → string := λ _, "0.i".

Definition variedRandom : nat → string :=
  λ n, match n with
       | 0 => "0.4fzyo82mvyr"
       | 1 => "0.k9x2m1qa7c"
       | _ => "0.zzzzzzzzz"
       end.

(** *** Order on numbers *)

(** [a <= b] on numbers; nothing is related to [NaN]. *)
Definition numLe (a b : number) : Prop :=
  match a, b with
  | NaN, _ | _, NaN => False
  | NegInf, _ => True
  | _, PosInf => True
  | Finite x, Finite y => (x <= y)%Q
  | _, _ => False
  end.

(** A whole number, at least 1, or plus infinity. *)
Definition wholeFrom1 (a : number) : Prop :=
  a = PosInf ∨ ∃ n : Z, (1 <= n)%Z ∧ a = Finite (inject_Z n).

(** A play as it is written to storage and read back: the element list is
    present. *)
Definition stored {E} (p : Play (list E)) : Play (option (list E)) :=
  withElements p (Some (elements p)).

(** A run made of [undo] and [redo] calls only. *)
Definition travelOnly {Snapshot} (cs : list (@History.call Snapshot)) : Prop :=
  Forall (λ c, c = History.Undo ∨ c = History.Redo) cs.

(** *** Positions on the canvas *)

(** The raw field length the canvas starts from. *)
Definition lengthGiven {ES} (fieldLengthYardsProp : option number)
  (play : Play ES) : number :=
  nullish fieldLengthYardsProp
    (nullish (fieldLengthYards play) FIELD_CONSTANTS.DEFAULT_DIVISIONS).

(** The [k]-th yard line from the top, for rows [spacing] apart. *)
Definition yardLine (spacing : Q) (k : Z) : Q := (40 + inject_Z k * spacing)%Q.

(** A player stands on one of the rows 0..n; other elements are free. *)
Definition onYardLine (spacing : Q) (n : Z) (e : Canvas.PlayElement) : Prop :=
  match Canvas.body e with
  | Canvas.PlayerElement _ py _ _ _ =>
      ∃ k, (0 ≤ k ≤ n)%Z ∧ (py == yardLine spacing k)%Q
  | _ => True
  end.

(** An element moved by [(dx, dy)] as a whole. *)
Definition translated (dx dy : Q) (b : Canvas.ElementBody) : Canvas.ElementBody :=
  match b with
  | Canvas.PlayerElement px py c l r =>
      Canvas.PlayerElement (px + dx) (py + dy) c l r
  | Canvas.BallElement px py c => Canvas.BallElement (px + dx) (py + dy) c
  | Canvas.ArrowElement x1 y1 x2 y2 c s t =>
      Canvas.ArrowElement (x1 + dx) (y1 + dy) (x2 + dx) (y2 + dy) c s t
  | Canvas.LineElement x1 y1 x2 y2 c s t =>
      Canvas.LineElement (x1 + dx) (y1 + dy) (x2 + dx) (y2 + dy) c s t
  | Canvas.PerpendicularLineElement x1 y1 x2 y2 c s t k =>
      Canvas.PerpendicularLineElement
        (x1 + dx) (y1 + dy) (x2 + dx) (y2 + dy) c s t k
  | Canvas.RectElement px py w h c =>
      Canvas.RectElement (px + dx) (py + dy) w h c
  | Canvas.ZoneElement px py w h c =>
      Canvas.ZoneElement (px + dx) (py + dy) w h c
  end.

(** A player put back on its yard line; other elements as they are. *)
Definition snapped (props : Pointer.Props) (b : Canvas.ElementBody)
  : Canvas.ElementBody :=
  match b with
  | Canvas.PlayerElement px py c l r =>
      Canvas.PlayerElement px (Pointer.snapToYardLine props py) c l r
  | other => other
  end.

(** The same element, its coordinates equal as rationals. *)
Definition sameBody (a b : Canvas.ElementBody) : Prop :=
  match a, b with
  | Canvas.PlayerElement ax ay ac al ar, Canvas.PlayerElement bx by' bc bl br =>
      (ax == bx ∧ ay == by' ∧ ar == br)%Q ∧ ac = bc ∧ al = bl
  | Canvas.BallElement ax ay ac, Canvas.BallElement bx by' bc =>
      (ax == bx ∧ ay == by')%Q ∧ ac = bc
  | Canvas.ArrowElement a1 a2 a3 a4 ac as' at',
    Canvas.ArrowElement b1 b2 b3 b4 bc bs bt
  | Canvas.LineElement a1 a2 a3 a4 ac as' at',
    Canvas.LineElement b1 b2 b3 b4 bc bs bt =>
      (a1 == b1 ∧ a2 == b2 ∧ a3 == b3 ∧ a4 == b4 ∧ at' == bt)%Q
      ∧ ac = bc ∧ as' = bs
  | Canvas.PerpendicularLineElement a1 a2 a3 a4 ac as' at' ak,
    Canvas.PerpendicularLineElement b1 b2 b3 b4 bc bs bt bk =>
      (a1 == b1 ∧ a2 == b2 ∧ a3 == b3 ∧ a4 == b4 ∧ at' == bt ∧ ak == bk)%Q
      ∧ ac = bc ∧ as' = bs
  | Canvas.RectElement ax ay aw ah ac, Canvas.RectElement bx by' bw bh bc
  | Canvas.ZoneElement ax ay aw ah ac, Canvas.ZoneElement bx by' bw bh bc =>
      (ax == bx ∧ ay == by' ∧ aw == bw ∧ ah == bh)%Q ∧ ac = bc
  | _, _ => False
  end.

(** A ball at (100, 100) and a player on row 3 of the default field. *)
Definition ballAt100 : Canvas.PlayElement :=
  {| Canvas.id := "ball"; Canvas.body := Canvas.BallElement 100 100 "#a16207" |}.

Definition playerOnRow3 : Canvas.PlayElement :=
  {| Canvas.id := "qb";
     Canvas.body := Canvas.PlayerElement 100 148 "#ef4444" "" 25 |}.

(** A session on the example canvas with the given elements, nothing
    selected and nothing in progress. *)
Definition sessionWith (es : list Canvas.PlayElement) : Pointer.session :=
  {| Pointer.canvas :=
       {| Canvas.play := withElements (Canvas.play emptyCanvas) es;
          Canvas.dragState := None;
          Canvas.draftState := None;
          Canvas.snapCandidate := None;
          Canvas.draws := 0 |};
     Pointer.selectionId := None |}.

(** Props of a default field: rows 36 px apart, 20 of them. *)
Definition propsWith (tool : Pointer.ToolType) (locked : bool) : Pointer.Props :=
  {| Pointer.tool := tool;
     Pointer.strokeColor := "#111827";
     Pointer.fillColor := "#ef4444";
     Pointer.thickness := 3;
     Pointer.playerSize := 25;
     Pointer.playersLocked := locked;
     Pointer.lineSpacing := 36;
     Pointer.divisions := 20 |}.

(** What a mouse event can do to the elements of the play. *)
Inductive change (props : Pointer.Props) (es : list Canvas.PlayElement)
  : list Canvas.PlayElement → Prop :=
| Unchanged : change props es es
| PlayerAdded e px py c l r :
    Canvas.body e
    = Canvas.PlayerElement px (Pointer.snapToYardLine props py) c l r →
    change props es (es ++ [e])
| OtherAdded e :
    Pointer.isPlayer (Canvas.body e) = false → change props es (es ++ [e])
| Moved drag p : change props es (map (Pointer.moved props drag p) es).

Definition isKey (ev : Pointer.event) : bool :=
  match ev with Pointer.Key _ => true | _ => false end.

(** Every event of the list is rendered with rows [spacing] apart, [n] of
    them. *)
Definition onField (spacing : Q) (n : Z)
  (events : list (Pointer.Props * Pointer.event)) : Prop :=
  Forall (λ pe, (Pointer.lineSpacing pe.1 == spacing)%Q
                ∧ (Pointer.divisions pe.1 == inject_Z n)%Q) events.

(** Mouse events only. *)
Definition mouseOnly (events : list (Pointer.Props * Pointer.event)) : Prop :=
  Forall (λ pe, isKey pe.2 = false) events.

(** Players are locked at every event. *)
Definition lockedThroughout (events : list (Pointer.Props * Pointer.event))
  : Prop :=
  Forall (λ pe, Pointer.playersLocked pe.1 = true) events.

(** *** The shell *)

(** The identifiers of the plays, in order. *)
Definition playIds {ES} (st : Shell.state ES) : list string :=
  map id (Shell.plays st).

(** [activeId] names one of the plays. *)
Definition namesAPlay {ES} (st : Shell.state ES) : Prop :=
  ∃ play, play ∈ Shell.plays st ∧ Shell.activeId st = Some (id play).

(** An updater that leaves the identifier of the play alone, as all those
    of the shell do. *)
Definition keepsId {ES} (updater : Play ES → Play ES) : Prop :=
  ∀ play, id (updater play) = id play.

(** The history knows the current plays and active play as its baseline,
    as it does once the register effect has run. *)
Definition inSync {ES} (st : Shell.state ES) : Prop :=
  History.previous (Shell.history st)
  = mkSnapshot (Shell.plays st) (Shell.activeId st).

(** Two plays on the example field, and a shell showing the second. *)
Definition play1 : Play (list Canvas.PlayElement) :=
  {| id := "p1"; name := "Play 1";
     size := computeFieldSize (Finite 30) (Finite 20);
     lineOfScrimmage := Some (Finite 5);
     fieldWidthYards := Some (Finite 30);
     fieldLengthYards := Some (Finite 20);
     elements := [] |}.

Definition play2 : Play (list Canvas.PlayElement) :=
  {| id := "p2"; name := "Play 2";
     size := computeFieldSize (Finite 30) (Finite 20);
     lineOfScrimmage := Some (Finite 15);
     fieldWidthYards := Some (Finite 30);
     fieldLengthYards := Some (Finite 20);
     elements := [] |}.

Definition twoPlays : Shell.state (list Canvas.PlayElement) :=
  {| Shell.plays := [play1; play2];
     Shell.activeId := Some "p2";
     Shell.selectionId := None;
     Shell.wristConfig := Shell.getDefaultWristConfig;
     Shell.history :=
       {| History.undoStack := [mkSnapshot [play1] (Some "p1")];
          History.redoStack := [];
          History.previous := mkSnapshot [play1; play2] (Some "p2");
          History.skipNext := false |} |}.

(** *** The wrist card *)

(** The selection the wrist card should show: the selected identifiers
    that still name a play, then the identifiers of the other plays, cut
    at [playCount]. *)
Definition cardIds {ES} (ps : list (Play ES)) (c : Shell.WristConfig)
  : list string :=
  let kept := filter (λ i, i ∈ map id ps) (Shell.selectedIds c) in
  take (Shell.playCount c) (kept ++ filter (λ i, i ∉ kept) (map id ps)).

(** A card for two plays with one of them selected. *)
Definition cardOfTwo : Shell.WristConfig :=
  {| Shell.widthIn := Finite 4; Shell.heightIn := Finite 3;
     Shell.playCount := 2; Shell.selectedIds := ["p1"] |}.

(** *** The grid *)

(** The line is drawn as the line of scrimmage. *)
Definition isLosLine (l : FieldGrid.Line) : Prop := FieldGrid.strokeWidth l = 4%Z.

(** *** The inline history and the hook *)

(** The refs of the inline history read as the refs of [useHistory]. *)
Definition asHook {Snapshot} (r : LegacyApp.refs Snapshot)
  : History.state Snapshot :=
  {| History.undoStack := LegacyApp.undoStack r;
     History.redoStack := LegacyApp.redoStack r;
     History.previous := LegacyApp.prevState r;
     History.skipNext := LegacyApp.skipHistory r |}.

(* ===================================================================== *)
(** ** Facts about numbers *)
(* ===================================================================== *)

Section NumberFacts.

Ltac num_unfold :=
  unfold equiv, number_equiv in *;
  unfold Math.round, Math.max, Math.min, add, mul, truthy, num_eq in *;
  cbv beta iota in *.

#[global] Instance num_eq_equivalence : Equivalence num_eq.
Proof.
  split.
  - intros [| | |a]; simpl; auto with qarith.
  - intros [| | |a] [| | |b]; simpl; auto with qarith.
  - intros [| | |a] [| | |b] [| | |c]; simpl; try tauto.
    intros H1 H2. now rewrite H1.
Qed.

Lemma Qltb_lt (a b : Q) : Qltb a b = true ↔ (a < b)%Q.
Proof.
  unfold Qltb. rewrite negb_true_iff. split.
  - intros H. apply Qnot_le_lt. intros Hle.
    apply Qle_bool_iff in Hle. congruence.
  - intros H. destruct (Qle_bool b a) eqn:E; [|reflexivity].
    apply Qle_bool_iff in E. exfalso. apply (Qlt_not_le _ _ H E).
Qed.

Lemma Qltb_ge (a b : Q) : Qltb a b = false ↔ (b <= a)%Q.
Proof. unfold Qltb. rewrite negb_false_iff. apply Qle_bool_iff. Qed.

#[global] Instance Qltb_proper : Proper (Qeq ==> Qeq ==> eq) Qltb.
Proof. intros a a' Ha b b' Hb. unfold Qltb. now rewrite Ha, Hb. Qed.

Lemma Qle_bool_inject (a b : Z) :
  Qle_bool (inject_Z a) (inject_Z b) = (a <=? b)%Z.
Proof.
  unfold Qle_bool, inject_Z. simpl. now rewrite !Z.mul_1_r.
Qed.

Lemma Qeq_bool_inject_0 (a : Z) :
  Qeq_bool (inject_Z a) 0 = (a =? 0)%Z.
Proof.
  unfold Qeq_bool, inject_Z. simpl. destruct a; reflexivity.
Qed.

#[global] Instance roundQ_proper : Proper (Qeq ==> eq) Math.roundQ.
Proof. intros a b Hab. unfold Math.roundQ. now rewrite Hab. Qed.

Lemma roundQ_inject (n : Z) : Math.roundQ (inject_Z n) = n.
Proof.
  unfold Math.roundQ, Qfloor, Qplus, inject_Z. simpl.
  symmetry. apply (Z.div_unique _ _ _ 1); lia.
Qed.

#[global] Instance round_proper : Proper ((≡) ==> (≡)) Math.round.
Proof.
  intros [| | |a] [| | |b] Hab; num_unfold; try tauto.
  now rewrite (roundQ_proper _ _ Hab).
Qed.

#[global] Instance truthy_proper : Proper ((≡) ==> eq) truthy.
Proof.
  intros [| | |a] [| | |b] Hab; num_unfold; try tauto.
  assert (E : Qeq_bool a 0 = Qeq_bool b 0) by now rewrite Hab.
  now rewrite E.
Qed.

#[global] Instance or_proper : Proper ((≡) ==> (≡) ==> (≡)) or.
Proof.
  intros a a' Ha b b' Hb. unfold or. rewrite (truthy_proper _ _ Ha).
  now destruct (truthy a').
Qed.

#[global] Instance max_proper : Proper ((≡) ==> (≡) ==> (≡)) Math.max.
Proof.
  intros [| | |a] [| | |a'] Ha [| | |b] [| | |b'] Hb;
    num_unfold; try tauto.
  assert (E : Qle_bool a b = Qle_bool a' b') by now rewrite Ha, Hb.
  rewrite E. now destruct (Qle_bool a' b').
Qed.

#[global] Instance min_proper : Proper ((≡) ==> (≡) ==> (≡)) Math.min.
Proof.
  intros [| | |a] [| | |a'] Ha [| | |b] [| | |b'] Hb;
    num_unfold; try tauto.
  assert (E : Qle_bool a b = Qle_bool a' b') by now rewrite Ha, Hb.
  rewrite E. now destruct (Qle_bool a' b').
Qed.

#[global] Instance add_proper : Proper ((≡) ==> (≡) ==> (≡)) add.
Proof.
  intros [| | |a] [| | |a'] Ha [| | |b] [| | |b'] Hb;
    num_unfold; try tauto.
  now rewrite Ha, Hb.
Qed.

Lemma scale_inf_proper (s : bool) : Proper (Qeq ==> (≡)) (scale_inf s).
Proof.
  intros a b Hab. unfold scale_inf.
  assert (E0 : Qeq_bool a 0 = Qeq_bool b 0) by now rewrite Hab.
  assert (E1 : Qltb 0 a = Qltb 0 b) by now rewrite Hab.
  rewrite E0, E1.
  destruct (Qeq_bool b 0); [exact I|]. destruct (Qltb 0 b), s; exact I.
Qed.

#[global] Instance mul_proper : Proper ((≡) ==> (≡) ==> (≡)) mul.
Proof.
  intros [| | |a] [| | |a'] Ha [| | |b] [| | |b'] Hb;
    try (now apply scale_inf_proper); num_unfold; try tauto.
  now rewrite Ha, Hb.
Qed.

End NumberFacts.

(* ===================================================================== *)
(** ** computeFieldSize *)
(* ===================================================================== *)

Lemma BASE_UNIT_PX_value : BASE_UNIT_PX ≡ Finite 36.
Proof. vm_compute. reflexivity. Qed.

Lemma yardUnits_finite (q : Q) :
  yardUnits (Finite q) = Finite (inject_Z (Z.max 1 (Math.roundQ q))).
Proof.
  unfold yardUnits, Math.round, or, truthy.
  rewrite Qeq_bool_inject_0.
  destruct (Z.eqb_spec (Math.roundQ q) 0) as [E|E]; simpl.
  - rewrite E. reflexivity.
  - change 1%Q with (inject_Z 1). rewrite Qle_bool_inject.
    destruct (Z.leb_spec 1 (Math.roundQ q)); f_equal; f_equal; lia.
Qed.

Lemma yardUnits_coerced (yards : number) :
  yardUnits yards =
    match coercedUnits yards with
    | Some n => Finite (inject_Z n)
    | None => PosInf
    end.
Proof.
  destruct yards as [| | |q]; try reflexivity. apply yardUnits_finite.
Qed.

Lemma coercedUnits_ge_1 (yards : number) (n : Z) :
  coercedUnits yards = Some n → (1 <= n)%Z.
Proof.
  destruct yards; simpl; intros H; inversion H; lia.
Qed.

Lemma side_of_units (margin : Q) (units : option Z) :
  margin = 40%Q →
  add (mul (Finite margin) (Finite 2))
      (mul (match units with
            | Some n => Finite (inject_Z n)
            | None => PosInf
            end) BASE_UNIT_PX)
  ≡ sidePx units.
Proof.
  intros ->. destruct units as [n|]; [|vm_compute; exact I].
  change (40 * 2 + inject_Z n * ((800 + - (40 * 2)) / 20) == 80 + 36 * inject_Z n)%Q.
  field.
Qed.

#[global] Instance yardUnits_proper : Proper ((≡) ==> (≡)) yardUnits.
Proof.
  intros a b Hab. unfold yardUnits.
  apply max_proper; [reflexivity|].
  apply or_proper; [now apply round_proper|reflexivity].
Qed.

#[global] Instance computeFieldSize_proper :
  Proper ((≡) ==> (≡) ==> (≡)) computeFieldSize.
Proof.
  intros a a' Ha b b' Hb.
  split; unfold computeFieldSize; cbn [w h];
    (apply add_proper; [reflexivity|]);
    (apply mul_proper; [now apply yardUnits_proper|reflexivity]).
Qed.



(** The older copy in the single-file shell does not round its arguments. *)
Lemma legacy_computeFieldSize_keeps_fractions :
  w (Legacy.computeFieldSize (Finite (5 # 2)) (Finite 20)) ≡ Finite 170.
Proof. vm_compute. reflexivity. Qed.

(* ===================================================================== *)
(** ** Line of scrimmage *)
(* ===================================================================== *)

Lemma max_inject (a b : Z) :
  Math.max (Finite (inject_Z a)) (Finite (inject_Z b))
  = Finite (inject_Z (Z.max a b)).
Proof.
  unfold Math.max. rewrite Qle_bool_inject.
  destruct (Z.leb_spec a b); do 2 f_equal; lia.
Qed.

Lemma min_inject (a b : Z) :
  Math.min (Finite (inject_Z a)) (Finite (inject_Z b))
  = Finite (inject_Z (Z.min a b)).
Proof.
  unfold Math.min. rewrite Qle_bool_inject.
  destruct (Z.leb_spec a b); do 2 f_equal; lia.
Qed.

Lemma clamp_inject (v lo hi : Z) :
  clamp (Finite (inject_Z v)) (Finite (inject_Z lo)) (Finite (inject_Z hi))
  = Finite (inject_Z (clampZ v lo hi)).
Proof.
  unfold clamp, clampZ. cbn [isFinite negb].
  now rewrite min_inject, max_inject.
Qed.

Lemma round_whole (q : Q) (n : Z) :
  (q == inject_Z n)%Q → Math.round (Finite q) = Finite (inject_Z n).
Proof.
  intros Hq. unfold Math.round. now rewrite (roundQ_proper _ _ Hq), roundQ_inject.
Qed.

Lemma truthy_whole (n : Z) :
  (1 <= n)%Z → truthy (Finite (inject_Z n)) = true.
Proof.
  intros Hn. unfold truthy. rewrite Qeq_bool_inject_0.
  destruct (Z.eqb_spec n 0); [lia|reflexivity].
Qed.

Lemma inject_Z_20 (n : Z) : (20 == inject_Z n)%Q → n = 20%Z.
Proof.
  intros H. symmetry. apply inject_Z_injective. exact H.
Qed.

Lemma safeLength_whole (o : option number) (ql : Q) (yards : Z) :
  (1 <= yards)%Z →
  (ql == inject_Z yards)%Q →
  nullish o FIELD_CONSTANTS.DEFAULT_DIVISIONS = Finite ql →
  Math.max (Finite 1) (roundFieldOr o FIELD_CONSTANTS.DEFAULT_DIVISIONS)
  = Finite (inject_Z yards).
Proof.
  intros Hy Hq Ho. destruct o as [n|]; simpl in Ho.
  - subst n. unfold roundFieldOr. rewrite (round_whole _ _ Hq).
    unfold or. rewrite truthy_whole by assumption.
    change (Finite 1) with (Finite (inject_Z 1)). rewrite max_inject.
    do 2 f_equal. lia.
  - unfold FIELD_CONSTANTS.DEFAULT_DIVISIONS in Ho. injection Ho as Ho.
    subst ql. apply inject_Z_20 in Hq. subst yards. reflexivity.
Qed.

Lemma maxLOS_whole (floor : Z) (o : option number) (ql : Q) (yards : Z) :
  (floor <= 1)%Z →
  (1 <= yards)%Z →
  (ql == inject_Z yards)%Q →
  nullish o FIELD_CONSTANTS.DEFAULT_DIVISIONS = Finite ql →
  Math.max (Finite (inject_Z floor))
    (Math.round (nullish o FIELD_CONSTANTS.DEFAULT_DIVISIONS))
  = Finite (inject_Z yards).
Proof.
  intros Hf Hy Hq Ho. rewrite Ho, (round_whole _ _ Hq), max_inject.
  do 2 f_equal. lia.
Qed.


(** Whatever length a stored play carries, [normalisePlay] stores a line of
    scrimmage inside the length it stores. *)
Lemma normalisePlay_lineOfScrimmage_within_length
  (raw : Play (option (list (gmap string value)))) (v : Q) :
  let p := normalisePlay (withLineOfScrimmage raw (Some (Finite v))) in
  (∃ n, (1 <= n)%Z
        ∧ fieldLengthYards p = Some (Finite (inject_Z n))
        ∧ lineOfScrimmage p
          = Some (Finite (inject_Z (clampZ (Math.roundQ v) 0 n))))
  ∨ (fieldLengthYards p = Some PosInf
     ∧ lineOfScrimmage p = Some (Finite (inject_Z (Z.max 0 (Math.roundQ v))))).
Proof.
  intros p. unfold p, normalisePlay, withLineOfScrimmage;
    cbn [lineOfScrimmage fieldLengthYards].
  set (safeLength := Math.max (Finite 1) _).
  assert (Hlen : (∃ n, (1 <= n)%Z ∧ safeLength = Finite (inject_Z n))
                 ∨ safeLength = PosInf).
  { unfold safeLength, roundFieldOr.
    destruct (fieldLengthYards raw) as [[| | |q]|].
    - left. exists 20%Z. split; [lia|reflexivity].
    - now right.
    - left. exists 1%Z. split; [lia|reflexivity].
    - left. unfold Math.round, or, truthy. rewrite Qeq_bool_inject_0.
      destruct (Z.eqb_spec (Math.roundQ q) 0) as [E|E]; simpl.
      + exists 20%Z. split; [lia|reflexivity].
      + exists (Z.max 1 (Math.roundQ q)). split; [lia|].
        change (Finite 1) with (Finite (inject_Z 1)). apply max_inject.
    - left. exists 20%Z. split; [lia|reflexivity]. }
  destruct Hlen as [(n & Hn & ->)| ->].
  - left. exists n. split; [exact Hn|]. split; [reflexivity|].
    unfold Math.round. change (Finite 0) with (Finite (inject_Z 0)).
    now rewrite clamp_inject.
  - right. split; [reflexivity|].
    unfold Math.round, clamp. cbn [isFinite negb Math.min].
    change (Finite 0) with (Finite (inject_Z 0)). now rewrite max_inject.
Qed.


(** ... and -5 is stored as 0. *)
Lemma lineOfScrimmage_minus_5_stores_0 :
  lineOfScrimmage (setActiveLOS examplePlay (Some (Finite (-5))))
  = Some (Finite 0)
  ∧ lineOfScrimmage
      (handleLineOfScrimmageChange (Some (Finite (-5))) examplePlay)
    = Some (Finite 0)
  ∧ lineOfScrimmage
      (normalisePlay (withLineOfScrimmage examplePlay (Some (Finite (-5)))))
    = Some (Finite 0).
Proof. repeat split; vm_compute; reflexivity. Qed.

(** Outside the finite values the sites differ: [clamp] sends every
    non-finite value to the lower bound, the single-file shell lets [NaN]
    through. *)
Lemma lineOfScrimmage_not_finite :
  lineOfScrimmage
    (normalisePlay (withLineOfScrimmage examplePlay (Some PosInf)))
  = Some (Finite 0)
  ∧ lineOfScrimmage (handleLineOfScrimmageChange (Some NaN) examplePlay)
    = Some (Finite 0)
  ∧ lineOfScrimmage (setActiveLOS examplePlay (Some PosInf)) = Some (Finite 20)
  ∧ lineOfScrimmage (setActiveLOS examplePlay (Some NaN)) = Some NaN.
Proof. repeat split; vm_compute; reflexivity. Qed.

(* ===================================================================== *)
(** ** normaliseElement *)
(* ===================================================================== *)

Section Normalise.

Implicit Types (o : gmap string value) (k : string) (v d : value).

Lemma get_insert_eq o k v : get (<[k := v]> o) k = v.
Proof. unfold get. now rewrite lookup_insert_eq. Qed.

Lemma get_insert_ne o k k' v : k ≠ k' → get (<[k := v]> o) k' = get o k'.
Proof. intros Hk. unfold get. now rewrite lookup_insert_ne. Qed.

Lemma coalesce_defined v d : defined d → defined (coalesce v d).
Proof. destruct v; simpl; auto. Qed.

Lemma coalesce_fixed v d : defined v → coalesce v d = v.
Proof. destruct v; simpl; tauto. Qed.

Lemma finiteOr_finite v (q : Q) : finiteNumber (finiteOr v (Finite q)).
Proof. destruct v as [| | |[| | |a]| | |]; simpl; exact I. Qed.

Lemma finiteOr_fixed v (n : number) : finiteNumber v → finiteOr v n = v.
Proof. destruct v as [| | |[| | |a]| | |]; simpl; tauto. Qed.

Lemma palette_0_defined : defined DEFAULT_PALETTE_0.
Proof. exact I. Qed.

Lemma coalesce_idem v d : defined d → coalesce (coalesce v d) d = coalesce v d.
Proof. intros Hd. apply coalesce_fixed, coalesce_defined, Hd. Qed.

Lemma finiteOr_idem v (q : Q) (n : number) :
  finiteOr (finiteOr v (Finite q)) n = finiteOr v (Finite q).
Proof. apply finiteOr_fixed, finiteOr_finite. Qed.

End Normalise.

Create HintDb norm discriminated.
#[local] Hint Resolve coalesce_defined finiteOr_finite palette_0_defined : norm.
#[local] Hint Extern 1 (defined (VStr _)) => exact I : norm.

Ltac settle_gets :=
  repeat (rewrite get_insert_eq || (rewrite get_insert_ne by done)).
Ltac settle_values :=
  rewrite ?finiteOr_idem; rewrite ?coalesce_idem by auto with norm.
Ltac settle_inserts :=
  repeat (rewrite insert_id; [|by simplify_map_eq]).

Lemma normaliseElement_idempotent (element : gmap string value) :
  normaliseElement (normaliseElement element) = normaliseElement element.
Proof.
  unfold normaliseElement at 2 3.
  destruct (get element "type") as [| | | |t| |] eqn:Htype;
    try (unfold normaliseElement; now rewrite Htype).
  repeat case_decide; unfold normaliseElement; settle_gets; rewrite Htype;
    repeat case_decide; try done; settle_values; settle_inserts; done.
Qed.

Lemma normaliseElement_unknown_tag (element : gmap string value) :
  (∀ t, get element "type" = VStr t → t ∉ knownTags) →
  normaliseElement element = element.
Proof.
  intros Hunknown. unfold normaliseElement.
  destruct (get element "type") as [| | | |t| |] eqn:Htype; try reflexivity.
  specialize (Hunknown t eq_refl). unfold knownTags in Hunknown.
  repeat (destruct (decide _) as [?|?]); try reflexivity;
    exfalso; apply Hunknown; rewrite !elem_of_cons; tauto.
Qed.

(** C6. [normaliseElement] returns on every element object (it never
    raises), an element whose tag is none of the seven is handed back
    unchanged, and normalising twice is normalising once. *)
Theorem normaliseElement_total_and_idempotent (element : gmap string value) :
  callNormaliseElement (VObj element) = Returned (VObj (normaliseElement element))
  ∧ (∃ once twice,
       callNormaliseElement (VObj element) = Returned once
       ∧ callNormaliseElement once = Returned twice
       ∧ twice = once)
  ∧ normaliseElement (normaliseElement element) = normaliseElement element
  ∧ ((∀ t, get element "type" = VStr t → t ∉ knownTags) →
     normaliseElement element = element).
Proof.
  split; [reflexivity|]. split; [|split].
  - exists (VObj (normaliseElement element)),
      (VObj (normaliseElement (normaliseElement element))).
    repeat split. now rewrite normaliseElement_idempotent.
  - apply normaliseElement_idempotent.
  - apply normaliseElement_unknown_tag.
Qed.

(** A well-typed element, as stored, is already normalised. *)
Lemma normaliseElement_encode (e : Canvas.PlayElement) :
  normaliseElement (encode e) = encode e.
Proof.
  destruct e as [i b]. unfold encode. cbn [Canvas.body Canvas.id].
  destruct b; unfold normaliseElement, get;
    simplify_map_eq; simpl;
    repeat (rewrite decide_True by (done || (left; done) || (right; done))
            || rewrite decide_False by (try done; intros [?|?]; done));
    try destruct style;
    simpl; repeat (rewrite insert_id; [|by simplify_map_eq]); done.
Qed.

(** A stored player that lost its colour and radius gets the defaults. *)
Example normaliseElement_backfills :
  normaliseElement
    (<["type" := VStr "player"]> (<["r" := VNum NaN]> (<["x" := VNum (Finite 3)]> ∅)))
  = <["type" := VStr "player"]> (<["x" := VNum (Finite 3)]>
      (<["label" := VStr ""]> (<["color" := VStr "#111827"]>
         (<["r" := VNum (Finite 25)]> ∅)))).
Proof. vm_compute. reflexivity. Qed.

(* ===================================================================== *)
(** ** The history as a timeline with a cursor *)
(* ===================================================================== *)

Module HistoryFacts.
Import History.

Section WithSnapshot.

Context {Snapshot : Type}.
Implicit Types (st : state Snapshot) (s : Snapshot) (ss : list Snapshot).

Lemma capacityOf_ge_1 (option_capacity : option Z) :
  1 ≤ capacityOf option_capacity.
Proof. unfold capacityOf. lia. Qed.

(** Every capacity from 1 up is the capacity of some option; 50 is the
    capacity without one. *)
Lemma capacityOf_any (c : nat) :
  1 ≤ c → capacityOf (Some (Z.of_nat c)) = c ∧ capacityOf None = 50.
Proof. intros Hc. unfold capacityOf. simpl. split; [lia|reflexivity]. Qed.

Lemma stack_cases ss : ss = [] ∨ ∃ front s, ss = front ++ [s].
Proof.
  induction ss as [|s front _] using rev_ind; [now left|right; eauto].
Qed.

Lemma sliceLast_length (n : nat) ss : length (sliceLast n ss) = min n (length ss).
Proof. unfold sliceLast. rewrite length_drop. lia. Qed.

Lemma sliceLast_short (n : nat) ss : length ss ≤ n → sliceLast n ss = ss.
Proof.
  intros H. unfold sliceLast. replace (length ss - n) with 0 by lia. reflexivity.
Qed.

Lemma sliceLast_snoc (n : nat) ss s :
  1 ≤ n → sliceLast n (sliceLast n ss ++ [s]) = sliceLast n (ss ++ [s]).
Proof.
  intros Hn. unfold sliceLast.
  rewrite !length_app, length_drop. simpl.
  destruct (decide (length ss ≤ n)) as [Hle|Hgt].
  - replace (length ss - n) with 0 by lia. simpl.
    now replace (length ss - 0 + 1 - n) with (length ss + 1 - n) by lia.
  - replace (length ss - (length ss - n) + 1 - n) with 1 by lia.
    replace (length ss + 1 - n) with ((length ss - n) + 1) by lia.
    rewrite <- drop_drop.
    rewrite (drop_app_le ss [s] (length ss - n)) by lia.
    reflexivity.
Qed.

Lemma removelast_length ss : length (removelast ss) = length ss - 1.
Proof.
  destruct (stack_cases ss) as [->|(front & s & ->)]; [reflexivity|].
  rewrite removelast_last, length_app. simpl. lia.
Qed.

Lemma sliceInit_snoc ss s : sliceInit (ss ++ [s]) = ss.
Proof.
  unfold sliceInit. rewrite length_app. simpl.
  replace (length ss + 1 - 1) with (length ss) by lia.
  now rewrite take_app_length.
Qed.

Lemma register_armed (capacity : nat) st s :
  skipNext st = true →
  register capacity st s
  = {| undoStack := undoStack st; redoStack := redoStack st;
       previous := s; skipNext := false |}.
Proof. intros H. unfold register. now rewrite H. Qed.

Lemma register_pushes (capacity : nat) st s :
  skipNext st = false →
  register capacity st s
  = {| undoStack := sliceLast capacity (undoStack st ++ [previous st]);
       redoStack := []; previous := s; skipNext := false |}.
Proof.
  intros H. unfold register. rewrite H.
  destruct (Nat.ltb_spec capacity (length (undoStack st ++ [previous st]))).
  - reflexivity.
  - now rewrite sliceLast_short.
Qed.

Lemma registerAll_cons (capacity : nat) st s ss :
  registerAll capacity st (s :: ss)
  = registerAll capacity (register capacity st s) ss.
Proof. reflexivity. Qed.

Lemma registerAll_snoc (capacity : nat) st ss s :
  registerAll capacity st (ss ++ [s])
  = register capacity (registerAll capacity st ss) s.
Proof. unfold registerAll. now rewrite fold_left_app. Qed.

(** Registering past an unarmed flag: the stack receives the old baseline
    and every snapshot but the last, trimmed to its most recent entries. *)
Lemma registerAll_pushes (capacity : nat) st ss s :
  1 ≤ capacity →
  skipNext st = false →
  registerAll capacity st (ss ++ [s])
  = {| undoStack := sliceLast capacity (undoStack st ++ previous st :: ss);
       redoStack := []; previous := s; skipNext := false |}.
Proof.
  intros Hc Hskip. revert s. induction ss as [|t ss IH] using rev_ind; intros s.
  - simpl. now rewrite register_pushes.
  - rewrite registerAll_snoc, IH, register_pushes by reflexivity. simpl.
    rewrite sliceLast_snoc by assumption.
    now rewrite <- app_assoc.
Qed.

(** The state after [reset(s0)] and then one [register] per entry of [ss]. *)
Lemma registerAll_after_reset (capacity : nat) st s0 ss :
  1 ≤ capacity →
  registerAll capacity (reset st s0) ss
  = {| undoStack := sliceLast capacity (removelast ss);
       redoStack := [];
       previous := List.last ss s0;
       skipNext := match ss with [] => true | _ => false end |}.
Proof.
  intros Hc. destruct ss as [|s1 ss]; [reflexivity|].
  destruct (@exists_last _ (s1 :: ss)) as (front & sN & E); [discriminate|].
  rewrite E, removelast_last, last_last.
  destruct front as [|f front].
  - simpl. reflexivity.
  - simpl in E. injection E as -> E.
    rewrite <- app_comm_cons, registerAll_cons.
    rewrite register_armed by reflexivity.
    rewrite registerAll_pushes by (assumption || reflexivity).
    reflexivity.
Qed.

(** *** One step back, one step forward *)

Lemma undo_empty st : undoStack st = [] → undo st = (None, st).
Proof. intros H. unfold undo. now rewrite H. Qed.

Lemma undo_snoc st ss s :
  undoStack st = ss ++ [s] →
  undo st
  = (Some s,
     {| undoStack := ss; redoStack := redoStack st ++ [previous st];
        previous := s; skipNext := true |}).
Proof. intros H. unfold undo. now rewrite H, last_snoc, sliceInit_snoc. Qed.

Lemma redo_empty st : redoStack st = [] → redo st = (None, st).
Proof. intros H. unfold redo. now rewrite H. Qed.

Lemma redo_snoc st ss s :
  redoStack st = ss ++ [s] →
  redo st
  = (Some s,
     {| undoStack := undoStack st ++ [previous st]; redoStack := ss;
        previous := s; skipNext := true |}).
Proof. intros H. unfold redo. now rewrite H, last_snoc, sliceInit_snoc. Qed.

Lemma timeline_length st :
  length (timeline st) = cursor st + 1 + length (redoStack st).
Proof.
  unfold timeline, cursor. rewrite length_app. simpl.
  rewrite length_rev. lia.
Qed.

Lemma undo_timeline st :
  timeline (undo st).2 = timeline st ∧ cursor (undo st).2 = cursor st - 1.
Proof.
  destruct (stack_cases (undoStack st)) as [E|(front & s & E)].
  - rewrite (undo_empty _ E). simpl. unfold cursor. rewrite E.
    split; reflexivity.
  - rewrite (undo_snoc _ _ _ E). unfold timeline, cursor. simpl.
    rewrite E, rev_app_distr, length_app. simpl.
    rewrite <- app_assoc. split; [reflexivity|lia].
Qed.

Lemma redo_timeline st :
  timeline (redo st).2 = timeline st
  ∧ cursor (redo st).2 = min (cursor st + 1) (length (timeline st) - 1).
Proof.
  pose proof (timeline_length st) as Hlen.
  destruct (stack_cases (redoStack st)) as [E|(front & s & E)].
  - rewrite (redo_empty _ E). rewrite E in Hlen. simpl in Hlen.
    split; [reflexivity|]. simpl. lia.
  - rewrite (redo_snoc _ _ _ E). rewrite E, length_app in Hlen.
    simpl in Hlen. split.
    + unfold timeline. simpl. rewrite E, rev_app_distr. simpl.
      now rewrite <- app_assoc.
    + rewrite Hlen. unfold cursor. simpl. rewrite length_app. simpl. lia.
Qed.

Lemma undoTimes_S (n : nat) st :
  undoTimes (S n) st
  = ((undo st).1 :: (undoTimes n (undo st).2).1, (undoTimes n (undo st).2).2).
Proof.
  simpl. destruct (undo st) as [r st1]. simpl.
  now destruct (undoTimes n st1).
Qed.

Lemma redoTimes_S (n : nat) st :
  redoTimes (S n) st
  = ((redo st).1 :: (redoTimes n (redo st).2).1, (redoTimes n (redo st).2).2).
Proof.
  simpl. destruct (redo st) as [r st1]. simpl.
  now destruct (redoTimes n st1).
Qed.

Lemma undoTimes_timeline (n : nat) st :
  timeline (undoTimes n st).2 = timeline st
  ∧ cursor (undoTimes n st).2 = cursor st - n.
Proof.
  revert st. induction n as [|n IH]; intros st.
  - simpl. split; [reflexivity|lia].
  - rewrite undoTimes_S. simpl.
    destruct (IH (undo st).2) as [IH1 IH2].
    destruct (undo_timeline st) as [H1 H2].
    rewrite IH1, IH2, H1, H2. split; [reflexivity|lia].
Qed.

Lemma redoTimes_timeline (n : nat) st :
  timeline (redoTimes n st).2 = timeline st
  ∧ cursor (redoTimes n st).2 = min (cursor st + n) (length (timeline st) - 1).
Proof.
  revert st. induction n as [|n IH]; intros st.
  - simpl. pose proof (timeline_length st). split; [reflexivity|lia].
  - rewrite redoTimes_S. simpl.
    destruct (IH (redo st).2) as [IH1 IH2].
    destruct (redo_timeline st) as [H1 H2].
    rewrite IH1, IH2, H1, H2. split; [reflexivity|lia].
Qed.

(** The timeline and the cursor determine both stacks and the baseline. *)
Lemma same_position st st' :
  timeline st = timeline st' → cursor st = cursor st' →
  undoStack st = undoStack st'
  ∧ previous st = previous st'
  ∧ redoStack st = redoStack st'.
Proof.
  unfold timeline, cursor. intros Ht Hc.
  apply app_inj_1 in Ht as [Hu Hr]; [|assumption].
  injection Hr as Hp Hr. apply (f_equal (@rev _)) in Hr.
  rewrite !rev_involutive in Hr. auto.
Qed.

(** Undoing [n] times and redoing [n] times, starting with nothing to
    redo, comes back to the same stacks and the same baseline. *)
Lemma undo_then_redo (n : nat) st :
  redoStack st = [] →
  let back := (undoTimes n st).2 in
  let forth := (redoTimes n back).2 in
  undoStack forth = undoStack st
  ∧ previous forth = previous st
  ∧ redoStack forth = redoStack st.
Proof.
  intros Hredo back forth.
  destruct (undoTimes_timeline n st) as [B1 B2].
  destruct (redoTimes_timeline n back) as [F1 F2].
  pose proof (timeline_length st) as Hlen. rewrite Hredo in Hlen.
  simpl in Hlen.
  apply same_position.
  - unfold forth. now rewrite F1.
  - unfold forth. rewrite F2. unfold back. rewrite B1, B2. lia.
Qed.

(** *** What the calls return *)

Lemma lastReturned_cons (r : option Snapshot) rs :
  lastReturned (r :: rs)
  = match lastReturned rs with Some s => Some s | None => r end.
Proof. reflexivity. Qed.

(** Calls that all return [null] leave the refs alone; otherwise the last
    one that returned a snapshot returned the final baseline. *)
Lemma redoTimes_lastReturned (n : nat) st :
  match lastReturned (redoTimes n st).1 with
  | Some s => s = previous (redoTimes n st).2
  | None => (redoTimes n st).2 = st
  end.
Proof.
  revert st. induction n as [|n IH]; intros st; [reflexivity|].
  rewrite redoTimes_S. cbn [fst snd]. rewrite lastReturned_cons.
  specialize (IH (redo st).2).
  destruct (lastReturned (redoTimes n (redo st).2).1) as [s|]; [exact IH|].
  rewrite IH.
  destruct (stack_cases (redoStack st)) as [E|(front & s & E)].
  - now rewrite (redo_empty _ E).
  - now rewrite (redo_snoc _ _ _ E).
Qed.

(** A first [redo] that has something to redo makes the run return. *)
Lemma redoTimes_returns (n : nat) st :
  redoStack st ≠ [] → is_Some (lastReturned (redoTimes (S n) st).1).
Proof.
  intros Hne. rewrite redoTimes_S. cbn [fst snd]. rewrite lastReturned_cons.
  destruct (lastReturned _); [eauto|].
  destruct (stack_cases (redoStack st)) as [E|(front & s & E)]; [done|].
  rewrite (redo_snoc _ _ _ E). simpl. eauto.
Qed.

(** What [n] calls of [undo] return: the stack from its end, then [null]. *)
Lemma undoTimes_results (n : nat) st :
  (undoTimes n st).1
  = map Some (take n (rev (undoStack st)))
    ++ replicate (n - length (undoStack st)) None.
Proof.
  revert st. induction n as [|n IH]; intros st; [reflexivity|].
  rewrite undoTimes_S. simpl. rewrite IH.
  destruct (stack_cases (undoStack st)) as [E|(front & s & E)].
  - rewrite (undo_empty _ E), E. simpl. rewrite E. simpl.
    rewrite take_nil. simpl. now rewrite Nat.sub_0_r.
  - rewrite (undo_snoc _ _ _ E), E. simpl.
    rewrite rev_app_distr, length_app. simpl.
    now replace (n - length front) with (S n - (length front + 1)) by lia.
Qed.

(** *** The bound on the stacks *)

Lemma step_bounded (capacity : nat) st (c : call) :
  1 ≤ capacity →
  length (undoStack st) + length (redoStack st) ≤ capacity →
  length (undoStack (step capacity st c))
  + length (redoStack (step capacity st c)) ≤ capacity.
Proof.
  intros Hc Hst. destruct c as [s|s| |]; simpl.
  - lia.
  - destruct (skipNext st) eqn:Hskip.
    + now rewrite register_armed.
    + rewrite register_pushes by assumption. simpl.
      rewrite sliceLast_length. lia.
  - destruct (stack_cases (undoStack st)) as [E|(front & s & E)].
    + now rewrite (undo_empty _ E).
    + rewrite (undo_snoc _ _ _ E). simpl.
      rewrite E, !length_app in *. simpl in *. lia.
  - destruct (stack_cases (redoStack st)) as [E|(front & s & E)].
    + now rewrite (redo_empty _ E).
    + rewrite (redo_snoc _ _ _ E). simpl.
      rewrite E, !length_app in *. simpl in *. lia.
Qed.

Lemma run_bounded (capacity : nat) st (cs : list call) :
  1 ≤ capacity →
  length (undoStack st) + length (redoStack st) ≤ capacity →
  length (undoStack (run capacity st cs))
  + length (redoStack (run capacity st cs)) ≤ capacity.
Proof.
  intros Hc. revert st. induction cs as [|c cs IH]; intros st Hst.
  - exact Hst.
  - simpl. apply IH. now apply step_bounded.
Qed.

(** C1. After [reset(s0)] and one [register] per snapshot of [ss], [N]
    calls of [undo] followed by [N] calls of [redo], with [N] the number of
    snapshots, leave the baseline equal to the last snapshot (to [s0] when
    there is none) and both stacks as they were. The last [redo] that did
    not return [null] returned that snapshot, and from two snapshots on
    there is such a call. *)
Theorem undo_redo_round_trip (option_capacity : option Z) st s0 ss :
  let capacity := capacityOf option_capacity in
  let registered := registerAll capacity (reset st s0) ss in
  let N := length ss in
  let undone := undoTimes N registered in
  let redone := redoTimes N undone.2 in
  previous redone.2 = List.last ss s0
  ∧ undoStack redone.2 = undoStack registered
  ∧ redoStack redone.2 = []
  ∧ (∀ s, lastReturned redone.1 = Some s → s = List.last ss s0)
  ∧ (2 ≤ N → lastReturned redone.1 = Some (List.last ss s0)).
Proof.
  intros capacity registered N undone redone.
  pose proof (capacityOf_ge_1 option_capacity) as Hc. fold capacity in Hc.
  assert (Hreg : registered
                 = {| undoStack := sliceLast capacity (removelast ss);
                      redoStack := [];
                      previous := List.last ss s0;
                      skipNext := match ss with [] => true | _ => false end |})
    by now apply registerAll_after_reset.
  assert (Hredo : redoStack registered = []) by now rewrite Hreg.
  assert (Hprev : previous registered = List.last ss s0) by now rewrite Hreg.
  destruct (undo_then_redo N registered Hredo) as (Hu & Hp & Hr).
  fold undone in Hu, Hp, Hr. fold redone in Hu, Hp, Hr.
  assert (Hlast : ∀ s, lastReturned redone.1 = Some s → s = List.last ss s0).
  { intros s Hs. pose proof (redoTimes_lastReturned N undone.2) as H.
    fold redone in H. rewrite Hs in H. now rewrite H, Hp. }
  split; [now rewrite Hp|]. split; [exact Hu|].
  split; [now rewrite Hr|]. split; [exact Hlast|].
  intros HN.
  assert (Hsome : is_Some (lastReturned redone.1)).
  { unfold redone. destruct N as [|n] eqn:EN; [lia|].
    apply redoTimes_returns. intros Hempty.
    destruct (undoTimes_timeline (S n) registered) as [T1 T2].
    fold undone in T1, T2.
    pose proof (timeline_length undone.2) as L1.
    pose proof (timeline_length registered) as L2.
    rewrite T1, T2, Hempty in L1. rewrite Hredo in L2.
    assert (Hcur : cursor registered = min capacity (length ss - 1)).
    { unfold cursor. rewrite Hreg. simpl.
      now rewrite sliceLast_length, removelast_length. }
    simpl in L1, L2. fold N in Hcur. lia. }
  destruct Hsome as [s Hs]. rewrite Hs. f_equal. now apply Hlast.
Qed.

(** C5. After a [reset] and any number of [register] calls the undo stack
    holds at most [capacity] entries: the snapshots that were baselines
    before a change, minus the oldest ones that were dropped. Repeated
    [undo] returns exactly those, most recent first, then [null]. Whatever
    calls follow, the two stacks together never exceed the capacity. *)
Theorem undo_stack_bounded (option_capacity : option Z) st s0 ss :
  let capacity := capacityOf option_capacity in
  let registered := registerAll capacity (reset st s0) ss in
  length (undoStack registered) ≤ capacity
  ∧ (∃ dropped,
       removelast ss = dropped ++ undoStack registered
       ∧ length (undoStack registered) = min capacity (length ss - 1))
  ∧ (∀ n, (undoTimes n registered).1
          = map Some (take n (rev (undoStack registered)))
            ++ replicate (n - length (undoStack registered)) None)
  ∧ (∀ cs : list call,
       length (undoStack (run capacity registered cs))
       + length (redoStack (run capacity registered cs)) ≤ capacity).
Proof.
  intros capacity registered.
  pose proof (capacityOf_ge_1 option_capacity) as Hc. fold capacity in Hc.
  assert (Hreg : registered
                 = {| undoStack := sliceLast capacity (removelast ss);
                      redoStack := [];
                      previous := List.last ss s0;
                      skipNext := match ss with [] => true | _ => false end |})
    by now apply registerAll_after_reset.
  assert (Hlen : length (undoStack registered) = min capacity (length ss - 1)).
  { rewrite Hreg. simpl. now rewrite sliceLast_length, removelast_length. }
  split; [lia|]. split; [|split].
  - exists (take (length (removelast ss) - capacity) (removelast ss)).
    split; [|exact Hlen].
    rewrite Hreg. simpl. unfold sliceLast. now rewrite take_drop.
  - intros n. apply undoTimes_results.
  - intros cs. apply run_bounded; [exact Hc|].
    rewrite Hreg in *. simpl in *. lia.
Qed.

(** C10. With the flag armed, [register] replaces the baseline and clears
    the flag; neither stack changes. [reset] arms the flag, and so do an
    [undo] and a [redo] that return a snapshot; hence after an [undo] whose
    result the caller registers again, [redo] still returns, and returns
    the snapshot that was undone. *)
Theorem register_while_armed (capacity : nat) st s :
  skipNext st = true →
  register capacity st s
  = {| undoStack := undoStack st; redoStack := redoStack st;
       previous := s; skipNext := false |}
  ∧ skipNext (reset st s) = true
  ∧ (∀ st0 r st1, undo st0 = (Some r, st1) →
       skipNext st1 = true
       ∧ redoStack (register capacity st1 r) = redoStack st1
       ∧ ∃ st2, redo (register capacity st1 r) = (Some (previous st0), st2)
                ∧ previous st2 = previous st0
                ∧ undoStack st2 = undoStack st0)
  ∧ (∀ st0 r st1, redo st0 = (Some r, st1) → skipNext st1 = true).
Proof.
  intros Harmed. split; [now apply register_armed|].
  split; [reflexivity|]. split.
  - intros st0 r st1 Hundo.
    destruct (stack_cases (undoStack st0)) as [E|(front & u & E)].
    + rewrite (undo_empty _ E) in Hundo. discriminate.
    + rewrite (undo_snoc _ _ _ E) in Hundo.
      injection Hundo as <- <-. split; [reflexivity|].
      rewrite register_armed by reflexivity. simpl.
      split; [reflexivity|].
      eexists. rewrite (redo_snoc _ (redoStack st0) (previous st0)) by reflexivity.
      simpl. split; [reflexivity|]. split; [reflexivity|]. now rewrite E.
  - intros st0 r st1 Hredo.
    destruct (stack_cases (redoStack st0)) as [E|(front & u & E)].
    + rewrite (redo_empty _ E) in Hredo. discriminate.
    + rewrite (redo_snoc _ _ _ E) in Hredo. now injection Hredo as <- <-.
Qed.

End WithSnapshot.
End HistoryFacts.

(** C10 on the refs of a fresh hook: the first [register] only moves the
    baseline. *)
Lemma register_while_armed_fresh :
  History.skipNext (History.useHistory 0%nat) = true
  ∧ History.register 50 (History.useHistory 0%nat) 1%nat
    = {| History.undoStack := []; History.redoStack := [];
         History.previous := 1%nat; History.skipNext := false |}.
Proof.
  split; [reflexivity|].
  destruct (HistoryFacts.register_while_armed 50 (History.useHistory 0%nat)
              1%nat eq_refl) as [H _].
  exact H.
Defined.

(** The test of the design document: capacity 3, five registered changes
    after the swallowed one; only the three most recent earlier baselines
    come back. *)
Example capacity_3_keeps_three :
  let registered :=
    History.registerAll (History.capacityOf (Some 3%Z))
      (History.useHistory 0%nat) [1; 2; 3; 4; 5; 6]%nat in
  History.undoStack registered = [3; 4; 5]%nat
  ∧ (History.undoTimes 4 registered).1
    = [Some 5; Some 4; Some 3; None]%nat.
Proof. split; reflexivity. Qed.

(* ===================================================================== *)
(** ** The snap search *)
(* ===================================================================== *)

Module CanvasFacts.
Import Canvas.

Lemma ltb_lt (a b : Length.t) : Length.ltb a b = true ↔ Length.lt a b.
Proof. apply Qltb_lt. Qed.

Lemma ltb_ge (a b : Length.t) : Length.ltb a b = false ↔ Length.le b a.
Proof. apply Qltb_ge. Qed.

Lemma le_refl (a : Length.t) : Length.le a a.
Proof. apply Qle_refl. Qed.

Lemma lt_le (a b : Length.t) : Length.lt a b → Length.le a b.
Proof. apply Qlt_le_weak. Qed.

Lemma lt_le_trans (a b c : Length.t) :
  Length.lt a b → Length.le b c → Length.lt a c.
Proof. apply Qlt_le_trans. Qed.

Lemma fold_left_flat_map {A B C} (f : A → C → A) (g : B → list C)
  (l : list B) (a : A) :
  fold_left (λ acc b, fold_left f (g b) acc) l a
  = fold_left f (flat_map g l) a.
Proof.
  revert a. induction l as [|b l IH]; intros a; [reflexivity|].
  simpl. now rewrite fold_left_app, IH.
Qed.

(** The nested loops are one scan of the candidates in element order. *)
Lemma findSnapPoint_scan elements playersLocked qx qy exclude :
  findSnapPoint elements playersLocked qx qy exclude
  = nearest (fold_left (visit qx qy exclude)
               (allCandidates playersLocked elements)
               {| nearest := None; minDistance := snapRadius |}).
Proof.
  unfold findSnapPoint, allCandidates. now rewrite fold_left_flat_map.
Qed.

Section Scan.

Variables (qx qy : Q) (exclude : option SnapPoint).

Local Abbreviation dist := (distanceTo qx qy).
Local Abbreviation scanned := (scanned qx qy).

Lemma scanned_start :
  scanned [] {| nearest := None; minDistance := snapRadius |}.
Proof. split; [|reflexivity]. intros c Hc. inversion Hc. Qed.

Lemma scanned_visit seen scan c :
  scanned seen scan →
  scanned (seen ++ eligible exclude [c]) (visit qx qy exclude scan c).
Proof.
  intros [Hmin Hnear]. unfold visit, eligible.
  rewrite filter_cons, filter_nil.
  destruct (excluded exclude c) eqn:Hex.
  - rewrite decide_False by done. rewrite app_nil_r. now split.
  - rewrite decide_True by done.
    fold (dist c).
    destruct (Length.ltb (dist c) (minDistance scan)) eqn:Hlt.
    + apply ltb_lt in Hlt. split; simpl.
      * intros c' Hc'. apply elem_of_app in Hc' as [Hc'|Hc'].
        -- apply lt_le, (lt_le_trans _ _ _ Hlt), Hmin, Hc'.
        -- apply list_elem_of_singleton in Hc' as ->. apply le_refl.
      * split; [reflexivity|]. split.
        -- destruct (nearest scan) as [n|].
           ++ destruct Hnear as (E & Hr & _). rewrite E in Hlt.
              apply (lt_le_trans _ _ _ Hlt), lt_le, Hr.
           ++ now rewrite Hnear in Hlt.
        -- exists (length seen). split.
           ++ rewrite lookup_app_r by lia. now rewrite Nat.sub_diag.
           ++ intros j c' Hj Hc'. rewrite lookup_app_l in Hc' by lia.
              apply (lt_le_trans _ _ _ Hlt), Hmin.
              apply list_elem_of_lookup. eauto.
    + apply ltb_ge in Hlt. split.
      * intros c' Hc'. apply elem_of_app in Hc' as [Hc'|Hc'].
        -- now apply Hmin.
        -- apply list_elem_of_singleton in Hc' as ->. exact Hlt.
      * destruct (nearest scan) as [n|]; [|exact Hnear].
        destruct Hnear as (E & Hr & i & Hi & Hfirst).
        split; [exact E|]. split; [exact Hr|].
        exists i. pose proof (lookup_lt_Some _ _ _ Hi) as Hlen. split.
        -- now rewrite lookup_app_l.
        -- intros j c' Hj Hc'. rewrite lookup_app_l in Hc' by lia.
           now apply (Hfirst j).
Qed.

Lemma eligible_app (l1 l2 : list SnapPoint) :
  eligible exclude (l1 ++ l2) = eligible exclude l1 ++ eligible exclude l2.
Proof. apply filter_app. Qed.

Lemma scanned_fold cs seen scan :
  scanned seen scan →
  scanned (seen ++ eligible exclude cs) (fold_left (visit qx qy exclude) cs scan).
Proof.
  revert seen scan. induction cs as [|c cs IH]; intros seen scan H.
  - simpl. unfold eligible. now rewrite filter_nil, app_nil_r.
  - simpl. change (c :: cs) with ([c] ++ cs).
    rewrite eligible_app, app_assoc. apply IH. now apply scanned_visit.
Qed.

(** The result of a scan from scratch over [cs]. *)
Lemma scan_result cs :
  let seen := eligible exclude cs in
  match nearest (fold_left (visit qx qy exclude) cs
                   {| nearest := None; minDistance := snapRadius |}) with
  | Some c =>
      Length.lt (dist c) snapRadius
      ∧ ∃ i, seen !! i = Some c
             ∧ ∀ j c', seen !! j = Some c' →
                       Length.le (dist c) (dist c')
                       ∧ (j < i → Length.lt (dist c) (dist c'))
  | None => ∀ c, c ∈ seen → Length.le snapRadius (dist c)
  end.
Proof.
  intros seen.
  pose proof (scanned_fold cs [] _ scanned_start) as [Hmin Hnear].
  simpl in Hmin, Hnear. fold seen in Hmin, Hnear.
  destruct (nearest _) as [c|].
  - destruct Hnear as (E & Hr & i & Hi & Hfirst).
    split; [exact Hr|]. exists i. split; [exact Hi|].
    intros j c' Hc'. split.
    + rewrite <- E. apply Hmin, list_elem_of_lookup. eauto.
    + intros Hj. now apply (Hfirst j).
  - intros c Hc. rewrite <- Hnear. now apply Hmin.
Qed.

End Scan.

Lemma eligible_None (cs : list SnapPoint) : eligible None cs = cs.
Proof.
  unfold eligible. induction cs as [|c cs IH]; [reflexivity|].
  rewrite filter_cons, decide_True by reflexivity. now rewrite IH.
Qed.


(** One anchor at (100,100), here a locked player: 17 px away snaps to it,
    19 px away does not, and neither does 18 px exactly. *)
Example findSnapPoint_single_anchor :
  let elements :=
    [{| id := "a"; body := PlayerElement 100 100 "#111827" "" 25 |}] in
  findSnapPoint elements true 100 117 None = Some (mkPoint 100 100)
  ∧ findSnapPoint elements true 100 119 None = None
  ∧ findSnapPoint elements true 100 118 None = None.
Proof. repeat split; vm_compute; reflexivity. Qed.

(** The same with the first endpoint of a line, players unlocked; two
    endpoints equally near: the first endpoint wins. *)
Example findSnapPoint_endpoint_and_tie :
  let elements :=
    [{| id := "l"; body := LineElement 100 100 100 134 "#111827" SOLID 3 |}] in
  findSnapPoint elements false 100 117 None = Some (mkPoint 100 100)
  ∧ findSnapPoint elements false 100 81 None = None.
Proof. repeat split; vm_compute; reflexivity. Qed.

Lemma elem_of_candidatesOf (playersLocked : bool) (e : PlayElement)
  (p : SnapPoint) :
  p ∈ candidatesOf playersLocked e
  ↔ (playersLocked = true ∧ playerCentre (body e) = Some p)
    ∨ ∃ p1 p2, lineEnds (body e) = Some (p1, p2) ∧ (p = p1 ∨ p = p2).
Proof.
  unfold candidatesOf. rewrite elem_of_app. split.
  - intros [H|H].
    + left. destruct (body e); try (now inversion H).
      destruct playersLocked; [|now inversion H].
      apply list_elem_of_singleton in H as ->. now split.
    + right. destruct (body e); try (now inversion H);
        (apply elem_of_cons in H as [->|H];
         [|apply list_elem_of_singleton in H as ->]);
        eauto.
  - intros [[-> H]|(p1 & p2 & H & Hp)].
    + left. destruct (body e); simpl in H; try discriminate.
      injection H as <-. apply list_elem_of_singleton. reflexivity.
    + right. destruct (body e); simpl in H; try discriminate;
        injection H as <- <-;
        (destruct Hp as [->| ->]; [left|right; left]).
Qed.

Lemma elem_of_allCandidates (playersLocked : bool)
  (elements : list PlayElement) (p : SnapPoint) :
  p ∈ allCandidates playersLocked elements
  ↔ ∃ e, e ∈ elements ∧ p ∈ candidatesOf playersLocked e.
Proof.
  unfold allCandidates. rewrite list_elem_of_In, in_flat_map.
  split; intros (e & He & Hp); exists e;
    rewrite ?list_elem_of_In in *; auto.
Qed.

Lemma elem_of_eligible exclude (cs : list SnapPoint) (p : SnapPoint) :
  p ∈ eligible exclude cs ↔ excluded exclude p = false ∧ p ∈ cs.
Proof. unfold eligible. now rewrite list_elem_of_filter. Qed.


Lemma legacy_loop (elements : list PlayElement) (qx qy : Q)
  (exclude : option SnapPoint) (scan : Scan) :
  fold_left
    (λ scan element,
       match body element with
       | ArrowElement x1 y1 x2 y2 _ _ _
       | LineElement x1 y1 x2 y2 _ _ _
       | PerpendicularLineElement x1 y1 x2 y2 _ _ _ _ =>
           fold_left (visit qx qy exclude)
                     [mkPoint x1 y1; mkPoint x2 y2] scan
       | _ => scan
       end)
    elements scan
  = fold_left
      (λ scan element,
         fold_left (visit qx qy exclude) (candidatesOf false element) scan)
      elements scan.
Proof.
  revert scan. induction elements as [|e es IH]; intros scan; [reflexivity|].
  simpl. rewrite IH. f_equal. unfold candidatesOf.
  destruct (body e); reflexivity.
Qed.

(** The first copy of the search in the single-file shell is the search
    with players never locked. *)
Lemma legacyFindSnapPoint_unlocked (elements : list PlayElement)
  (qx qy : Q) (exclude : option SnapPoint) :
  legacyFindSnapPoint elements qx qy exclude
  = findSnapPoint elements false qx qy exclude.
Proof.
  unfold legacyFindSnapPoint, findSnapPoint. f_equal. apply legacy_loop.
Qed.

End CanvasFacts.

(* ===================================================================== *)
(** ** Committing a draft; identifiers *)
(* ===================================================================== *)

Module CommitFacts.
Import Canvas.

Section WithRandom.

Variable randomBase36 : nat → string.

Local Abbreviation generateUid := (generateUid randomBase36).
Local Abbreviation addElement := (addElement randomBase36).
Local Abbreviation handleSvgPointerUp := (handleSvgPointerUp randomBase36).
Local Abbreviation applyAll := (applyAll randomBase36).
Local Abbreviation apply := (Canvas.apply randomBase36).

Lemma tooShort_line (d : DraftState) (p1 p2 : SnapPoint) :
  draftEnds d = Some (p1, p2) →
  tooShort d
  = Length.ltb (Length.hypot (x p2 - x p1) (y p2 - y p1)) (Length.px 8).
Proof. intros H. unfold tooShort. now rewrite H. Qed.

Lemma tooSmall_box (d : DraftState) (dw dh : Q) :
  draftExtent d = Some (dw, dh) →
  tooSmall d = Qltb (Qabs dw) 6 || Qltb (Qabs dh) 6.
Proof. intros H. unfold tooSmall. now rewrite H. Qed.


(** *** Identifiers *)

Lemma ids_addElement (st : state) (b : ElementBody) :
  ids (addElement st b) = ids st ++ [generateUid (draws st)].
Proof. unfold ids. simpl. now rewrite map_app. Qed.

Lemma applyAll_snoc (st : state) (es : list edit) (e : edit) :
  applyAll st (es ++ [e]) = apply (applyAll st es) e.
Proof. unfold Canvas.applyAll. now rewrite fold_left_app. Qed.

Lemma ids_filter (es : list PlayElement) (sel : string) :
  map id (filter (λ e, id e ≠ sel) es) = filter (λ i, i ≠ sel) (map id es).
Proof.
  induction es as [|e es IH]; [reflexivity|].
  rewrite filter_cons. simpl. rewrite filter_cons.
  destruct (decide (id e ≠ sel)); simpl; now rewrite IH.
Qed.

(** The key handler can only remove elements. *)
Lemma onKeyDown_cases (st : state) (selectionId : option string) (key : string) :
  onKeyDown st selectionId key = st
  ∨ ∃ sel, draws (onKeyDown st selectionId key) = draws st
           ∧ elements (play (onKeyDown st selectionId key))
             = filter (λ e, id e ≠ sel) (elements (play st)).
Proof.
  unfold onKeyDown. destruct selectionId as [sel|]; [|now left].
  destruct (decide (sel = "")); [now left|].
  destruct (decide _); [|now left]. right. exists sel. now split.
Qed.

Lemma draws_apply (st : state) (e : edit) : draws st ≤ draws (apply st e).
Proof.
  destruct e as [b|sel key]; simpl; [lia|].
  destruct (onKeyDown_cases st sel key) as [->|(s & -> & _)]; lia.
Qed.

Lemma draws_applyAll (st : state) (es : list edit) :
  draws st ≤ draws (applyAll st es).
Proof.
  induction es as [|e es IH] using rev_ind; [simpl; lia|].
  rewrite applyAll_snoc. pose proof (draws_apply (applyAll st es) e). lia.
Qed.

(** Where the elements of a play come from. *)
Lemma elements_origin (st : state) (es : list edit) (e : PlayElement) :
  e ∈ elements (play (applyAll st es)) →
  e ∈ elements (play st)
  ∨ ∃ k, draws st ≤ k < draws (applyAll st es) ∧ id e = generateUid k.
Proof.
  revert e. induction es as [|ed es IH] using rev_ind; intros e He.
  - now left.
  - rewrite applyAll_snoc in *.
    pose proof (draws_applyAll st es) as Hmono.
    destruct ed as [b|sel key]; simpl in *.
    + apply elem_of_app in He as [He|He].
      * destruct (IH e He) as [H|(k & Hk & Hid)]; [now left|].
        right. exists k. split; [lia|exact Hid].
      * apply list_elem_of_singleton in He as ->. right.
        exists (draws (applyAll st es)). simpl. split; [lia|reflexivity].
    + destruct (onKeyDown_cases (applyAll st es) sel key)
        as [E|(s & Ed & Ee)].
      * rewrite E in *. now apply IH.
      * rewrite Ed. rewrite Ee in He.
        apply list_elem_of_filter in He as [_ He]. now apply IH.
Qed.

Lemma NoDup_snoc {A} (l : list A) (a : A) :
  NoDup l → a ∉ l → NoDup (l ++ [a]).
Proof.
  intros Hl Ha. apply NoDup_app. split; [exact Hl|]. split.
  - intros b Hb Hb'. apply list_elem_of_singleton in Hb' as ->. now apply Ha.
  - apply NoDup_singleton.
Qed.


End WithRandom.


(** ... a line from (0,0) to (0,7) is not, a rect of 5 by 20 is not, and a
    rect of 6 by 6 is. *)
Example draft_thresholds_examples :
  elements (play (handleSvgPointerUp variedRandom false
                    (drafting (DraftLine 0 0 0 7 "#111827" SOLID 3)))) = []
  ∧ elements (play (handleSvgPointerUp variedRandom false
                      (drafting (DraftRect 10 10 5 20 "#111827")))) = []
  ∧ elements (play (handleSvgPointerUp variedRandom false
                      (drafting (DraftRect 10 10 6 6 "#111827"))))
    = [{| id := "4fzyo82"; body := RectElement 10 10 6 6 "#111827" |}]
  ∧ elements (play (handleSvgPointerUp variedRandom false
                      (drafting (DraftZone 10 10 (-20) 5 "#111827")))) = [].
Proof. repeat split; vm_compute; reflexivity. Qed.



End CommitFacts.

(* ===================================================================== *)
(** ** More of utils.ts *)
(* ===================================================================== *)

Module UtilsFacts.

Lemma numLe_max_l (a b : number) :
  a ≠ NaN → b ≠ NaN → numLe a (Math.max a b).
Proof.
  destruct a as [| | |x], b as [| | |y]; simpl; try tauto; intros _ _;
    try apply Qle_refl.
  destruct (Qle_bool x y) eqn:E; simpl.
  - now apply Qle_bool_iff.
  - apply Qle_refl.
Qed.

Lemma or_not_NaN (a b : number) : b ≠ NaN → or a b ≠ NaN.
Proof.
  unfold or. destruct a as [| | |x]; simpl; try congruence.
  destruct (Qeq_bool x 0); simpl; congruence.
Qed.

Lemma max_not_NaN (a b : number) : a ≠ NaN → b ≠ NaN → Math.max a b ≠ NaN.
Proof.
  destruct a as [| | |x], b as [| | |y]; simpl; try congruence.
  destruct (Qle_bool x y); congruence.
Qed.

(** X1. [clamp] with finite bounds [lo <= hi] always returns a finite
    number between them: the lower bound for a value that is not finite
    (NaN or an infinity, plus infinity included), the value itself when it
    lies between the bounds, and the nearer bound otherwise. *)
Theorem clamp_within_bounds (value : number) (lo hi : Q) :
  (lo <= hi)%Q →
  ∃ q, clamp value (Finite lo) (Finite hi) = Finite q
       ∧ (lo <= q <= hi)%Q
       ∧ (isFinite value = false → q = lo)
       ∧ (∀ v, value = Finite v → (lo <= v <= hi)%Q → (q == v)%Q)
       ∧ (∀ v, value = Finite v → (v <= lo)%Q → (q == lo)%Q)
       ∧ (∀ v, value = Finite v → (hi <= v)%Q → (q == hi)%Q).
Proof.
  intros Hlh. unfold clamp.
  destruct value as [| | |v]; cbn [isFinite negb];
    try (exists lo; repeat split; try apply Qle_refl; try assumption;
         try reflexivity; intros; discriminate).
  unfold Math.min, Math.max.
  destruct (Qle_bool hi v) eqn:E1.
  - apply Qle_bool_iff in E1.
    assert (E2 : Qle_bool lo hi = true) by now apply Qle_bool_iff.
    rewrite E2. exists hi. split; [reflexivity|]. split; [split; [assumption|apply Qle_refl]|].
    split; [discriminate|]. split; [|split].
    + intros v' [= <-] [_ H]. now apply Qle_antisym.
    + intros v' [= <-] H. apply Qle_antisym; [|assumption].
      now apply (Qle_trans _ v).
    + reflexivity.
  - assert (Hv : (v < hi)%Q).
    { apply Qnot_le_lt. intros H. apply Qle_bool_iff in H. congruence. }
    destruct (Qle_bool lo v) eqn:E2.
    + apply Qle_bool_iff in E2. exists v. split; [reflexivity|].
      split; [split; [assumption|now apply Qlt_le_weak]|].
      split; [discriminate|]. split; [|split].
      * now intros v' [= <-] _.
      * intros v' [= <-] H. now apply Qle_antisym.
      * intros v' [= <-] H. exfalso. apply (Qlt_not_le _ _ Hv H).
    + assert (Hl : (v < lo)%Q).
      { apply Qnot_le_lt. intros H. apply Qle_bool_iff in H. congruence. }
      exists lo. split; [reflexivity|].
      split; [split; [apply Qle_refl|assumption]|].
      split; [discriminate|]. split; [|split].
      * intros v' [= <-] [H _]. exfalso. apply (Qlt_not_le _ _ Hl H).
      * reflexivity.
      * intros v' [= <-] H. exfalso. apply (Qlt_not_le _ _ Hv H).
Qed.

Lemma clamp_within_bounds_percent :
  (0 <= 100)%Q
  ∧ ∃ q, clamp NaN (Finite 0) (Finite 100) = Finite q ∧ (0 <= q <= 100)%Q.
Proof.
  assert (H : (0 <= 100)%Q) by discriminate.
  split; [exact H|].
  destruct (clamp_within_bounds NaN 0 100 H) as (q & Hq & Hb & _).
  exists q. now split.
Defined.

(** X2. [getPaperSizeIn] never returns a side under one inch, nor NaN:
    letter (8.5 by 11) without a configuration or with a paper name other
    than "a4" and "custom", and for custom paper the given sides raised to
    1, so that a custom width of at least 1 is used as it is. *)
Theorem getPaperSizeIn_at_least_one_inch (config : option Paper.Config) :
  numLe (Finite 1) (Paper.widthIn (Paper.getPaperSizeIn config))
  ∧ numLe (Finite 1) (Paper.heightIn (Paper.getPaperSizeIn config))
  ∧ (∀ c, config = Some c → Paper.paper c ≠ "a4" → Paper.paper c ≠ "custom" →
          Paper.getPaperSizeIn config = Paper.getPaperSizeIn None)
  ∧ (∀ c w, config = Some c → Paper.paper c = "custom" →
            Paper.customW c = Finite w → (1 <= w)%Q →
            Paper.widthIn (Paper.getPaperSizeIn config) = Finite w).
Proof.
  split; [|split; [|split]].
  - unfold Paper.getPaperSizeIn. destruct config as [c|]; [|simpl; discriminate].
    repeat case_decide; try (simpl; discriminate).
    cbn [Paper.widthIn]. apply numLe_max_l; [discriminate|].
    apply or_not_NaN. discriminate.
  - unfold Paper.getPaperSizeIn. destruct config as [c|]; [|simpl; discriminate].
    repeat case_decide; try (simpl; discriminate).
    cbn [Paper.heightIn]. apply numLe_max_l; [discriminate|].
    apply or_not_NaN. discriminate.
  - intros c -> Ha Hc. unfold Paper.getPaperSizeIn.
    now rewrite !decide_False by assumption.
  - intros c w -> Hp Hw Hge. unfold Paper.getPaperSizeIn.
    rewrite decide_False by (rewrite Hp; discriminate).
    rewrite decide_True by assumption. cbn [Paper.widthIn]. rewrite Hw.
    unfold or, truthy.
    assert (Hnz : Qeq_bool w 0 = false).
    { destruct (Qeq_bool w 0) eqn:E; [|reflexivity].
      apply Qeq_bool_iff in E. rewrite E in Hge. exfalso.
      apply (Qlt_not_le 0 1); [reflexivity|exact Hge]. }
    rewrite Hnz. simpl.
    assert (E : Qle_bool 1 w = true) by now apply Qle_bool_iff.
    now rewrite E.
Qed.

(** *** normalisePlay *)

Lemma wholeFrom1_fixed (a : number) (d : number) :
  wholeFrom1 a →
  Math.max (Finite 1) (or (Math.round a) d) = a.
Proof.
  intros [->|(n & Hn & ->)]; [reflexivity|].
  rewrite (round_whole _ n) by reflexivity.
  unfold or. rewrite truthy_whole by assumption.
  change (Finite 1) with (Finite (inject_Z 1)). rewrite max_inject.
  do 2 f_equal. lia.
Qed.

Lemma safeLength_wholeFrom1 (o : option number) :
  wholeFrom1
    (Math.max (Finite 1) (roundFieldOr o FIELD_CONSTANTS.DEFAULT_DIVISIONS)).
Proof.
  unfold roundFieldOr.
  destruct o as [[| | |q]|].
  - right. exists 20%Z. split; [lia|reflexivity].
  - now left.
  - right. exists 1%Z. split; [lia|reflexivity].
  - right. unfold Math.round, or, truthy. rewrite Qeq_bool_inject_0.
    destruct (Z.eqb_spec (Math.roundQ q) 0) as [E|E]; simpl.
    + exists 20%Z. split; [lia|reflexivity].
    + exists (Z.max 1 (Math.roundQ q)). split; [lia|].
      change (Finite 1) with (Finite (inject_Z 1)). apply max_inject.
  - right. exists 20%Z. split; [lia|reflexivity].
Qed.

Lemma safeWidth_fixed (x d : number) :
  x ≠ NaN →
  Math.max (Finite 1) (or (Math.max (Finite 1) x) d) = Math.max (Finite 1) x.
Proof.
  intros Hx. destruct x as [| | |q]; [congruence|reflexivity|reflexivity|].
  unfold Math.max at 2 3. destruct (Qle_bool 1 q) eqn:E; [|reflexivity].
  unfold or, truthy.
  assert (Hnz : Qeq_bool q 0 = false).
  { destruct (Qeq_bool q 0) eqn:E0; [|reflexivity].
    apply Qeq_bool_iff in E0. apply Qle_bool_iff in E. rewrite E0 in E.
    exfalso. apply (Qlt_not_le 0 1); [reflexivity|exact E]. }
  rewrite Hnz. simpl. now rewrite E.
Qed.

Lemma orField_not_NaN (o : option number) (d : number) :
  d ≠ NaN → orField o d ≠ NaN.
Proof. intros Hd. destruct o; simpl; [now apply or_not_NaN|exact Hd]. Qed.

(** The line of scrimmage [clamp(Math.round(los), 0, length)] for a whole
    (or infinite) length: a whole number between 0 and the length. *)
Lemma safeLOS_whole (los length : number) :
  wholeFrom1 length →
  ∃ k : Z, clamp (Math.round los) (Finite 0) length = Finite (inject_Z k)
           ∧ (0 <= k)%Z
           ∧ numLe (Finite (inject_Z k)) length.
Proof.
  intros Hl. destruct los as [| | |q].
  - exists 0%Z. split; [reflexivity|]. split; [lia|].
    destruct Hl as [->|(n & Hn & ->)]; simpl; [exact I|].
    rewrite <- Zle_Qle. lia.
  - exists 0%Z. split; [reflexivity|]. split; [lia|].
    destruct Hl as [->|(n & Hn & ->)]; simpl; [exact I|].
    rewrite <- Zle_Qle. lia.
  - exists 0%Z. split; [reflexivity|]. split; [lia|].
    destruct Hl as [->|(n & Hn & ->)]; simpl; [exact I|].
    rewrite <- Zle_Qle. lia.
  - unfold Math.round. destruct Hl as [->|(n & Hn & ->)].
    + exists (Z.max 0 (Math.roundQ q)). split; [|split; [lia|exact I]].
      unfold clamp. cbn [isFinite negb Math.min].
      change (Finite 0) with (Finite (inject_Z 0)). apply max_inject.
    + exists (clampZ (Math.roundQ q) 0 n). split; [|split].
      * change (Finite 0) with (Finite (inject_Z 0)). apply clamp_inject.
      * unfold clampZ. lia.
      * simpl. rewrite <- Zle_Qle. unfold clampZ. lia.
Qed.

Lemma safeLOS_fixed (k : Z) (length : number) :
  wholeFrom1 length → (0 <= k)%Z → numLe (Finite (inject_Z k)) length →
  clamp (Math.round (Finite (inject_Z k))) (Finite 0) length
  = Finite (inject_Z k).
Proof.
  intros Hl Hk Hle. rewrite (round_whole _ k) by reflexivity.
  destruct Hl as [->|(n & Hn & ->)].
  - unfold clamp. cbn [isFinite negb Math.min].
    change (Finite 0) with (Finite (inject_Z 0)). rewrite max_inject.
    do 2 f_equal. lia.
  - simpl in Hle. rewrite <- Zle_Qle in Hle.
    change (Finite 0) with (Finite (inject_Z 0)). rewrite clamp_inject.
    do 2 f_equal. unfold clampZ. lia.
Qed.

(** X3. What [normalisePlay] establishes, whatever was stored: a width
    of at least 1, a length that is a whole number of at least 1 (or plus
    infinity), a finite line of scrimmage of at least 0, which is within
    the length whenever the stored play had one, a size computed from that
    width and length, and elements that [normaliseElement] leaves
    unchanged, as many as were stored. *)
Theorem normalisePlay_establishes_invariants
  (raw : Play (option (list (gmap string value)))) :
  let p := normalisePlay raw in
  ∃ w l q,
    fieldWidthYards p = Some w
    ∧ fieldLengthYards p = Some l
    ∧ lineOfScrimmage p = Some (Finite q)
    ∧ numLe (Finite 1) w
    ∧ wholeFrom1 l
    ∧ (0 <= q)%Q
    ∧ (is_Some (lineOfScrimmage raw) → numLe (Finite q) l)
    ∧ size p = computeFieldSize w l
    ∧ Forall (λ e, normaliseElement e = e) (elements p)
    ∧ length (elements p) = length (nullish (elements raw) []).
Proof.
  intros p. unfold p, normalisePlay.
  cbn [fieldWidthYards fieldLengthYards lineOfScrimmage size elements].
  pose proof (safeLength_wholeFrom1 (fieldLengthYards raw)) as Hlen.
  assert (Hlos : ∃ q,
    match lineOfScrimmage raw with
    | Some los =>
        clamp (Math.round los) (Finite 0)
          (Math.max (Finite 1)
             (roundFieldOr (fieldLengthYards raw)
                FIELD_CONSTANTS.DEFAULT_DIVISIONS))
    | None => FIELD_CONSTANTS.DEFAULT_LINE_OF_SCRIMMAGE
    end = Finite q
    ∧ (0 <= q)%Q
    ∧ (is_Some (lineOfScrimmage raw) →
       numLe (Finite q)
         (Math.max (Finite 1)
            (roundFieldOr (fieldLengthYards raw)
               FIELD_CONSTANTS.DEFAULT_DIVISIONS)))).
  { destruct (lineOfScrimmage raw) as [los|].
    - destruct (safeLOS_whole los _ Hlen) as (k & -> & Hk & Hle).
      exists (inject_Z k). split; [reflexivity|]. split.
      + change 0%Q with (inject_Z 0). rewrite <- Zle_Qle. exact Hk.
      + intros _. exact Hle.
    - exists 5%Q. split; [reflexivity|]. split; [discriminate|].
      intros [? ?]. discriminate. }
  destruct Hlos as (q & Eq & Hq & Hle).
  eexists _, _, q. rewrite Eq.
  split; [reflexivity|]. split; [reflexivity|]. split; [reflexivity|].
  split.
  { apply numLe_max_l; [discriminate|].
    apply orField_not_NaN. discriminate. }
  split; [exact Hlen|]. split; [exact Hq|]. split; [exact Hle|].
  split; [reflexivity|]. split.
  - destruct (elements raw) as [es|]; [|constructor].
    apply Forall_forall. intros e He.
    apply list_elem_of_fmap in He as (e0 & -> & _).
    apply normaliseElement_idempotent.
  - destruct (elements raw) as [es|]; [|reflexivity].
    simpl. apply length_map.
Qed.

(** X4. Normalising is idempotent on plays that carry a line of
    scrimmage: writing the result of [normalisePlay] to storage and
    normalising it again gives the same play. (A play without one gets the
    default 5 even on a shorter field, which a second pass then pulls in:
    [normalisePlay_default_exceeds_short_field].) *)
Theorem normalisePlay_idempotent_with_lineOfScrimmage
  (raw : Play (option (list (gmap string value)))) :
  is_Some (lineOfScrimmage raw) →
  normalisePlay (stored (normalisePlay raw)) = normalisePlay raw.
Proof.
  intros [los Hlos].
  pose proof (safeLength_wholeFrom1 (fieldLengthYards raw)) as Hlen.
  unfold normalisePlay at 1. unfold stored, withElements.
  cbn [id name fieldWidthYards fieldLengthYards lineOfScrimmage elements].
  unfold normalisePlay.
  cbn [id name fieldWidthYards fieldLengthYards lineOfScrimmage elements].
  rewrite Hlos.
  cbn [orField roundFieldOr].
  rewrite safeWidth_fixed
    by (apply orField_not_NaN; discriminate).
  rewrite (wholeFrom1_fixed _ _ Hlen).
  destruct (safeLOS_whole los _ Hlen) as (k & Ek & Hk & Hle).
  rewrite Ek, (safeLOS_fixed k _ Hlen Hk Hle).
  f_equal.
  destruct (elements raw) as [es|]; [|reflexivity].
  rewrite map_map. apply map_ext. intros e. apply normaliseElement_idempotent.
Qed.

Lemma normalisePlay_idempotent_on_example :
  is_Some (lineOfScrimmage examplePlay)
  ∧ normalisePlay (stored (normalisePlay examplePlay))
    = normalisePlay examplePlay.
Proof.
  assert (H : is_Some (lineOfScrimmage examplePlay)) by (eexists; reflexivity).
  split; [exact H|].
  exact (normalisePlay_idempotent_with_lineOfScrimmage examplePlay H).
Defined.

(** Without a line of scrimmage the default 5 is stored whatever the length,
    and a second pass pulls it in. *)
Example normalisePlay_default_exceeds_short_field :
  let short :=
    {| id := "p"; name := "Red zone"; size := computeFieldSize (Finite 30) (Finite 3);
       lineOfScrimmage := None; fieldWidthYards := Some (Finite 30);
       fieldLengthYards := Some (Finite 3); elements := Some [] |} in
  lineOfScrimmage (normalisePlay short) = Some (Finite 5)
  ∧ fieldLengthYards (normalisePlay short) = Some (Finite 3)
  ∧ lineOfScrimmage (normalisePlay (stored (normalisePlay short)))
    = Some (Finite 3).
Proof. repeat split; vm_compute; reflexivity. Qed.

(** A new play is already normalised: whatever its identifier and
    name, [normalisePlay] leaves the result of [createEmptyPlay] as it
    is. *)
Example createEmptyPlay_is_normalised (uid : string) (name : option string) :
  normalisePlay (stored (createEmptyPlay uid name)) = createEmptyPlay uid name.
Proof. reflexivity. Qed.

End UtilsFacts.

(* ===================================================================== *)
(** ** More of hooks/useHistory.ts *)
(* ===================================================================== *)

Module HistoryTravel.
Import History HistoryFacts.

Section WithSnapshot.

Context {Snapshot : Type}.
Implicit Types (st : state Snapshot) (s : Snapshot) (ss : list Snapshot).

Lemma sliceLast_last (n : nat) ss s :
  1 ≤ n → last (sliceLast n (ss ++ [s])) = Some s.
Proof.
  intros Hn. unfold sliceLast. rewrite length_app. simpl.
  destruct (decide (length ss + 1 - n = 0)) as [E|E].
  - rewrite E. simpl. apply last_snoc.
  - rewrite drop_app_le by lia. apply last_snoc.
Qed.

(** X5. A change that is registered can be undone, and nothing can be
    redone after it: after [register] on an unarmed history of capacity at
    least 1, [redo] returns [null] and leaves the refs alone, [undo]
    returns the baseline the change replaced and makes it the baseline
    again, and a [redo] after that returns the registered snapshot. *)
Theorem register_then_undo_or_redo (capacity : nat) st s :
  1 ≤ capacity →
  skipNext st = false →
  let st' := register capacity st s in
  redo st' = (None, st')
  ∧ (undo st').1 = Some (previous st)
  ∧ previous (undo st').2 = previous st
  ∧ redoStack (undo st').2 = [s]
  ∧ (redo (undo st').2).1 = Some s.
Proof.
  intros Hc Hskip st'. unfold st'. rewrite register_pushes by assumption.
  split; [reflexivity|].
  destruct (stack_cases (sliceLast capacity (undoStack st ++ [previous st])))
    as [E|(front & u & E)].
  - pose proof (sliceLast_last capacity (undoStack st) (previous st) Hc) as L.
    rewrite E in L. discriminate.
  - pose proof (sliceLast_last capacity (undoStack st) (previous st) Hc) as L.
    rewrite E, last_snoc in L. injection L as ->.
    rewrite (undo_snoc _ front (previous st)) by exact E.
    cbn [fst snd previous redoStack]. 
    split; [reflexivity|]. split; [reflexivity|]. split; [reflexivity|].
    now rewrite (redo_snoc _ [] s).
Qed.

(** X6. [undo] reverses [redo]: when [redo] returns a snapshot, an
    [undo] right after returns the baseline [redo] started from and
    restores both stacks and the baseline. *)
Theorem undo_reverses_redo st r st1 :
  redo st = (Some r, st1) →
  ∃ st2, undo st1 = (Some (previous st), st2)
         ∧ undoStack st2 = undoStack st
         ∧ redoStack st2 = redoStack st
         ∧ previous st2 = previous st.
Proof.
  intros Hredo.
  destruct (stack_cases (redoStack st)) as [E|(front & u & E)].
  - rewrite (redo_empty _ E) in Hredo. discriminate.
  - rewrite (redo_snoc _ _ _ E) in Hredo. injection Hredo as <- <-.
    eexists. rewrite (undo_snoc _ (undoStack st) (previous st)) by reflexivity.
    split; [reflexivity|]. cbn. now rewrite E.
Qed.

Lemma step_travel (capacity : nat) st (c : call) :
  c = Undo ∨ c = Redo →
  timeline (step capacity st c) = timeline st
  ∧ cursor (step capacity st c) < length (timeline st).
Proof.
  pose proof (timeline_length st) as Hlen.
  intros [->| ->]; simpl.
  - destruct (undo_timeline st) as [H1 H2]. split; [exact H1|lia].
  - destruct (redo_timeline st) as [H1 H2]. split; [exact H1|lia].
Qed.

(** X7. [undo] and [redo] only travel: any run of [undo] and [redo]
    calls, those that return [null] included, keeps the sequence of
    snapshots held by the two stacks and the baseline; the baseline
    afterwards is one of them, and the two stacks hold as many entries in
    total as before. *)
Theorem undo_redo_only_move_the_cursor (capacity : nat) st
  (cs : list (@call Snapshot)) :
  travelOnly cs →
  timeline (run capacity st cs) = timeline st
  ∧ previous (run capacity st cs)
    ∈ undoStack st ++ previous st :: redoStack st
  ∧ length (undoStack (run capacity st cs))
    + length (redoStack (run capacity st cs))
    = length (undoStack st) + length (redoStack st).
Proof.
  intros Hcs.
  assert (Ht : timeline (run capacity st cs) = timeline st).
  { revert st. induction Hcs as [|c cs Hc _ IH]; intros st; [reflexivity|].
    simpl. rewrite IH. now apply step_travel. }
  split; [exact Ht|]. split.
  - assert (Hin : previous (run capacity st cs) ∈ timeline (run capacity st cs)).
    { unfold timeline. apply elem_of_app. right. left. }
    rewrite Ht in Hin. unfold timeline in Hin.
    apply elem_of_app in Hin as [H|H]; apply elem_of_app; [now left|right].
    apply elem_of_cons in H as [->|H]; [left|right].
    apply list_elem_of_In. apply list_elem_of_In in H. now apply in_rev.
  - pose proof (timeline_length (run capacity st cs)) as L1.
    pose proof (timeline_length st) as L2.
    rewrite Ht in L1. unfold cursor in *. lia.
Qed.

End WithSnapshot.

(** Examples on a history of numbers, capacity 50. *)
Lemma register_then_undo_on_hook :
  (1 ≤ 50
   ∧ skipNext (register 50 (useHistory 0%nat) 1%nat) = false)
  ∧ (undo (register 50 (register 50 (useHistory 0%nat) 1%nat) 2%nat)).1
    = Some 1%nat.
Proof.
  assert (H1 : 1 ≤ 50) by lia.
  split; [split; [exact H1|reflexivity]|].
  destruct (register_then_undo_or_redo 50
              (register 50 (useHistory 0%nat) 1%nat) 2%nat H1 eq_refl)
    as (_ & H & _).
  exact H.
Defined.

Lemma undo_reverses_redo_on_hook :
  let st := (undo (register 50 (register 50 (useHistory 0%nat) 1%nat) 2%nat)).2 in
  redo st = (Some 2%nat, (redo st).2)
  ∧ ∃ st2, undo (redo st).2 = (Some (previous st), st2).
Proof.
  intros st. split; [reflexivity|].
  destruct (undo_reverses_redo st 2%nat (redo st).2 eq_refl) as (st2 & H & _).
  exists st2. exact H.
Defined.

Lemma undo_redo_only_move_the_cursor_on_hook :
  let st := register 50 (register 50 (useHistory 0%nat) 1%nat) 2%nat in
  travelOnly [@Undo nat; Redo; Undo; Undo]
  ∧ timeline (run 50 st [Undo; Redo; Undo; Undo]) = timeline st.
Proof.
  intros st.
  assert (H : travelOnly [@Undo nat; Redo; Undo; Undo])
    by (repeat constructor; auto).
  split; [exact H|].
  destruct (undo_redo_only_move_the_cursor 50 st _ H) as [Ht _].
  exact Ht.
Defined.

End HistoryTravel.

(* ===================================================================== *)
(** ** The canvas: yard lines and pointer gestures *)
(* ===================================================================== *)

Module YardLineFacts.
Import Canvas Pointer.

Lemma divisions_finite {ES} (lengthProp : option number) (play : Play ES) (q : Q) :
  lengthGiven lengthProp play = Finite q →
  CanvasProps.divisions lengthProp play
  = Finite (inject_Z (Z.max 1 (Math.roundQ q))).
Proof.
  unfold CanvasProps.divisions, lengthGiven. intros ->.
  unfold Math.round, Math.max.
  change 1%Q with (inject_Z 1). rewrite Qle_bool_inject.
  destruct (Z.leb_spec 1 (Math.roundQ q)); f_equal; f_equal; lia.
Qed.

Lemma spacing_of_whole_length (widthUnits : number) (n : Z) :
  (1 ≤ n)%Z →
  div (sub (h (computeFieldSize widthUnits (Finite (inject_Z n))))
           (mul FIELD_CONSTANTS.FIELD_MARGIN_VERTICAL (Finite 2)))
      (Finite (inject_Z n))
  ≡ Finite 36.
Proof.
  intros Hn. unfold computeFieldSize. cbn [h].
  rewrite yardUnits_finite, roundQ_inject.
  replace (Z.max 1 n) with n by lia.
  change BASE_UNIT_PX with (Finite ((800 + - (40 * 2)) / 20)).
  unfold div, sub, add, mul, neg, FIELD_CONSTANTS.FIELD_MARGIN_VERTICAL.
  rewrite Qeq_bool_inject_0.
  destruct (Z.eqb_spec n 0) as [E|_]; [lia|].
  unfold equiv, number_equiv, num_eq.
  assert (Hz : ¬ (inject_Z n == 0)%Q).
  { change 0%Q with (inject_Z 0). rewrite inject_Z_injective. lia. }
  field. exact Hz.
Qed.


(** *** snapToYardLine *)

Lemma max_spec (a b : Q) :
  ((b <= a)%Q ∧ Pointer.max a b = a) ∨ ((a <= b)%Q ∧ Pointer.max a b = b).
Proof.
  unfold Pointer.max. destruct (Qle_bool a b) eqn:E.
  - right. split; [now apply Qle_bool_iff|reflexivity].
  - left. split; [|reflexivity].
    apply Qlt_le_weak, Qnot_le_lt. intros H. apply Qle_bool_iff in H. congruence.
Qed.

Lemma min_spec (a b : Q) :
  ((a <= b)%Q ∧ Pointer.min a b = a) ∨ ((b <= a)%Q ∧ Pointer.min a b = b).
Proof.
  unfold Pointer.min. destruct (Qle_bool a b) eqn:E.
  - left. split; [now apply Qle_bool_iff|reflexivity].
  - right. split; [|reflexivity].
    apply Qlt_le_weak, Qnot_le_lt. intros H. apply Qle_bool_iff in H. congruence.
Qed.

(** [clamp] of a whole number between 0 and a whole bound. *)
Lemma clamp_whole (r n : Z) (d : Q) :
  (d == inject_Z n)%Q → (0 ≤ n)%Z →
  (Pointer.clamp (inject_Z r) 0 d == inject_Z (clampZ r 0 n))%Q.
Proof.
  intros Hd Hn. unfold Pointer.clamp, clampZ.
  destruct (min_spec d (inject_Z r)) as [[H1 ->]|[H1 ->]];
    rewrite Hd in H1; rewrite <- Zle_Qle in H1.
  - destruct (max_spec 0 d) as [[H2 ->]|[H2 ->]].
    + rewrite Hd in H2. change 0%Q with (inject_Z 0) in H2.
      rewrite <- Zle_Qle in H2.
      replace (Z.max 0 (Z.min n r)) with 0%Z by lia. reflexivity.
    + rewrite Hd. replace (Z.max 0 (Z.min n r)) with n by lia. reflexivity.
  - destruct (max_spec 0 (inject_Z r)) as [[H2 ->]|[H2 ->]].
    + change 0%Q with (inject_Z 0) in H2. rewrite <- Zle_Qle in H2.
      replace (Z.max 0 (Z.min n r)) with 0%Z by lia. reflexivity.
    + change 0%Q with (inject_Z 0) in H2. rewrite <- Zle_Qle in H2.
      replace (Z.max 0 (Z.min n r)) with r by lia. reflexivity.
Qed.

Lemma snapToYardLine_row (props : Props) (n : Z) (py : Q) :
  (0 < lineSpacing props)%Q → (divisions props == inject_Z n)%Q → (0 ≤ n)%Z →
  (snapToYardLine props py
   == yardLine (lineSpacing props)
        (clampZ (Math.roundQ ((py - 40) / lineSpacing props)) 0 n))%Q.
Proof.
  intros Hs Hd Hn. unfold snapToYardLine, yardLine.
  destruct (Qle_bool (lineSpacing props) 0) eqn:E.
  - apply Qle_bool_iff in E. lra.
  - now rewrite (clamp_whole _ n _ Hd Hn).
Qed.

#[global] Instance snapToYardLine_proper (props : Props) :
  Proper (Qeq ==> Qeq) (snapToYardLine props).
Proof.
  intros a b Hab. unfold snapToYardLine.
  destruct (Qle_bool (lineSpacing props) 0); [exact Hab|].
  assert (E : Math.roundQ ((a - 40) / lineSpacing props)
              = Math.roundQ ((b - 40) / lineSpacing props)).
  { apply roundQ_proper. now rewrite Hab. }
  now rewrite E.
Qed.

(** Rounding is to the nearest integer. *)
Lemma roundQ_near (t : Q) :
  (inject_Z (Math.roundQ t) - (1 # 2) <= t
   ∧ t < inject_Z (Math.roundQ t) + (1 # 2))%Q.
Proof.
  unfold Math.roundQ.
  pose proof (Qfloor_le (t + (1 # 2))) as H1.
  pose proof (Qlt_floor (t + (1 # 2))) as H2.
  rewrite inject_Z_plus in H2. change (inject_Z 1) with 1%Q in H2.
  split; lra.
Qed.

Lemma whole_gap (a b : Z) :
  a ≠ b → (1 <= Qabs (inject_Z a - inject_Z b))%Q.
Proof.
  intros Hab. unfold Qle, Qabs, Qminus, Qplus, Qopp, inject_Z. simpl. lia.
Qed.

(** The clamped rounding of [t] is the whole number of [0..n] nearest to it. *)
Lemma clamped_round_nearest (t : Q) (n j : Z) :
  (0 ≤ j ≤ n)%Z →
  (Qabs (inject_Z (clampZ (Math.roundQ t) 0 n) - t) <= Qabs (inject_Z j - t))%Q.
Proof.
  intros Hj. destruct (roundQ_near t) as [Hlo Hhi].
  set (r := Math.roundQ t) in *. unfold clampZ.
  assert (H0 : (0 <= inject_Z j)%Q) by (change 0%Q with (inject_Z 0); rewrite <- Zle_Qle; lia).
  assert (Hjn : (inject_Z j <= inject_Z n)%Q) by (rewrite <- Zle_Qle; lia).
  destruct (Z_lt_le_dec r 0) as [Hr|Hr].
  - replace (Z.max 0 (Z.min n r)) with 0%Z by lia.
    assert (Hr' : (inject_Z r <= -1)%Q).
    { change (-1)%Q with (inject_Z (-1)). rewrite <- Zle_Qle. lia. }
    change (inject_Z 0) with 0%Q.
    apply Qabs_case; intros; apply Qabs_case; intros; lra.
  - destruct (Z_lt_le_dec n r) as [Hr2|Hr2].
    + replace (Z.max 0 (Z.min n r)) with n by lia.
      assert (Hr' : (inject_Z n + 1 <= inject_Z r)%Q).
      { change 1%Q with (inject_Z 1). rewrite <- inject_Z_plus.
        rewrite <- Zle_Qle. lia. }
      apply Qabs_case; intros; apply Qabs_case; intros; lra.
    + replace (Z.max 0 (Z.min n r)) with r by lia.
      destruct (Z.eq_dec j r) as [->|Hne]; [apply Qle_refl|].
      pose proof (whole_gap j r Hne) as Hgap.
      revert Hgap.
      apply Qabs_case; intros; apply Qabs_case; intros;
        revert Hgap; apply Qabs_case; intros; lra.
Qed.

(** X9. Snapping to a yard line: on a field of [n] rows, [spacing] apart,
    [snapToYardLine y] is the row [40 + k * spacing] with [k] the rounding
    of [(y - 40) / spacing] clamped to [0..n]; no row of the field is
    nearer to [y]; and snapping a snapped position changes nothing. *)
Theorem snapToYardLine_nearest_yard_line (props : Props) (n : Z) (py : Q) :
  (0 < lineSpacing props)%Q → (divisions props == inject_Z n)%Q → (0 ≤ n)%Z →
  let row := clampZ (Math.roundQ ((py - 40) / lineSpacing props)) 0 n in
  (0 ≤ row ≤ n)%Z
  ∧ (snapToYardLine props py == yardLine (lineSpacing props) row)%Q
  ∧ (∀ j, (0 ≤ j ≤ n)%Z →
          (Qabs (snapToYardLine props py - py)
           <= Qabs (yardLine (lineSpacing props) j - py))%Q)
  ∧ (snapToYardLine props (snapToYardLine props py)
     == snapToYardLine props py)%Q.
Proof.
  intros Hs Hd Hn row.
  pose proof (snapToYardLine_row props n py Hs Hd Hn) as Hrow. fold row in Hrow.
  assert (Hne : ¬ (lineSpacing props == 0)%Q) by lra.
  split; [unfold row, clampZ; lia|]. split; [exact Hrow|]. split.
  - intros j Hj. rewrite Hrow. unfold yardLine.
    set (t := ((py - 40) / lineSpacing props)%Q) in *.
    assert (Hpy : (py == 40 + t * lineSpacing props)%Q).
    { unfold t. field. exact Hne. }
    assert (E : ∀ k, (40 + inject_Z k * lineSpacing props - py
                      == (inject_Z k - t) * lineSpacing props)%Q).
    { intros k. rewrite Hpy at 1. ring. }
    rewrite !E, !Qabs_Qmult.
    rewrite (Qabs_pos (lineSpacing props)) by lra.
    apply Qmult_le_compat_r; [|lra].
    now apply clamped_round_nearest.
  - rewrite Hrow at 1.
    rewrite (snapToYardLine_row props n _ Hs Hd Hn).
    assert (E : Math.roundQ ((yardLine (lineSpacing props) row - 40)
                             / lineSpacing props) = row).
    { rewrite <- (roundQ_inject row) at 2. apply roundQ_proper.
      unfold yardLine. field. exact Hne. }
    rewrite E.
    replace (clampZ row 0 n) with row by (unfold row, clampZ; lia).
    symmetry. exact Hrow.
Qed.

(** A pointer at y = 130 on the default field: row 3 is at 148, row 2 at 112. *)
Lemma snapToYardLine_nearest_yard_line_at_130 :
  (snapToYardLine (propsWith PLAYER false) 130 == 148)%Q.
Proof.
  destruct (snapToYardLine_nearest_yard_line (propsWith PLAYER false) 20 130)
    as (_ & H & _); [reflexivity|reflexivity|lia|].
  exact H.
Defined.

End YardLineFacts.

Module GestureFacts.
Import Canvas Pointer.

Lemma Forall_snoc {A} (P : A → Prop) (l : list A) (a : A) :
  Forall P (l ++ [a]) → Forall P l ∧ P a.
Proof.
  intros H. apply Forall_app in H as [H1 H2]. split; [exact H1|].
  now inversion H2.
Qed.

Lemma elementWithoutId_not_player (d : DraftState) :
  isPlayer (elementWithoutId d) = false.
Proof. now destruct d. Qed.

Lemma zero_length (a b : Q) :
  Length.ltb (Length.hypot (a - a) (b - b)) (Length.px 8) = true.
Proof.
  unfold Length.ltb, Length.hypot, Length.px. cbn [Length.squared].
  apply Qltb_lt. lra.
Qed.

Lemma moved_id (props : Props) (drag : DragState) (p : SnapPoint)
  (e : PlayElement) : id (moved props drag p e) = id e.
Proof.
  unfold moved. case_decide; [reflexivity|].
  destruct (body e); try reflexivity. now destruct (playersLocked props).
Qed.

Lemma moved_other (props : Props) (drag : DragState) (p : SnapPoint)
  (e : PlayElement) : id e ≠ dragId drag → moved props drag p e = e.
Proof. intros H. unfold moved. now rewrite decide_True. Qed.

Lemma moved_locked_player (props : Props) (drag : DragState) (p : SnapPoint)
  (e : PlayElement) :
  playersLocked props = true → isPlayer (body e) = true →
  moved props drag p e = e.
Proof.
  intros Hl Hp. unfold moved. case_decide; [reflexivity|].
  destruct (body e); try discriminate. now rewrite Hl.
Qed.

Section WithRandom.

Variable randomBase36 : nat → string.

Local Abbreviation elementsOf s := (elements (play (canvas s))).

Lemma handleSvgPointerUp_change (props : Props) (s : session) :
  change props (elementsOf s)
    (elementsOf (handleSvgPointerUp randomBase36 props s)).
Proof.
  unfold handleSvgPointerUp, onCanvas, Canvas.handleSvgPointerUp.
  cbn [canvas].
  destruct (draftState (canvas s)) as [d|]; [|apply Unchanged].
  destruct (tooShort d); [apply Unchanged|].
  destruct (tooSmall d); [apply Unchanged|].
  cbn. apply OtherAdded. cbn. apply elementWithoutId_not_player.
Qed.

Lemma handleSvgPointerDown_change (props : Props) (point : option SnapPoint)
  (s : session) :
  change props (elementsOf s)
    (elementsOf (handleSvgPointerDown randomBase36 props point s)).
Proof.
  destruct point as [p|]; [|apply Unchanged].
  unfold handleSvgPointerDown. cbn [canvas].
  destruct (tool props), (playersLocked props); cbn;
    try apply Unchanged;
    try (eapply PlayerAdded; reflexivity);
    apply OtherAdded; reflexivity.
Qed.

Lemma handleSvgPointerMove_change (props : Props) (point : option SnapPoint)
  (s : session) :
  change props (elementsOf s)
    (elementsOf (handleSvgPointerMove props point s)).
Proof.
  destruct point as [p|]; [|apply Unchanged].
  unfold handleSvgPointerMove. cbn [canvas].
  destruct (draftState (canvas s)) as [d|].
  - destruct (draftEnds d) as [[p1 p2]|]; apply Unchanged.
  - destruct (dragState (canvas s)) as [drag|]; [|apply Unchanged].
    cbn. apply Moved.
Qed.

Lemma handleElementPointerDown_elements (props : Props)
  (point : option SnapPoint) (e : PlayElement) (s : session) :
  elementsOf (handleElementPointerDown props point e s).1 = elementsOf s.
Proof.
  unfold handleElementPointerDown.
  destruct (playersLocked props && isDrawingTool (tool props)
            && isPlayer (body e)); [reflexivity|].
  destruct point as [p|]; [|reflexivity].
  now destruct (isPlayer (body e) && playersLocked props).
Qed.

Lemma mouseDownOnElement_change (props : Props) (point : option SnapPoint)
  (e : PlayElement) (s : session) :
  change props (elementsOf s)
    (elementsOf (mouseDownOnElement randomBase36 props point e s)).
Proof.
  unfold mouseDownOnElement.
  pose proof (handleElementPointerDown_elements props point e s) as E.
  destruct (handleElementPointerDown props point e s) as [s1 stopped].
  cbn [fst] in E. destruct stopped.
  - rewrite E. apply Unchanged.
  - rewrite <- E. apply handleSvgPointerDown_change.
Qed.

Lemma onKeyDown_elements (key : string) (s : session) :
  elementsOf (onKeyDown key s) = elementsOf s
  ∨ ∃ selected,
      elementsOf (onKeyDown key s)
      = filter (λ e, id e ≠ selected) (elementsOf s).
Proof.
  unfold onKeyDown, Canvas.onKeyDown. cbn [canvas].
  destruct (selectionId s) as [sel|]; [|now left].
  case_decide; [now left|].
  case_decide; [|now left].
  right. exists sel. reflexivity.
Qed.

Lemma dispatch_change (props : Props) (ev : event) (s : session) :
  isKey ev = false →
  change props (elementsOf s) (elementsOf (dispatch randomBase36 props ev s)).
Proof.
  destruct ev; cbn [dispatch isKey]; intros H; try discriminate.
  - apply handleSvgPointerDown_change.
  - apply mouseDownOnElement_change.
  - apply handleSvgPointerMove_change.
  - apply handleSvgPointerUp_change.
Qed.

Lemma run_snoc (s : session) (events : list (Props * event))
  (pe : Props * event) :
  run randomBase36 s (events ++ [pe])
  = dispatch randomBase36 pe.1 pe.2 (run randomBase36 s events).
Proof. unfold run. now rewrite fold_left_app. Qed.

(** X10. A click with a drawing tool draws nothing: a mouse-down with the
    arrow, line, perpendicular-line, rect or zone tool followed by a
    mouse-up without a move in between leaves the play as it was, with no
    draft, no drag and no snap indicator left over, whatever was in
    progress before. *)
Theorem click_with_drawing_tool_adds_nothing (props : Props) (p : SnapPoint)
  (s : session) :
  isDrawingTool (tool props) = true →
  let s' := handleSvgPointerUp randomBase36 props
              (handleSvgPointerDown randomBase36 props (Some p) s) in
  play (canvas s') = play (canvas s)
  ∧ draws (canvas s') = draws (canvas s)
  ∧ draftState (canvas s') = None
  ∧ dragState (canvas s') = dragState (canvas s)
  ∧ snapCandidate (canvas s')
    = (if playersLocked props
       then findSnapPoint (elementsOf s) true (x p) (y p) None
       else snapCandidate (canvas s))
  ∧ selectionId s' = selectionId s.
Proof.
  intros Htool s'. subst s'.
  unfold handleSvgPointerUp, handleSvgPointerDown, onCanvas. cbn [canvas selectionId].
  destruct (tool props); try discriminate;
    unfold Canvas.handleSvgPointerUp; cbn [draftState setDraftState];
    unfold tooShort, tooSmall; cbn [draftEnds draftExtent x y];
    rewrite ?zero_length; destruct (playersLocked props); cbn;
    repeat split; reflexivity.
Qed.


Lemma moved_onYardLine (props : Props) (n : Z) (drag : DragState)
  (p : SnapPoint) (e : PlayElement) :
  (0 < lineSpacing props)%Q → (divisions props == inject_Z n)%Q → (0 ≤ n)%Z →
  onYardLine (lineSpacing props) n e →
  onYardLine (lineSpacing props) n (moved props drag p e).
Proof.
  intros Hs Hd Hn He. unfold moved. case_decide; [exact He|].
  unfold onYardLine in *.
  destruct (body e) eqn:Eb; cbn [body]; try exact I.
  destruct (playersLocked props); [now rewrite Eb|]. cbn [body].
  eexists. split; [|apply (YardLineFacts.snapToYardLine_row props n); auto].
  unfold clampZ. lia.
Qed.

Lemma change_onYardLine (props : Props) (n : Z) (es es' : list PlayElement) :
  (0 < lineSpacing props)%Q → (divisions props == inject_Z n)%Q → (0 ≤ n)%Z →
  change props es es' →
  Forall (onYardLine (lineSpacing props) n) es →
  Forall (onYardLine (lineSpacing props) n) es'.
Proof.
  intros Hs Hd Hn Hc Hes. destruct Hc as [|e px py c l r Hb|e Hb|drag p].
  - exact Hes.
  - apply Forall_app. split; [exact Hes|].
    apply Forall_singleton. unfold onYardLine. rewrite Hb.
    eexists. split; [|apply (YardLineFacts.snapToYardLine_row props n); auto].
    unfold clampZ. lia.
  - apply Forall_app. split; [exact Hes|].
    apply Forall_singleton. unfold onYardLine.
    now destruct (body e).
  - apply Forall_fmap. eapply Forall_impl; [exact Hes|].
    intros e He. now apply moved_onYardLine.
Qed.

Lemma onYardLine_spacing (a b : Q) (n : Z) (e : PlayElement) :
  (a == b)%Q → onYardLine a n e → onYardLine b n e.
Proof.
  intros Hab. unfold onYardLine, yardLine.
  destruct (body e); try tauto.
  intros (k & Hk & E). exists k. split; [exact Hk|]. now rewrite <- Hab.
Qed.

(** X11. Players stay on yard lines: on a field of [n] rows, [spacing]
    apart, if every player of the play stands on one of the rows, so does
    every player after any sequence of mouse and key events, whatever the
    tool, the lock and the colours at each of them: a player is only ever
    created or dragged onto a row. *)
Theorem players_stay_on_yard_lines (spacing : Q) (n : Z) (s : session)
  (events : list (Props * event)) :
  (0 < spacing)%Q → (0 ≤ n)%Z → onField spacing n events →
  Forall (onYardLine spacing n) (elementsOf s) →
  Forall (onYardLine spacing n) (elementsOf (run randomBase36 s events)).
Proof.
  intros Hs Hn Hev Hstart.
  induction events as [|[props ev] events IH] using rev_ind; [exact Hstart|].
  apply Forall_snoc in Hev as [Hev [Hsp Hdiv]]. cbn [fst] in Hsp, Hdiv.
  specialize (IH Hev). rewrite run_snoc. cbn [fst snd].
  set (s1 := run randomBase36 s events) in *.
  destruct (isKey ev) eqn:Ek.
  - destruct ev; try discriminate. cbn [dispatch].
    destruct (onKeyDown_elements key s1) as [->|[sel ->]]; [exact IH|].
    apply list.Forall_forall. intros e He.
    apply list_elem_of_filter in He as [_ He].
    revert e He. now apply list.Forall_forall.
  - pose proof (dispatch_change props ev s1 Ek) as Hc.
    assert (Hs' : (0 < lineSpacing props)%Q) by now rewrite Hsp.
    eapply Forall_impl.
    + apply (change_onYardLine props n _ _ Hs' Hdiv Hn Hc).
      eapply Forall_impl; [exact IH|].
      intros e. apply onYardLine_spacing. now symmetry.
    + intros e. now apply onYardLine_spacing.
Qed.

Lemma change_ids (props : Props) (es es' : list PlayElement) :
  change props es es' → map id es `prefix_of` map id es'.
Proof.
  intros [|e px py c l r Hb|e Hb|drag p].
  - reflexivity.
  - rewrite map_app. now apply prefix_app_r.
  - rewrite map_app. now apply prefix_app_r.
  - rewrite map_map. erewrite map_ext; [reflexivity|].
    intros e. symmetry. apply moved_id.
Qed.

(** X12. Mouse events never remove, reorder or rename an element: after
    any sequence of mouse events the identifiers of the play begin with the
    identifiers it had, in the same order. (Only the Backspace and Delete
    keys remove elements.) *)
Theorem mouse_events_keep_the_elements (s : session)
  (events : list (Props * event)) :
  mouseOnly events →
  map id (elementsOf s)
    `prefix_of` map id (elementsOf (run randomBase36 s events)).
Proof.
  intros Hev.
  induction events as [|[props ev] events IH] using rev_ind; [reflexivity|].
  apply Forall_snoc in Hev as [Hev Hlast]. cbn [snd] in Hlast.
  rewrite run_snoc. cbn [fst snd].
  etrans; [exact (IH Hev)|].
  apply (change_ids props), dispatch_change, Hlast.
Qed.

Lemma change_locked_players (props : Props) (es es' : list PlayElement)
  (i : nat) (e : PlayElement) :
  playersLocked props = true → change props es es' →
  es !! i = Some e → isPlayer (body e) = true → es' !! i = Some e.
Proof.
  intros Hl Hc Hi Hp. destruct Hc as [|e0 px py c l r Hb|e0 Hb|drag p].
  - exact Hi.
  - now apply lookup_app_l_Some.
  - now apply lookup_app_l_Some.
  - rewrite list_lookup_fmap, Hi. cbn.
    now rewrite moved_locked_player.
Qed.

(** X13. Locked players do not move: while [playersLocked] is set, no
    sequence of mouse events changes a player that is on the field, nor its
    place in the list of elements; whatever the tool, and wherever the
    pointer goes. *)
Theorem locked_players_never_move (s : session)
  (events : list (Props * event)) (i : nat) (e : PlayElement) :
  mouseOnly events → lockedThroughout events →
  elementsOf s !! i = Some e → isPlayer (body e) = true →
  elementsOf (run randomBase36 s events) !! i = Some e.
Proof.
  intros Hev Hlock Hi Hp.
  induction events as [|[props ev] events IH] using rev_ind; [exact Hi|].
  apply Forall_snoc in Hev as [Hev Hlast]. cbn [snd] in Hlast.
  apply Forall_snoc in Hlock as [Hlock Hl]. cbn [fst] in Hl.
  rewrite run_snoc. cbn [fst snd].
  eapply (change_locked_players props); eauto using dispatch_change.
Qed.



End WithRandom.

Lemma click_with_line_tool_on_example :
  elements (play (canvas
    (handleSvgPointerUp stuckRandom (propsWith LINE true)
       (handleSvgPointerDown stuckRandom (propsWith LINE true)
          (Some (mkPoint 10 10)) (sessionWith [ballAt100])))))
  = [ballAt100].
Proof.
  pose proof (click_with_drawing_tool_adds_nothing stuckRandom
                (propsWith LINE true) (mkPoint 10 10)
                (sessionWith [ballAt100]) eq_refl) as H.
  cbv zeta in H. destruct H as (H & _). rewrite H. reflexivity.
Defined.

Lemma players_stay_on_yard_lines_after_placing_one :
  Forall (onYardLine 36 20)
    (elements (play (canvas
       (run stuckRandom (sessionWith [playerOnRow3])
          [(propsWith PLAYER false, MouseDown (Some (mkPoint 50 130)))])))).
Proof.
  apply players_stay_on_yard_lines.
  - reflexivity.
  - lia.
  - constructor; [split; reflexivity|constructor].
  - constructor; [|constructor]. exists 3%Z. split; [lia|reflexivity].
Defined.

Lemma mouse_events_keep_the_elements_on_example :
  ["ball"] `prefix_of`
    map id (elements (play (canvas
       (run stuckRandom (sessionWith [ballAt100])
          [(propsWith BALL false, MouseDownOn (Some (mkPoint 101 102)) ballAt100);
           (propsWith BALL false, MouseMove (Some (mkPoint 151 152)));
           (propsWith BALL false, MouseUp)])))).
Proof.
  apply (mouse_events_keep_the_elements stuckRandom (sessionWith [ballAt100])).
  repeat constructor.
Defined.

Lemma locked_players_never_move_on_example :
  elements (play (canvas
    (run stuckRandom (sessionWith [playerOnRow3])
       [(propsWith PLAYER true, MouseDownOn (Some (mkPoint 101 150)) playerOnRow3);
        (propsWith PLAYER true, MouseMove (Some (mkPoint 300 300)));
        (propsWith PLAYER true, MouseUp)]))) !! 0
  = Some playerOnRow3.
Proof.
  apply locked_players_never_move.
  - repeat constructor.
  - repeat constructor.
  - reflexivity.
  - reflexivity.
Defined.



End GestureFacts.

(* ===================================================================== *)
(** ** The shell: active play, deletion, field size, undo *)
(* ===================================================================== *)

Module ShellFacts.
Import Shell.

Section WithElements.

Context {ES : Type}.

Implicit Types (st : state ES) (play : Play ES).

Lemma isActive_true (active : option string) play :
  isActive active play = true ↔ active = Some (id play).
Proof.
  unfold isActive. destruct active as [a|]; [|split; discriminate].
  rewrite bool_decide_eq_true. split; [now intros ->|now intros [= ->]].
Qed.

Lemma existsb_isActive (active : option string) (ps : list (Play ES)) :
  existsb (isActive active) ps = true
  ↔ ∃ play, play ∈ ps ∧ active = Some (id play).
Proof.
  rewrite existsb_exists. split; intros (p & Hp & H); exists p.
  - split; [now apply list_elem_of_In|now apply isActive_true].
  - split; [now apply list_elem_of_In|now apply isActive_true].
Qed.

Lemma find_isActive_None (active : option string) (ps : list (Play ES)) :
  existsb (isActive active) ps = false → find (isActive active) ps = None.
Proof.
  induction ps as [|p ps IH]; [reflexivity|]. cbn.
  destruct (isActive active p); [discriminate|]. exact IH.
Qed.

Lemma find_isActive_head (p : Play ES) (ps : list (Play ES)) :
  find (isActive (Some (id p))) (p :: ps) = Some p.
Proof. cbn. now rewrite bool_decide_eq_true_2. Qed.

Lemma repairActiveId_plays st : plays (repairActiveId st) = plays st.
Proof.
  unfold repairActiveId. destruct (plays st) eqn:E; [exact E|].
  destruct (existsb _ _); [exact E|exact E].
Qed.

(** X16. The effect that repairs [activeId]: afterwards [activeId] is
    [null] when there is no play and names one of the plays otherwise; an
    [activeId] that already names a play is kept; the plays and the play
    shown as active are the same as before; and running the effect again
    changes nothing. *)
Theorem repairActiveId_names_a_play st :
  let st' := repairActiveId st in
  plays st' = plays st
  ∧ (plays st = [] → activeId st' = None)
  ∧ (plays st ≠ [] → namesAPlay st')
  ∧ (namesAPlay st → st' = st)
  ∧ activePlay st' = activePlay st
  ∧ repairActiveId st' = st'.
Proof.
  destruct st as [ps a sel wc h].
  unfold repairActiveId, namesAPlay, activePlay, setActiveId.
  cbn [plays activeId selectionId wristConfig history].
  destruct ps as [|first rest].
  - cbn. repeat split; try done.
    intros (p & Hp & _). now apply elem_of_nil in Hp.
  - destruct (existsb (isActive a) (first :: rest)) eqn:Eex.
    + cbn [plays activeId]. rewrite Eex. repeat split; try done.
      intros _. now apply existsb_isActive.
    + cbn [plays activeId]. repeat split; try done.
      * intros _. exists first. split; [left|reflexivity].
      * intros H. apply existsb_isActive in H. congruence.
      * rewrite find_isActive_head.
        now rewrite (find_isActive_None _ _ Eex).
      * cbn. now rewrite bool_decide_eq_true_2.
Qed.

Lemma find_map_update (a : string) (f : Play ES → Play ES)
  (ps : list (Play ES)) :
  keepsId f →
  find (isActive (Some a))
       (map (λ play, if isActive (Some a) play then f play else play) ps)
  = f <$> find (isActive (Some a)) ps.
Proof.
  intros Hf. induction ps as [|p ps IH]; [reflexivity|]. cbn.
  destruct (bool_decide (id p = a)) eqn:E.
  - cbn. rewrite Hf, E. reflexivity.
  - cbn. rewrite E. exact IH.
Qed.

Lemma map_update_stale (active : option string) (f : Play ES → Play ES)
  (ps : list (Play ES)) :
  existsb (isActive active) ps = false →
  map (λ play, if isActive active play then f play else play) ps = ps.
Proof.
  induction ps as [|p ps IH]; [reflexivity|]. cbn.
  destruct (isActive active p); [discriminate|].
  intros H. now rewrite IH.
Qed.

(** X17. Edits go to the play on screen once [activeId] is repaired: for
    an updater that keeps the identifier, if [p] is the play shown as
    active and its identifier is not empty, then after the repair effect
    [updateActivePlay] makes the updated [p] the active play, and the
    identifiers of the plays are unchanged. Before the repair, an
    [activeId] that names no play makes [updateActivePlay] drop the edit
    although a play is shown. *)
Theorem edits_reach_the_active_play (updater : Play ES → Play ES) st play :
  keepsId updater → activePlay st = Some play → id play ≠ "" →
  let st' := updateActivePlay updater (repairActiveId st) in
  activePlay st' = Some (updater play)
  ∧ playIds st' = playIds st
  ∧ (¬ namesAPlay st → plays (updateActivePlay updater st) = plays st).
Proof.
  intros Hf Hactive Hid st'.
  assert (Hstale : ¬ namesAPlay st →
                   plays (updateActivePlay updater st) = plays st).
  { intros Hn. unfold updateActivePlay.
    destruct (falsy (activeId st)); [reflexivity|]. cbn.
    apply map_update_stale.
    destruct (existsb (isActive (activeId st)) (plays st)) eqn:E;
      [|reflexivity].
    apply existsb_isActive in E. contradiction. }
  assert (Hids : ∀ s, playIds (updateActivePlay updater s) = playIds s).
  { intros s. unfold playIds, updateActivePlay.
    destruct (falsy (activeId s)); [reflexivity|]. cbn.
    rewrite map_map. apply map_ext. intros p.
    destruct (isActive (activeId s) p); [apply Hf|reflexivity]. }
  split; [|split; [|exact Hstale]].
  2:{ subst st'. rewrite Hids. unfold playIds.
      now rewrite repairActiveId_plays. }
  subst st'.
  assert (Hrep : activeId (repairActiveId st) = Some (id play)
                 ∧ plays (repairActiveId st) = plays st
                 ∧ find (isActive (Some (id play))) (plays st) = Some play).
  { clear Hstale Hids. destruct st as [ps a sel wc h].
    unfold activePlay in Hactive. unfold repairActiveId, setActiveId.
    cbn [plays activeId selectionId wristConfig history] in *.
    destruct ps as [|first rest]; [discriminate|].
    destruct (existsb (isActive a) (first :: rest)) eqn:Eex.
    - cbn [plays activeId].
      destruct (find (isActive a) (first :: rest)) as [q|] eqn:Ef.
      + injection Hactive as ->.
        pose proof (find_some _ _ Ef) as [_ Ha]. apply isActive_true in Ha.
        subst a. now rewrite Ef.
      + apply existsb_exists in Eex as (q & Hq & Ha).
        now rewrite (find_none _ _ Ef q Hq) in Ha.
    - rewrite (find_isActive_None _ _ Eex) in Hactive.
      injection Hactive as ->. cbn [plays activeId].
      repeat split. apply find_isActive_head. }
  destruct Hrep as (Ha & Hps & Hfind).
  unfold activePlay, updateActivePlay. rewrite Ha.
  cbn [falsy]. rewrite bool_decide_eq_false_2 by exact Hid.
  cbn [plays activeId setPlays]. rewrite Ha, Hps.
  rewrite (find_map_update _ _ _ Hf), Hfind. reflexivity.
Qed.

Lemma filter_length_NoDup (a : string) (ps : list (Play ES)) :
  NoDup (map id ps) →
  length ps ≤ length (filter (λ play, isActive (Some a) play = false) ps) + 1.
Proof.
  induction ps as [|p ps IH]; [cbn; lia|].
  intros Hnd. apply NoDup_cons in Hnd as [Hp Hnd].
  rewrite filter_cons.
  destruct (decide (isActive (Some a) p = false)) as [E|E].
  - cbn [length]. specialize (IH Hnd). lia.
  - apply not_false_is_true, isActive_true in E. injection E as ->.
    assert (Hall : filter (λ play, isActive (Some (id p)) play = false) ps = ps).
    { clear IH Hnd. induction ps as [|q qs IHq]; [reflexivity|].
      rewrite filter_cons.
      destruct (decide (isActive (Some (id p)) q = false)) as [Eq|Eq].
      - f_equal. apply IHq.
        intros Hin. apply Hp. apply elem_of_cons. now right.
      - apply not_false_is_true, isActive_true in Eq. injection Eq as Eq.
        exfalso. apply Hp. apply elem_of_cons. now left. }
    rewrite Hall. cbn [length]. lia.
Qed.

(** X18. Deleting a play: when the plays have distinct identifiers and
    there is at least one, [handleDeletePlay] leaves at least one; it
    removes at most one play and adds none; and whenever it changes
    anything, no play with the old [activeId] is left, the last remaining
    play becomes the active one and the element selection is cleared. A
    single play is never deleted. *)
Theorem handleDeletePlay_keeps_a_play st :
  NoDup (playIds st) → plays st ≠ [] →
  let st' := handleDeletePlay st in
  plays st' ≠ []
  ∧ (∀ play, play ∈ plays st' → play ∈ plays st)
  ∧ length (plays st) ≤ length (plays st') + 1
  ∧ (length (plays st) ≤ 1 → st' = st)
  ∧ (st' ≠ st →
     (∀ play, play ∈ plays st' → isActive (activeId st) play = false)
     ∧ (∃ play, last (plays st') = Some play
                ∧ activeId st' = Some (id play))
     ∧ selectionId st' = None).
Proof.
  intros Hnd Hne st'. subst st'. unfold handleDeletePlay.
  destruct (falsy (activeId st)) eqn:Ef.
  { cbn [orb]. repeat split; try done. lia. }
  destruct (Nat.leb_spec (length (plays st)) 1) as [Hlen|Hlen].
  { cbn [orb]. repeat split; try done. lia. }
  cbn [orb plays activeId selectionId setPlays setActiveId setSelectionId].
  destruct (activeId st) as [a|] eqn:Ea; [|discriminate].
  pose proof (filter_length_NoDup a (plays st) Hnd) as Hfl.
  set (filtered := filter (λ play, isActive (Some a) play = false) (plays st))
    in *.
  assert (Hfne : filtered ≠ []).
  { intros E. rewrite E in Hfl. cbn in Hfl. lia. }
  split; [exact Hfne|]. split.
  { intros p Hp. now apply list_elem_of_filter in Hp as [_ Hp]. }
  split; [exact Hfl|]. split; [lia|].
  intros _. split.
  { intros p Hp. now apply list_elem_of_filter in Hp as [Hp _]. }
  split; [|reflexivity].
  destruct (last filtered) as [l|] eqn:El.
  - exists l. now split.
  - apply last_None in El. contradiction.
Qed.



End WithElements.



Lemma edits_reach_the_active_play_on_example :
  activePlay
    (updateActivePlay (handleLineOfScrimmageChange (Some (Finite 7)))
       (repairActiveId twoPlays))
  = Some (handleLineOfScrimmageChange (Some (Finite 7)) play2).
Proof.
  apply edits_reach_the_active_play.
  - intros play. now destruct play.
  - reflexivity.
  - discriminate.
Defined.

Lemma handleDeletePlay_keeps_a_play_of_two :
  plays (handleDeletePlay twoPlays) ≠ [].
Proof.
  apply handleDeletePlay_keeps_a_play.
  - apply (bool_decide_unpack _). vm_compute. exact I.
  - discriminate.
Defined.

End ShellFacts.

(* ===================================================================== *)
(** ** The wrist card: selection and grid *)
(* ===================================================================== *)

Module WristFacts.
Import Shell BoardView.

Lemma differsAt_false (next current : list string) :
  length next = length current → differsAt next current = false →
  next = current.
Proof.
  intros Hlen Hd. apply list_eq. intros i.
  destruct (next !! i) as [x|] eqn:Ex.
  - unfold differsAt in Hd.
    destruct (current !! i) as [y|] eqn:Ey.
    + destruct (decide (y = x)) as [->|Hne]; [reflexivity|].
      exfalso. apply not_true_iff_false in Hd. apply Hd.
      apply existsb_exists. exists (i, x). split.
      * apply list_elem_of_In. now apply (elem_of_lookup_imap_2 pair).
      * rewrite Ey. rewrite bool_decide_eq_false_2; [reflexivity|congruence].
    + apply lookup_lt_Some in Ex. apply lookup_ge_None in Ey. lia.
  - apply lookup_ge_None in Ex. symmetry. apply lookup_ge_None. lia.
Qed.

Lemma drop_elem_of {A} (n : nat) (l : list A) (x : A) :
  x ∈ drop n l → x ∈ l.
Proof.
  intros H. rewrite <- (take_drop n l). apply elem_of_app. now right.
Qed.

Lemma drop_NoDup {A} (n : nat) (l : list A) : NoDup l → NoDup (drop n l).
Proof.
  intros H. rewrite <- (take_drop n l) in H.
  now apply NoDup_app in H as (_ & _ & H).
Qed.

Section WithElements.

Context {ES : Type}.

Lemma syncWristSelection_selectedIds (ps : list (Play ES)) (c : WristConfig) :
  selectedIds (syncWristSelection ps c) = cardIds ps c.
Proof.
  unfold syncWristSelection, cardIds.
  set (kept := filter (λ i, i ∈ map id ps) (selectedIds c)).
  set (others := filter (λ i, i ∉ kept) (map id ps)).
  set (next := if (length kept <? playCount c)%nat
               then kept ++ take (playCount c - length kept) others
               else if (playCount c <? length kept)%nat
                    then take (playCount c) kept else kept).
  assert (Hnext : next = take (playCount c) (kept ++ others)).
  { subst next.
    destruct (Nat.ltb_spec (length kept) (playCount c)) as [H|H].
    - rewrite take_app_ge by lia. reflexivity.
    - rewrite take_app_le by lia.
      destruct (Nat.ltb_spec (playCount c) (length kept)) as [H2|H2];
        [reflexivity|].
      now rewrite take_ge by lia. }
  destruct (negb (length next =? length (selectedIds c))%nat
            || differsAt next (selectedIds c)) eqn:Ech.
  - cbn [selectedIds withSelectedIds]. exact Hnext.
  - apply orb_false_elim in Ech as [Hl Hd].
    apply negb_false_iff, Nat.eqb_eq in Hl.
    rewrite <- Hnext. symmetry. now apply differsAt_false.
Qed.

Lemma syncWristSelection_rest (ps : list (Play ES)) (c : WristConfig) :
  syncWristSelection ps c = withSelectedIds c (cardIds ps c).
Proof.
  pose proof (syncWristSelection_selectedIds ps c) as H.
  unfold syncWristSelection in *.
  destruct (negb _ || _).
  - cbn [selectedIds withSelectedIds] in H. now rewrite H.
  - rewrite <- H. now destruct c.
Qed.

Lemma filter_all {A} (P : A → Prop) `{∀ x, Decision (P x)} (l : list A) :
  Forall P l → filter P l = l.
Proof.
  induction 1 as [|x l Hx _ IH]; [reflexivity|].
  now rewrite filter_cons, decide_True, IH.
Qed.

Lemma filter_none {A} (P : A → Prop) `{∀ x, Decision (P x)} (l : list A) :
  Forall (λ x, ¬ P x) l → filter P l = [].
Proof.
  induction 1 as [|x l Hx _ IH]; [reflexivity|].
  now rewrite filter_cons, decide_False, IH.
Qed.

Lemma cardIds_available (ps : list (Play ES)) (c : WristConfig) :
  Forall (λ i, i ∈ map id ps) (cardIds ps c).
Proof.
  unfold cardIds. apply Forall_take, Forall_app. split.
  - apply list.Forall_forall. intros i Hi.
    now apply list_elem_of_filter in Hi as [Hi _].
  - apply list.Forall_forall. intros i Hi.
    now apply list_elem_of_filter in Hi as [_ Hi].
Qed.

Lemma cardIds_stable (ps : list (Play ES)) (c : WristConfig) :
  cardIds ps (withSelectedIds c (cardIds ps c)) = cardIds ps c.
Proof.
  pose proof (cardIds_available ps c) as Hav.
  unfold cardIds at 1. cbn [selectedIds playCount withSelectedIds].
  rewrite (filter_all _ _ Hav).
  destruct (Nat.le_gt_cases (playCount c) (length (cardIds ps c))) as [H|H].
  - rewrite take_app_le by exact H. apply take_ge.
    unfold cardIds. rewrite length_take. lia.
  - assert (Hfull : cardIds ps c
                    = filter (λ i, i ∈ map id ps) (selectedIds c)
                      ++ filter (λ i, i ∉ filter (λ i, i ∈ map id ps)
                                                  (selectedIds c))
                           (map id ps)).
    { unfold cardIds in *. rewrite length_take in H.
      apply take_ge. lia. }
    rewrite filter_none.
    + rewrite app_nil_r. apply take_ge. lia.
    + apply list.Forall_forall. intros i Hi Hnot. apply Hnot.
      rewrite Hfull. apply elem_of_app.
      destruct (decide (i ∈ filter (λ i, i ∈ map id ps) (selectedIds c)))
        as [Hk|Hk]; [now left|right].
      apply list_elem_of_filter. now split.
Qed.

(** X21. The effect that keeps the wrist card in step with the plays: the
    selection becomes the selected identifiers that still name a play,
    followed by the identifiers of the other plays, cut at [playCount];
    so every selected identifier names a play, there are never more than
    [playCount] of them, card size and [playCount] are untouched, and
    running the effect again changes nothing. *)
Theorem syncWristSelection_fills_the_card (ps : list (Play ES))
  (c : WristConfig) :
  let c' := syncWristSelection ps c in
  selectedIds c' = cardIds ps c
  ∧ playCount c' = playCount c
  ∧ widthIn c' = widthIn c ∧ heightIn c' = heightIn c
  ∧ Forall (λ i, i ∈ map id ps) (selectedIds c')
  ∧ length (selectedIds c') ≤ playCount c
  ∧ syncWristSelection ps c' = c'.
Proof.
  intros c'. subst c'. rewrite !syncWristSelection_rest.
  cbn [selectedIds playCount widthIn heightIn withSelectedIds].
  repeat split.
  - apply cardIds_available.
  - unfold cardIds. rewrite length_take. lia.
  - rewrite cardIds_stable. reflexivity.
Qed.

(** X22. The number of plays on the card: whatever is typed,
    [handlePlayCountChange] stores a whole number between 1 and the number
    of plays (1 when there are none): the rounding of a finite input
    brought into that range, and 1 for an input that is not a finite
    number. *)
Theorem handlePlayCountChange_in_range (ps : list (Play ES)) (raw : number) :
  ∃ n : nat,
    1 ≤ n ≤ Nat.max 1 (length ps)
    ∧ handlePlayCountChange ps raw = Finite (inject_Z (Z.of_nat n))
    ∧ (isFinite raw = false → n = 1)
    ∧ ∀ q, raw = Finite q →
           Z.of_nat n
           = clampZ (Math.roundQ q) 1 (Z.of_nat (Nat.max 1 (length ps))).
Proof.
  unfold handlePlayCountChange.
  destruct raw as [| | |q]; cbn [isFinite];
    try (exists 1; repeat split; try lia; discriminate).
  unfold Math.round. change (Finite 1) with (Finite (inject_Z 1)).
  rewrite !max_inject, min_inject.
  set (len := Z.of_nat (length ps)). set (r := Math.roundQ q).
  exists (Z.to_nat (Z.min (Z.max r 1) (Z.max 1 len))).
  assert (Hlen : (0 ≤ len)%Z) by (unfold len; lia).
  split; [unfold len in *; lia|]. split.
  - do 2 f_equal. lia.
  - split; [discriminate|]. intros q' [= <-]. fold r.
    unfold clampZ. unfold len. lia.
Qed.

Lemma ceilDiv_spec (a b : nat) :
  1 ≤ a → 1 ≤ b →
  (ceilDiv a b - 1) * b < a ∧ a ≤ ceilDiv a b * b ∧ 1 ≤ ceilDiv a b.
Proof.
  intros Ha Hb. unfold ceilDiv.
  pose proof (Nat.div_mod_eq (a + b - 1) b) as E.
  pose proof (Nat.mod_upper_bound (a + b - 1) b ltac:(lia)) as Hm.
  set (r := (a + b - 1) / b) in *. set (m := (a + b - 1) mod b) in *.
  assert (1 ≤ r) by (destruct r; [nia|lia]).
  repeat split; nia.
Qed.

(** X23. The grid of the wrist card holds the plays it renders: it has at
    least one row and one column, enough cells for every play, no empty
    row, and is square or one column wider than high. The plays rendered
    are plays of the list whose identifiers are selected, and with a
    positive [playCount] they and the missing ones add up to it. *)
Theorem computeWristMetrics_grid_holds_the_plays (ps : list (Play ES))
  (c : WristConfig) :
  let g := computeWristMetrics ps c in
  let count := length (playsToRender g) in
  1 ≤ gridCols g ∧ 1 ≤ gridRows g
  ∧ count ≤ gridCols g * gridRows g
  ∧ (gridRows g - 1) * gridCols g < Nat.max count 1
  ∧ gridRows g ≤ gridCols g ≤ gridRows g + 1
  ∧ Forall (λ play, play ∈ ps ∧ id play ∈ selectedIds c) (playsToRender g)
  ∧ (1 ≤ playCount c → count + missingPlays g = playCount c).
Proof.
  intros g count. subst g count. unfold computeWristMetrics.
  cbn [playsToRender missingPlays gridCols gridRows].
  set (selected := omap _ (selectedIds c)).
  set (limit := Nat.max 1 _).
  set (count := length (take limit selected)).
  assert (Hgrid :
    let cols := if (count <=? 1)%nat then 1
                else if (count =? 2)%nat then 2 else Nat.sqrt_up count in
    let rows := Nat.max 1 (ceilDiv (Nat.max count 1) cols) in
    1 ≤ cols ∧ 1 ≤ rows ∧ count ≤ cols * rows
    ∧ (rows - 1) * cols < Nat.max count 1 ∧ rows ≤ cols ≤ rows + 1).
  { generalize count. clear. intros count cols rows. subst cols rows.
    destruct (Nat.leb_spec count 1) as [H1|H1].
    - replace (Nat.max count 1) with 1 by lia. cbn. lia.
    - destruct (Nat.eqb_spec count 2) as [->|H2]; [cbn; lia|].
      replace (Nat.max count 1) with count by lia.
      pose proof (Nat.sqrt_up_spec count ltac:(lia)) as [Hlo Hhi].
      set (s := Nat.sqrt_up count) in *.
      assert (Hs : 2 ≤ s) by (destruct s as [|[|s']]; cbn in *; lia).
      destruct (ceilDiv_spec count s ltac:(lia) ltac:(lia)) as (Ha & Hb & Hc).
      set (r := ceilDiv count s) in *.
      replace (Nat.max 1 r) with r by lia.
      assert (Hp : Nat.pred s = s - 1) by lia. rewrite Hp in Hlo.
      repeat split; try lia; try nia. }
  cbv zeta in Hgrid.
  destruct Hgrid as (H1 & H2 & H3 & H4 & H5).
  split; [exact H1|]. split; [exact H2|]. split; [exact H3|].
  split; [exact H4|]. split; [exact H5|]. split.
  - apply Forall_take. apply list.Forall_forall. intros p Hp.
    subst selected. apply list_elem_of_omap in Hp as (i & Hi & Hf).
    apply find_some in Hf as [Hin Hid].
    apply bool_decide_eq_true in Hid. subst i.
    split; [now apply list_elem_of_In|exact Hi].
  - intros Hpc. subst count. rewrite length_take.
    assert (limit = playCount c).
    { subst limit. unfold orCount at 1.
      destruct (Nat.eqb_spec (playCount c) 0); lia. }
    lia.
Qed.

End WithElements.

(** X24. Ticking a play on the card toggles it: with a positive
    [playCount], the play is selected afterwards exactly when it was not
    before, nothing else is added, a selection of distinct identifiers
    stays one, and a selection within [playCount] stays within it: on a
    full card the oldest selection makes room for the new one. *)
Theorem togglePlaySelection_toggles (c : WristConfig) (i : string) :
  1 ≤ playCount c →
  let next := togglePlaySelection c i in
  (i ∈ next ↔ i ∉ selectedIds c)
  ∧ (∀ j, j ∈ next → j = i ∨ j ∈ selectedIds c)
  ∧ (NoDup (selectedIds c) → NoDup next)
  ∧ (length (selectedIds c) ≤ playCount c → length next ≤ playCount c)
  ∧ (i ∉ selectedIds c → length (selectedIds c) = playCount c →
     next = drop 1 (selectedIds c) ++ [i]).
Proof.
  intros Hpc next. subst next. unfold togglePlaySelection.
  destruct (decide (i ∈ selectedIds c)) as [Hin|Hin].
  - rewrite bool_decide_eq_true_2 by exact Hin. cbn [negb andb].
    split; [|split; [|split; [|split]]].
    + split; [intros H _|contradiction].
      apply list_elem_of_filter in H as [H _]. now apply H.
    + intros j Hj. apply list_elem_of_filter in Hj as [_ Hj]. now right.
    + apply NoDup_filter.
    + intros Hlen. etrans; [apply length_filter|exact Hlen].
    + contradiction.
  - rewrite bool_decide_eq_false_2 by exact Hin. cbn [negb andb].
    set (sel := selectedIds c) in *.
    assert (Hnext :
      (if (playCount c <? length (sel ++ [i]))%nat
       then drop (length (sel ++ [i]) - playCount c) (sel ++ [i])
       else sel ++ [i])
      = drop (length sel + 1 - playCount c) sel ++ [i]).
    { rewrite length_app. cbn [length].
      destruct (Nat.ltb_spec (playCount c) (length sel + 1)) as [H|H].
      - rewrite drop_app_le by lia. reflexivity.
      - replace (length sel + 1 - playCount c) with 0 by lia. reflexivity. }
    rewrite Hnext. split; [|split; [|split; [|split]]].
    + split; [now intros _|]. intros _. apply elem_of_app. right. left.
    + intros j Hj. apply elem_of_app in Hj as [Hj|Hj].
      * right. eapply drop_elem_of, Hj.
      * left. now apply list_elem_of_singleton in Hj.
    + intros Hnd. apply NoDup_app. split; [|split].
      * now apply drop_NoDup.
      * intros j Hj Hji. apply list_elem_of_singleton in Hji as ->.
        apply Hin. eapply drop_elem_of, Hj.
      * apply NoDup_singleton.
    + intros Hlen. rewrite length_app, length_drop. cbn [length]. lia.
    + intros _ Hlen. now replace (length sel + 1 - playCount c) with 1 by lia.
Qed.

Lemma togglePlaySelection_toggles_second_play :
  togglePlaySelection cardOfTwo "p2" = ["p1"; "p2"]
  ∧ "p2" ∈ togglePlaySelection cardOfTwo "p2".
Proof.
  split; [reflexivity|].
  apply (togglePlaySelection_toggles cardOfTwo "p2"); [cbn; lia|].
  apply (bool_decide_unpack _). vm_compute. exact I.
Defined.

End WristFacts.

(* ===================================================================== *)
(** ** The grid behind the canvas *)
(* ===================================================================== *)

Module FieldGridFacts.
Import FieldGrid.

Lemma safeDivisions_whole (n : Z) :
  (1 ≤ n)%Z →
  Math.max (Finite 1) (Math.round (Finite (inject_Z n))) = Finite (inject_Z n).
Proof.
  intros Hn. unfold Math.round. rewrite roundQ_inject.
  change (Finite 1) with (Finite (inject_Z 1)). rewrite max_inject.
  do 2 f_equal. lia.
Qed.

Lemma Qfloor_inject (n : Z) : Qfloor (inject_Z n) = n.
Proof. unfold Qfloor, inject_Z. apply Z.div_1_r. Qed.

Lemma strictEq_whole (a b : Z) :
  strictEq (Finite (inject_Z a)) (Finite (inject_Z b)) = bool_decide (a = b).
Proof.
  unfold strictEq.
  destruct (decide (a = b)) as [->|H].
  - rewrite bool_decide_eq_true_2 by reflexivity. apply Qeq_bool_iff. reflexivity.
  - rewrite bool_decide_eq_false_2 by exact H.
    apply not_true_iff_false. intros E. apply Qeq_bool_iff in E.
    apply H. now apply inject_Z_injective.
Qed.

(** X25. The grid draws the rows the canvas snaps to: for a field of [n]
    yards whose height is what [computeFieldSize] gives, any width and any
    line of scrimmage, [FieldGrid] draws the [n + 1] horizontal lines
    numbered 0 to [n], line [i] at 40 + 36 i px, the position of yard line
    [i] of [snapToYardLine]. *)
Theorem FieldGrid_draws_the_yard_lines (width widthYards : number) (n : Z)
  (lineOfScrimmage : option number) (losColor yardLineColor : string) :
  (1 ≤ n)%Z →
  ∃ ls,
    lines width (h (computeFieldSize widthYards (Finite (inject_Z n))))
          (Finite (inject_Z n)) lineOfScrimmage losColor yardLineColor
    = Some ls
    ∧ length ls = Z.to_nat n + 1
    ∧ ∀ i l, ls !! i = Some l →
             key l = i ∧ y2 l = y1 l
             ∧ y1 l ≡ Finite (yardLine 36 (Z.of_nat i)).
Proof.
  intros Hn. unfold lines. rewrite (safeDivisions_whole n Hn).
  eexists. split; [reflexivity|]. rewrite Qfloor_inject. split.
  - now rewrite length_map, length_seq.
  - intros i l Hi. rewrite list_lookup_fmap in Hi.
    destruct (seq 0 (Z.to_nat n + 1) !! i) as [j|] eqn:Ej; [|discriminate].
    apply lookup_seq in Ej as [-> Hlt]. injection Hi as <-.
    cbn [key y1 y2 lineAt]. split; [reflexivity|]. split; [reflexivity|].
    unfold computeFieldSize. cbn [h].
    rewrite yardUnits_finite, roundQ_inject.
    replace (Z.max 1 n) with n by lia.
    change BASE_UNIT_PX with (Finite ((800 + - (40 * 2)) / 20)).
    unfold div, sub, add, mul, neg, FIELD_CONSTANTS.FIELD_MARGIN_VERTICAL.
    rewrite Qeq_bool_inject_0.
    destruct (Z.eqb_spec n 0) as [E|_]; [lia|].
    unfold equiv, number_equiv, num_eq, yardLine.
    assert (Hz : ¬ (inject_Z n == 0)%Q).
    { change 0%Q with (inject_Z 0). rewrite inject_Z_injective. lia. }
    field. exact Hz.
Qed.

(** X26. The line of scrimmage is drawn once, counted from the bottom: on
    a field of [n] yards with a finite line of scrimmage [los], the only
    line of the grid drawn as the line of scrimmage (4 px wide, in
    [losColor]) is line [n - c], where [c] is [los] rounded and brought
    into [0..n]; the other lines are 2 px wide at every fifth yard and
    1 px wide elsewhere. Without a line of scrimmage no line is drawn
    4 px wide. *)
Theorem FieldGrid_marks_the_line_of_scrimmage (width height : number) (n : Z)
  (lineOfScrimmage : option number) (losColor yardLineColor : string) :
  (1 ≤ n)%Z →
  ∃ ls,
    lines width height (Finite (inject_Z n)) lineOfScrimmage
          losColor yardLineColor = Some ls
    ∧ ∀ i l, ls !! i = Some l →
        (∀ los, lineOfScrimmage = Some (Finite los) →
                isLosLine l
                ↔ Z.of_nat i = (n - clampZ (Math.roundQ los) 0 n)%Z)
        ∧ (lineOfScrimmage = None → ¬ isLosLine l)
        ∧ (isLosLine l → stroke l = losColor)
        ∧ (¬ isLosLine l →
           stroke l = yardLineColor
           ∧ strokeWidth l = if (i mod 5 =? 0)%nat then 2%Z else 1%Z).
Proof.
  intros Hn. unfold lines. rewrite (safeDivisions_whole n Hn).
  eexists. split; [reflexivity|].
  intros i l Hi. rewrite list_lookup_fmap in Hi.
  destruct (seq 0 (Z.to_nat (Qfloor (inject_Z n)) + 1) !! i) as [j|] eqn:Ej;
    [|discriminate].
  apply lookup_seq in Ej as [-> _]. injection Hi as <-.
  unfold isLosLine, lineAt. cbn [strokeWidth stroke Nat.add].
  assert (Hwidth : ∀ b : bool,
            (if b then 4%Z else if (i mod 5 =? 0)%nat then 2%Z else 1%Z) = 4%Z
            ↔ b = true).
  { intros [|]; [tauto|]. destruct (i mod 5 =? 0)%nat; split; discriminate. }
  split; [|split; [|split]].
  - intros los ->. rewrite Hwidth. unfold Math.round.
    change 0%Q with (inject_Z 0). rewrite Qle_bool_inject.
    assert (E : (if (0 <=? Math.roundQ los)%Z
                 then Finite (inject_Z (Math.roundQ los))
                 else Finite (inject_Z 0))
                = Finite (inject_Z (Z.max 0 (Math.roundQ los)))).
    { destruct (Z.leb_spec 0 (Math.roundQ los)); do 2 f_equal; lia. }
    rewrite E, min_inject. cbn [neg].
    unfold strictEq. rewrite Qeq_bool_iff.
    rewrite <- inject_Z_opp, <- inject_Z_plus, inject_Z_injective.
    unfold clampZ. lia.
  - intros -> H. cbv beta iota in H.
    destruct (i mod 5 =? 0)%nat; discriminate.
  - rewrite Hwidth. now intros ->.
  - rewrite Hwidth. intros Hb. apply not_true_is_false in Hb.
    now rewrite Hb.
Qed.

Lemma FieldGrid_draws_the_yard_lines_of_default_field :
  ∃ ls, lines (Finite 1160) (h (computeFieldSize (Finite 30) (Finite 20)))
              (Finite 20) (Some (Finite 5)) "#000000" "#e2e8f0" = Some ls
        ∧ length ls = 21.
Proof.
  destruct (FieldGrid_draws_the_yard_lines (Finite 1160) (Finite 30) 20
              (Some (Finite 5)) "#000000" "#e2e8f0")
    as (ls & H & Hlen & _); [lia|].
  exists ls. split; [exact H|exact Hlen].
Defined.

Lemma FieldGrid_marks_line_15_of_default_field :
  ∃ ls, lines (Finite 1160) (Finite 800) (Finite 20) (Some (Finite 5))
              "#000000" "#e2e8f0" = Some ls
        ∧ ∀ l, ls !! 15 = Some l → isLosLine l.
Proof.
  destruct (FieldGrid_marks_the_line_of_scrimmage (Finite 1160) (Finite 800)
              20 (Some (Finite 5)) "#000000" "#e2e8f0")
    as (ls & H & Hls); [lia|].
  exists ls. split; [exact H|].
  intros l Hl. destruct (Hls 15 l Hl) as (Hlos & _).
  apply (Hlos 5%Q eq_refl). reflexivity.
Defined.

End FieldGridFacts.

(* ===================================================================== *)
(** ** The single-file App.tsx against the modular code *)
(* ===================================================================== *)

Module LegacyFacts.
Import LegacyApp.

Section WithSnapshot.

Context {Snapshot : Type}.
Implicit Types (r : refs Snapshot) (s : Snapshot).

Lemma recordChange_register r s :
  length (undoStack r) ≤ 50 →
  asHook (recordChange s r)
  = History.register (History.capacityOf None) (asHook r) s.
Proof.
  intros Hlen. unfold recordChange, History.register, asHook.
  cbn [History.skipNext History.undoStack History.previous History.redoStack].
  destruct (skipHistory r); [reflexivity|].
  cbn [undoStack redoStack prevState skipHistory].
  change (History.capacityOf None) with 50.
  destruct (Nat.ltb_spec 50 (length (undoStack r ++ [prevState r])))
    as [H|H]; [|reflexivity].
  unfold History.sliceLast. rewrite length_app in *. cbn [length] in *.
  now replace (length (undoStack r) + 1 - 50) with 1 by lia.
Qed.

(** X27. The inline history of the single-file App is the [useHistory]
    hook with its default capacity of 50: while the undo stack holds at
    most 50 entries, the effect that records a change does to the refs what
    [register] does; and when the baseline is the state on screen, [undo]
    and [redo] hand back the snapshot the hook's [undo] and [redo] return,
    and leave the refs as the hook does once the next change is recorded
    (the inline code updates its baseline only then). *)
Theorem inline_history_is_useHistory r (current next : Snapshot) :
  length (undoStack r) ≤ 50 →
  prevState r = current →
  asHook (recordChange next r)
  = History.register (History.capacityOf None) (asHook r) next
  ∧ (undo current r).1 = (History.undo (asHook r)).1
  ∧ asHook (recordChange next (undo current r).2)
    = History.register (History.capacityOf None)
        (History.undo (asHook r)).2 next
  ∧ (redo current r).1 = (History.redo (asHook r)).1
  ∧ asHook (recordChange next (redo current r).2)
    = History.register (History.capacityOf None)
        (History.redo (asHook r)).2 next.
Proof.
  intros Hlen Hcur.
  split; [now apply recordChange_register|].
  unfold undo, redo, History.undo, History.redo, History.sliceInit.
  cbn [asHook History.undoStack History.redoStack History.previous
       History.skipNext].
  rewrite Hcur.
  destruct (last (undoStack r)) as [p|] eqn:Eu;
    destruct (last (redoStack r)) as [n|] eqn:Er;
    cbn [fst snd]; repeat split;
    try (now apply recordChange_register); reflexivity.
Qed.

End WithSnapshot.

Lemma inline_history_is_useHistory_on_numbers :
  (undo 2%nat {| undoStack := [1%nat]; redoStack := [];
                 prevState := 2%nat; skipHistory := false |}).1
  = (History.undo {| History.undoStack := [1%nat]; History.redoStack := [];
                     History.previous := 2%nat;
                     History.skipNext := false |}).1.
Proof.
  destruct (inline_history_is_useHistory
              {| undoStack := [1%nat]; redoStack := [];
                 prevState := 2%nat; skipHistory := false |} 2%nat 3%nat)
    as (_ & H & _).
  - cbn. lia.
  - reflexivity.
  - exact H.
Defined.

Section Reorder.

Context {A : Type}.
Implicit Types (plays : list A).

Lemma fmap_delete_list {B} (f : A → B) (i : nat) plays :
  f <$> delete i plays = delete i (f <$> plays).
Proof.
  now rewrite !delete_take_drop, fmap_app, fmap_take, fmap_drop.
Qed.

Lemma reorder_valid (from to : nat) plays (x : A) :
  plays !! from = Some x →
  reorder from to plays
  = Some <$> (take to (delete from plays) ++ [x] ++ drop to (delete from plays)).
Proof.
  intros Hx. unfold reorder.
  change (map Some plays) with (Some <$> plays).
  rewrite list_lookup_fmap, Hx.
  rewrite !fmap_app, fmap_take, fmap_drop, fmap_delete_list. reflexivity.
Qed.

Lemma inserted_lookup (to : nat) (rest : list A) (x : A) :
  (take to rest ++ [x] ++ drop to rest) !! Nat.min to (length rest) = Some x.
Proof. apply list_lookup_middle. now rewrite length_take. Qed.

Lemma inserted_delete (to : nat) (rest : list A) (x : A) :
  delete (Nat.min to (length rest)) (take to rest ++ [x] ++ drop to rest)
  = rest.
Proof.
  replace (Nat.min to (length rest)) with (length (take to rest))
    by now rewrite length_take.
  cbn [app]. rewrite delete_middle. apply take_drop.
Qed.

Lemma length_delete_lookup (from : nat) plays (x : A) :
  plays !! from = Some x → length (delete from plays) = length plays - 1.
Proof.
  intros Hx. apply lookup_lt_Some in Hx.
  rewrite delete_take_drop, length_app, length_take, length_drop. lia.
Qed.

(** X28. Reordering the board moves one play and keeps the others: for an
    index [from] of the list, [reorder(from, to)] returns the plays without
    gaps, the same plays in another order; the play that was at [from] is
    at [to] (at the end when [to] is past it) and the others keep their
    relative order. In particular "move right" followed by "move left" on
    the play that moved restores the order. *)
Theorem reorder_moves_one_play (from to : nat) plays (x : A) :
  plays !! from = Some x →
  ∃ next,
    reorder from to plays = Some <$> next
    ∧ next ≡ₚ plays
    ∧ next !! Nat.min to (length plays - 1) = Some x
    ∧ delete (Nat.min to (length plays - 1)) next = delete from plays
    ∧ (S from < length plays →
       ∃ right, moveRight from plays = Some <$> right
                ∧ moveLeft (S from) right = Some <$> plays).
Proof.
  intros Hx. pose proof (length_delete_lookup from plays x Hx) as Hlen.
  eexists. split; [exact (reorder_valid from to plays x Hx)|].
  rewrite <- Hlen. split; [|split; [|split]].
  - cbn [app]. rewrite <- Permutation_middle, take_drop.
    symmetry. now apply delete_Permutation.
  - apply inserted_lookup.
  - apply inserted_delete.
  - intros Hlt. eexists. unfold moveRight, moveLeft.
    replace (Nat.min (length plays - 1) (from + 1)) with (S from) by lia.
    split; [exact (reorder_valid _ _ _ x Hx)|].
    replace (Nat.max 0 (S from - 1)) with from by lia.
    set (rest := delete from plays) in *.
    assert (Hk : Nat.min (S from) (length rest) = S from) by lia.
    pose proof (inserted_lookup (S from) rest x) as Hat.
    pose proof (inserted_delete (S from) rest x) as Hdel.
    rewrite Hk in Hat, Hdel.
    rewrite (reorder_valid _ _ _ x Hat), Hdel. f_equal.
    subst rest. rewrite delete_take_drop.
    assert (Hfrom : length (take from plays) = from)
      by (rewrite length_take; lia).
    rewrite take_app_length' by (symmetry; exact Hfrom).
    rewrite drop_app_length' by (symmetry; exact Hfrom).
    now apply take_drop_middle.
Qed.

End Reorder.

Lemma reorder_moves_one_play_of_three :
  ∃ next, reorder 0 2 ["p1"; "p2"; "p3"] = Some <$> next
          ∧ next !! 2 = Some "p1".
Proof.
  destruct (reorder_moves_one_play 0 2 ["p1"; "p2"; "p3"] "p1" eq_refl)
    as (next & H & _ & Hat & _).
  exists next. split; [exact H|exact Hat].
Defined.

End LegacyFacts.
